(** * Signed webhook service: validator and ledger

    A shallow embedding of the request validator
    (internal/infrastructure/validator: NonceStore, HMACValidator) and of the
    in-memory ledger (internal/infrastructure/repository: InMemoryLedger),
    together with the library functions they call: crypto/sha256,
    crypto/hmac, crypto/subtle, encoding/hex, strconv.ParseInt, package time
    and github.com/shopspring/decimal; and of their callers, the use cases
    (internal/application/usecase) and the HTTP handlers
    (internal/infrastructure/http: HandleWebhook, HandleBalance).

    Go strings are byte sequences and are modelled by [string]; [[]byte] is
    [list byte].  Signed 64-bit integers are [Z] with the wrap-around written
    out.  Go maps are [gmap]s. *)

From Stdlib Require Import ZArith List Ascii String Strings.Byte Lia QArith Qpower.
From stdpp Require Import gmap strings list fin_maps.

Local Open Scope Z_scope.

(** ** Machine integers *)

Module int64.

Definition min : Z := - 2 ^ 63.
Definition max : Z := 2 ^ 63 - 1.

(** Two's complement wrap-around of a mathematical integer into int64. *)
Definition wrap (x : Z) : Z := (x + 2 ^ 63) mod 2 ^ 64 - 2 ^ 63.

(** Unary minus on int64: [-x] wraps, so [neg min = min]. *)
Definition neg (x : Z) : Z := wrap (- x).

End int64.

(** ** crypto/sha256 (FIPS 180-4) *)

Module sha256.

Definition BlockSize : Z := 64.

Definition mask32 : Z := 0xFFFFFFFF.
Definition w32 (x : Z) : Z := Z.land x mask32.
Definition add32 (x y : Z) : Z := w32 (x + y).
Definition rotr (n x : Z) : Z :=
  Z.lor (Z.shiftr x n) (w32 (Z.shiftl x (32 - n))).
Definition not32 (x : Z) : Z := Z.lxor x mask32.

Definition Ch (x y z : Z) : Z := Z.lxor (Z.land x y) (Z.land (not32 x) z).
Definition Maj (x y z : Z) : Z :=
  Z.lxor (Z.lxor (Z.land x y) (Z.land x z)) (Z.land y z).
Definition bsig0 (x : Z) : Z := Z.lxor (Z.lxor (rotr 2 x) (rotr 13 x)) (rotr 22 x).
Definition bsig1 (x : Z) : Z := Z.lxor (Z.lxor (rotr 6 x) (rotr 11 x)) (rotr 25 x).
Definition ssig0 (x : Z) : Z := Z.lxor (Z.lxor (rotr 7 x) (rotr 18 x)) (Z.shiftr x 3).
Definition ssig1 (x : Z) : Z := Z.lxor (Z.lxor (rotr 17 x) (rotr 19 x)) (Z.shiftr x 10).

(** The round constants [_K] of sha256block.go. *)
Definition _K : list Z :=
  [ 0x428A2F98; 0x71374491; 0xB5C0FBCF; 0xE9B5DBA5;
    0x3956C25B; 0x59F111F1; 0x923F82A4; 0xAB1C5ED5;
    0xD807AA98; 0x12835B01; 0x243185BE; 0x550C7DC3;
    0x72BE5D74; 0x80DEB1FE; 0x9BDC06A7; 0xC19BF174;
    0xE49B69C1; 0xEFBE4786; 0x0FC19DC6; 0x240CA1CC;
    0x2DE92C6F; 0x4A7484AA; 0x5CB0A9DC; 0x76F988DA;
    0x983E5152; 0xA831C66D; 0xB00327C8; 0xBF597FC7;
    0xC6E00BF3; 0xD5A79147; 0x06CA6351; 0x14292967;
    0x27B70A85; 0x2E1B2138; 0x4D2C6DFC; 0x53380D13;
    0x650A7354; 0x766A0ABB; 0x81C2C92E; 0x92722C85;
    0xA2BFE8A1; 0xA81A664B; 0xC24B8B70; 0xC76C51A3;
    0xD192E819; 0xD6990624; 0xF40E3585; 0x106AA070;
    0x19A4C116; 0x1E376C08; 0x2748774C; 0x34B0BCB5;
    0x391C0CB3; 0x4ED8AA4A; 0x5B9CCA4F; 0x682E6FF3;
    0x748F82EE; 0x78A5636F; 0x84C87814; 0x8CC70208;
    0x90BEFFFA; 0xA4506CEB; 0xBEF9A3F7; 0xC67178F2 ].

(** The eight chaining words; [init] is the initial value. *)
Record digest := Digest {
  h0 : Z; h1 : Z; h2 : Z; h3 : Z; h4 : Z; h5 : Z; h6 : Z; h7 : Z
}.

Definition init : digest :=
  Digest 0x6A09E667 0xBB67AE85 0x3C6EF372 0xA54FF53A
         0x510E527F 0x9B05688C 0x1F83D9AB 0x5BE0CD19.

(** Big-endian decoding of a block into 32-bit words. *)
Fixpoint words (bs : list Z) : list Z :=
  match bs with
  | b0 :: b1 :: b2 :: b3 :: rest =>
      Z.lor (Z.lor (Z.shiftl b0 24) (Z.shiftl b1 16)) (Z.lor (Z.shiftl b2 8) b3)
      :: words rest
  | _ => []
  end.

(** Message schedule.  [recent] holds the schedule computed so far, newest
    first; the words 2, 7, 15 and 16 places back are at indices 1, 6, 14, 15. *)
Fixpoint schedule (n : nat) (recent : list Z) : list Z :=
  match n with
  | O => recent
  | S n' =>
      let w := add32 (add32 (ssig1 (nth 1 recent 0)) (nth 6 recent 0))
                     (add32 (ssig0 (nth 14 recent 0)) (nth 15 recent 0)) in
      schedule n' (w :: recent)
  end.

Definition round (d : digest) (kw : Z * Z) : digest :=
  let '(k, w) := kw in
  let t1 := add32 (add32 (add32 (h7 d) (bsig1 (h4 d))) (Ch (h4 d) (h5 d) (h6 d)))
                  (add32 k w) in
  let t2 := add32 (bsig0 (h0 d)) (Maj (h0 d) (h1 d) (h2 d)) in
  Digest (add32 t1 t2) (h0 d) (h1 d) (h2 d) (add32 (h3 d) t1) (h4 d) (h5 d) (h6 d).

(** One application of the compression function to a 64-byte block. *)
Definition block (d : digest) (bs : list Z) : digest :=
  let w := rev (schedule 48 (rev (words bs))) in
  let r := fold_left round (combine _K w) d in
  Digest (add32 (h0 d) (h0 r)) (add32 (h1 d) (h1 r)) (add32 (h2 d) (h2 r))
         (add32 (h3 d) (h3 r)) (add32 (h4 d) (h4 r)) (add32 (h5 d) (h5 r))
         (add32 (h6 d) (h6 r)) (add32 (h7 d) (h7 r)).

Fixpoint blocks (n : nat) (d : digest) (bs : list Z) : digest :=
  match n with
  | O => d
  | S n' => blocks n' (block d (firstn 64 bs)) (skipn 64 bs)
  end.

Definition be_bytes (width : nat) (x : Z) : list Z :=
  map (fun i => Z.land (Z.shiftr x (8 * Z.of_nat i)) 0xFF) (rev (seq 0 width)).

(** Padding: 0x80, zeros up to 56 mod 64, then the bit length on 8 bytes. *)
Definition pad (msg : list Z) : list Z :=
  let len := Z.of_nat (length msg) in
  let zeros := (55 - len) mod 64 in
  msg ++ [0x80] ++ repeat 0 (Z.to_nat zeros) ++ be_bytes 8 (8 * len).

Definition Sum256_Z (msg : list Z) : list Z :=
  let p := pad msg in
  let d := blocks (length p / 64)%nat init p in
  flat_map (be_bytes 4) [h0 d; h1 d; h2 d; h3 d; h4 d; h5 d; h6 d; h7 d].

Definition byte_Z (b : byte) : Z := Z.of_N (Byte.to_N b).
Definition Z_byte (z : Z) : byte :=
  match Byte.of_N (Z.to_N (z mod 256)) with Some b => b | None => x00 end.

Definition Sum256 (msg : list byte) : list byte :=
  map Z_byte (Sum256_Z (map byte_Z msg)).

End sha256.

(** ** crypto/hmac (RFC 2104), instantiated with sha256.New *)

Module hmac.

Definition xor_with (c : Z) (key : list byte) : list byte :=
  map (fun b => sha256.Z_byte (Z.lxor (sha256.byte_Z b) c)) key.

(** [hmac.New]: a key longer than the block size is hashed first, then the
    key is zero-padded to the block size. *)
Definition block_key (key : list byte) : list byte :=
  let k := if (sha256.BlockSize <? Z.of_nat (length key)) then sha256.Sum256 key else key in
  k ++ repeat x00 (Z.to_nat sha256.BlockSize - length k).

(** [mac.Write(message); mac.Sum(nil)]. *)
Definition Sum (key message : list byte) : list byte :=
  let k := block_key key in
  sha256.Sum256 (xor_with 0x5C k ++ sha256.Sum256 (xor_with 0x36 k ++ message)).

End hmac.

(** ** crypto/subtle and hmac.Equal *)

Module subtle.

(** [ConstantTimeByteEq(x, y uint8) int]:
    [int((uint32(x^y) - 1) >> 31)]. *)
Definition ConstantTimeByteEq (x y : Z) : Z :=
  Z.shiftr ((Z.lxor x y - 1) mod 2 ^ 32) 31.

(** The loop [for i := 0; i < len(x); i++ { v |= x[i] ^ y[i] }]: every pair
    of bytes is visited, whatever the earlier ones were. *)
Fixpoint accumulate (v : Z) (x y : list byte) : Z :=
  match x, y with
  | a :: x', b :: y' =>
      accumulate (Z.lor v (Z.lxor (sha256.byte_Z a) (sha256.byte_Z b))) x' y'
  | _, _ => v
  end.

Definition ConstantTimeCompare (x y : list byte) : Z :=
  if negb (Nat.eqb (length x) (length y)) then 0
  else ConstantTimeByteEq (accumulate 0 x y) 0.

End subtle.

Module hex.

Definition hextable : list ascii :=
  list_ascii_of_string "0123456789abcdef".

Definition digit (n : Z) : ascii := nth (Z.to_nat n) hextable "0"%char.

(** [hex.EncodeToString]: two lower-case digits per byte, high nibble first. *)
Fixpoint EncodeToString (src : list byte) : string :=
  match src with
  | [] => EmptyString
  | b :: rest =>
      let v := sha256.byte_Z b in
      String (digit (Z.shiftr v 4)) (String (digit (Z.land v 0x0F)) (EncodeToString rest))
  end.

End hex.

(** ** strconv.ParseInt *)

Module strconv.

Definition is_digit (c : ascii) : bool :=
  let n := N_of_ascii c in (48 <=? n)%N && (n <=? 57)%N.

Definition digit_val (c : ascii) : Z := Z.of_N (N_of_ascii c) - 48.

(** The digit loop of [ParseUint] in base 10 (no underscores: they are only
    read when the base argument is 0).  [None] is a syntax error. *)
Fixpoint parse_digits (acc : Z) (s : list ascii) : option Z :=
  match s with
  | [] => Some acc
  | c :: s' =>
      if is_digit c then parse_digits (10 * acc + digit_val c) s' else None
  end.

(** [ParseUint(s, 10, bitSize)]: [None] stands for [err != nil], which is a
    syntax error (empty string, a character that is no digit) or a range
    error (the value does not fit [bitSize] bits). *)
Definition ParseUint (s : list ascii) (bitSize : Z) : option Z :=
  match s with
  | [] => None
  | _ =>
      match parse_digits 0 s with
      | Some un => if un <? 2 ^ bitSize then Some un else None
      | None => None
      end
  end.

(** [ParseInt(s, 10, bitSize)]: an optional sign, then [ParseUint]; the
    magnitude must be below the cutoff [2^(bitSize-1)] (at most the cutoff
    after a minus sign). *)
Definition ParseInt (s : list ascii) (bitSize : Z) : option Z :=
  match s with
  | [] => None
  | c :: rest =>
      let neg := Ascii.eqb c "-" in
      let s' := if Ascii.eqb c "+" || neg then rest else s in
      match ParseUint s' bitSize with
      | None => None
      | Some un =>
          let cutoff := 2 ^ (bitSize - 1) in
          if negb neg && (cutoff <=? un) then None
          else if neg && (cutoff <? un) then None
          else Some (if neg then - un else un)
      end
  end.

End strconv.

(** ** package time *)

Module time.

(** [Duration] is an int64 count of nanoseconds. *)
Definition Nanosecond : Z := 1.
Definition Second : Z := 1000000000 * Nanosecond.
Definition Minute : Z := 60 * Second.
Definition Hour : Z := 60 * Minute.

Definition minDuration : Z := int64.min.
Definition maxDuration : Z := int64.max.

(** An instant ([Time]) is its number of nanoseconds since the Unix epoch.
    [Unix(sec, 0)] stores [sec + unixToInternal] in an int64. *)
Definition unixToInternal : Z := 62135596800.

Definition Unix (sec : Z) : Z :=
  (int64.wrap (sec + unixToInternal) - unixToInternal) * Second.

(** [t.Sub(u)]: the difference, or the minimum (maximum) duration when the
    difference does not fit a [Duration]. *)
Definition Sub (t u : Z) : Z :=
  let d := t - u in
  if d <? minDuration then minDuration
  else if maxDuration <? d then maxDuration
  else d.

End time.

(** ** math/big: Int.String and Int.SetString in base 10 *)

Module big.

Definition digit_char (d : Z) : ascii := ascii_of_N (Z.to_N (48 + d)).

(** Decimal digits of a natural number, most significant first. *)
Fixpoint digits_aux (fuel : nat) (n : Z) (acc : list ascii) : list ascii :=
  match fuel with
  | O => acc
  | S fuel' =>
      let acc' := digit_char (n mod 10) :: acc in
      if n / 10 =? 0 then acc' else digits_aux fuel' (n / 10) acc'
  end.

Definition digits (n : Z) : list ascii :=
  digits_aux (S (Z.to_nat (Z.log2 n))) n [].

(** [x.String()]. *)
Definition String (x : Z) : list ascii :=
  if x <? 0 then "-"%char :: digits (- x) else digits x.

(** [z.SetString(s, 10)]: an optional sign and at least one digit, nothing
    else; [None] stands for [ok == false]. *)
Definition SetString (s : list ascii) : option Z :=
  match s with
  | [] => None
  | c :: rest =>
      let neg := Ascii.eqb c "-" in
      let s' := if Ascii.eqb c "+" || neg then rest else s in
      match s' with
      | [] => None
      | _ =>
          match strconv.parse_digits 0 s' with
          | Some n => Some (if neg then - n else n)
          | None => None
          end
      end
  end.

End big.

(** ** github.com/shopspring/decimal

    The functions the ledger calls, [NewFromString], [Add] and
    [StringFixed], with [rescale], [Round] and [string] behind them, as
    decimal.go defines them. *)

Module decimal.

(** A decimal is [value * 10 ^ exp]; [value] is a big integer, [exp] an
    int32. *)
Record Decimal := mkDecimal { value : Z; exp : Z }.

Definition MinInt32 : Z := - 2 ^ 31.
Definition MaxInt32 : Z := 2 ^ 31 - 1.

Definition is_e (c : ascii) : bool := Ascii.eqb c "E" || Ascii.eqb c "e".
Definition is_dot (c : ascii) : bool := Ascii.eqb c ".".

(** [strings.IndexAny(value, chars)] for a set of characters given as a
    predicate. *)
Fixpoint index_any (p : ascii -> bool) (s : list ascii) : option nat :=
  match s with
  | [] => None
  | c :: s' => if p c then Some O else option_map S (index_any p s')
  end.

(** The loop that looks for the decimal point: [None] when a second point is
    met, otherwise the index of the point, if any. *)
Fixpoint point_index (i : nat) (pIndex : option nat) (s : list ascii)
  : option (option nat) :=
  match s with
  | [] => Some pIndex
  | c :: s' =>
      if is_dot c then
        match pIndex with
        | Some _ => None
        | None => point_index (S i) (Some i) s'
        end
      else point_index (S i) pIndex s'
  end.

(** [NewFromString]; [None] stands for [err != nil]. *)
Definition NewFromString (s : string) : option Decimal :=
  let original := list_ascii_of_string s in
  let scientific :=
    match index_any is_e original with
    | Some eIndex =>
        match strconv.ParseInt (skipn (S eIndex) original) 32 with
        | Some expInt => Some (firstn eIndex original, expInt)
        | None => None
        end
    | None => Some (original, 0)
    end in
  match scientific with
  | None => None
  | Some (value, exp0) =>
      match point_index 0 None value with
      | None => None
      | Some pIndex =>
          let vLen := length value in
          let '(intString, exp) :=
            match pIndex with
            | None => (value, exp0)
            | Some p =>
                (if (S p <? vLen)%nat then firstn p value ++ skipn (S p) value
                 else firstn p value,
                 exp0 - Z.of_nat (length (skipn (S p) value)))
            end in
          let parsed :=
            if (length intString <=? 18)%nat then strconv.ParseInt intString 64
            else big.SetString intString in
          match parsed with
          | None => None
          | Some dValue =>
              if (exp <? MinInt32) || (MaxInt32 <? exp) then None
              else Some (mkDecimal dValue exp)
          end
      end
  end.

(** [d.rescale(exp)]: the same number with another exponent; a larger
    exponent drops digits ([Quo] truncates towards zero). *)
Definition rescale (d : Decimal) (e : Z) : Decimal :=
  if exp d =? e then d
  else
    let expScale := 10 ^ Z.abs (e - exp d) in
    if exp d <? e then mkDecimal (Z.quot (value d) expScale) e
    else mkDecimal (value d * expScale) e.

(** [d.Add(d2)], through [RescalePair]. *)
Definition Add (d d2 : Decimal) : Decimal :=
  let '(rd, rd2) :=
    if exp d <? exp d2 then (d, rescale d2 (exp d))
    else if exp d2 <? exp d then (rescale d (exp d2), d2)
    else (d, d2) in
  mkDecimal (value rd + value rd2) (exp rd).

(** [d.Round(places)]: half away from zero.  [DivMod] is Euclidean. *)
Definition Round (d : Decimal) (places : Z) : Decimal :=
  if exp d =? - places then d
  else
    let ret := rescale d (- places - 1) in
    let v := if value ret <? 0 then value ret - 5 else value ret + 5 in
    let q := v / 10 in
    let m := v mod 10 in
    mkDecimal (if (q <? 0) && negb (m =? 0) then q + 1 else q) (exp ret + 1).

(** [d.string(false)]. *)
Definition string_ (d : Decimal) : list ascii :=
  if 0 <=? exp d then big.String (value (rescale d 0))
  else
    let str := big.String (Z.abs (value d)) in
    let n := Z.of_nat (length str) in
    let '(intPart, fractionalPart) :=
      if - exp d <? n then
        (firstn (Z.to_nat (n + exp d)) str, skipn (Z.to_nat (n + exp d)) str)
      else
        (["0"%char], repeat "0"%char (Z.to_nat (- exp d - n)) ++ str) in
    let number :=
      if (0 <? length fractionalPart)%nat
      then intPart ++ "."%char :: fractionalPart
      else intPart in
    if value d <? 0 then "-"%char :: number else number.

Definition StringFixed (d : Decimal) (places : Z) : string :=
  string_of_list_ascii (string_ (Round d places)).

(** A decimal with at most [places] fractional digits, counted in units of
    [10 ^ - places]. *)
Definition units (d : Decimal) (places : Z) : Z := value d * 10 ^ (exp d + places).

(** The number a decimal stands for. *)
Definition to_Q (d : Decimal) : Q := (inject_Z (value d) * Qpower 10 (exp d))%Q.

End decimal.

(** [[]byte(s)]. *)
Definition bytes_of (s : string) : list byte := list_byte_of_string s.

(** The line feed that ["\n"] denotes. *)
Definition LF : string := String (ascii_of_N 10) EmptyString.

(** ** internal/infrastructure/validator *)

Module validator.

(** *** NonceStore

    [nonces map[string]time.Time], guarded by a mutex: every operation below
    runs with the lock held, so it is a function of the map. *)

Definition NewNonceStore : gmap string Z := ∅.

(** The clock is read up to three times while one request is validated:
    [time.Now()] in [ValidateRequest], [time.Since] in [IsValid] (only when
    the nonce is already recorded) and [time.Now()] in [cleanup] (only when
    the sweep runs).  A [Clock] holds the three readings of one call. *)
Record Clock := mkClock { at_validate : Z; at_lookup : Z; at_cleanup : Z }.

(** [cleanup]: drops every nonce whose recorded time is more than an hour
    before [now]. *)
Definition cleanup (now : Z) (nonces : gmap string Z) : gmap string Z :=
  filter (λ kv : string * Z, ¬ time.Hour < time.Sub now kv.2) nonces.

(** The tail of [IsValid]: record the nonce, sweep when the map has grown
    past 10000 entries, accept. *)
Definition record_nonce (clk : Clock) (nonce : string) (timestamp : Z)
    (nonces : gmap string Z) : bool * gmap string Z :=
  let nonces' := <[nonce := timestamp]> nonces in
  (true,
   if 10000 <? Z.of_nat (size nonces') then cleanup (at_cleanup clk) nonces'
   else nonces').

Definition IsValid (clk : Clock) (nonce : string) (timestamp : Z)
    (nonces : gmap string Z) : bool * gmap string Z :=
  match nonces !! nonce with
  | Some existingTime =>
      if time.Hour <? time.Sub (at_lookup clk) existingTime
      then record_nonce clk nonce timestamp (delete nonce nonces)
      else (false, nonces)
  | None => record_nonce clk nonce timestamp nonces
  end.

(** *** HMACValidator *)

Record HMACValidator := mkValidator {
  secret : string;
  timestampTolerance : Z
}.

(** What [r.Header.Get] returns for the three headers: the empty string when
    the header is absent. *)
Record Request := mkRequest {
  X_Timestamp : string;
  X_Nonce : string;
  X_Signature : string
}.

(** The errors of [ValidateRequest], one constructor per [fmt.Errorf]. *)
Inductive AuthError :=
| MissingTimestamp
| MissingNonce
| MissingSignature
| InvalidTimestampFormat
| TimestampOutOfTolerance
| DuplicateNonce
| ComputeSignatureFailed
| InvalidSignature.

#[global] Instance AuthError_eq_dec : EqDecision AuthError.
Proof. solve_decision. Defined.

(** The constant part of each error's message. *)
Definition Error (e : AuthError) : string :=
  match e with
  | MissingTimestamp => "missing X-Timestamp header"
  | MissingNonce => "missing X-Nonce header"
  | MissingSignature => "missing X-Signature header"
  | InvalidTimestampFormat => "invalid X-Timestamp format: "
  | TimestampOutOfTolerance => "timestamp out of tolerance: "
  | DuplicateNonce => "duplicate nonce detected: possible replay attack"
  | ComputeSignatureFailed => "failed to compute signature: "
  | InvalidSignature => "invalid signature"
  end.

(** [computeSignature]; [mac.Write] never returns an error, so the result is
    always [inr]. *)
Definition computeSignature (v : HMACValidator) (timestamp nonce : string)
    (body : list byte) : unit + string :=
  let message :=
    String.append timestamp
      (String.append LF (String.append nonce
         (String.append LF (string_of_list_byte body)))) in
  inr (hex.EncodeToString (hmac.Sum (bytes_of (secret v)) (bytes_of message))).

(** [hmac.Equal]. *)
Definition hmac_Equal (mac1 mac2 : list byte) : bool :=
  subtle.ConstantTimeCompare mac1 mac2 =? 1.

(** The freshness test: [timeDiff := now.Sub(requestTime)], negated when
    negative, compared with the tolerance. *)
Definition out_of_tolerance (v : HMACValidator) (now requestTime : Z) : bool :=
  let timeDiff := time.Sub now requestTime in
  let timeDiff := if timeDiff <? 0 then int64.neg timeDiff else timeDiff in
  timestampTolerance v <? timeDiff.

(** [ValidateRequest]: the error returned ([None] is [nil]) and the nonce
    store afterwards.  Logging is left out. *)
Definition ValidateRequest (v : HMACValidator) (clk : Clock) (r : Request)
    (body : list byte) (nonces : gmap string Z)
  : option AuthError * gmap string Z :=
  let timestampStr := X_Timestamp r in
  let nonce := X_Nonce r in
  let signature := X_Signature r in
  if decide (timestampStr = "") then (Some MissingTimestamp, nonces)
  else if decide (nonce = "") then (Some MissingNonce, nonces)
  else if decide (signature = "") then (Some MissingSignature, nonces)
  else
    match strconv.ParseInt (list_ascii_of_string timestampStr) 64 with
    | None => (Some InvalidTimestampFormat, nonces)
    | Some timestamp =>
        let requestTime := time.Unix timestamp in
        if out_of_tolerance v (at_validate clk) requestTime
        then (Some TimestampOutOfTolerance, nonces)
        else
          let '(valid, nonces') := IsValid clk nonce requestTime nonces in
          if negb valid then (Some DuplicateNonce, nonces')
          else
            match computeSignature v timestampStr nonce body with
            | inl _ => (Some ComputeSignatureFailed, nonces')
            | inr expectedSignature =>
                if negb (hmac_Equal (bytes_of expectedSignature) (bytes_of signature))
                then (Some InvalidSignature, nonces')
                else (None, nonces')
            end
    end.

(** A call of [ValidateRequest] as an event, and the store after a sequence
    of calls. *)
Record Call := mkCall { call_clock : Clock; call_request : Request; call_body : list byte }.

Definition run (v : HMACValidator) (calls : list Call) (nonces : gmap string Z)
  : gmap string Z :=
  fold_left
    (fun st c => snd (ValidateRequest v (call_clock c) (call_request c) (call_body c) st))
    calls nonces.

(** The clock readings of a call. *)
Definition readings (c : Clock) : list Z := [at_validate c; at_lookup c; at_cleanup c].

(** A clock that shows the same instant, [sec] seconds after the epoch, at
    all three readings. *)
Definition instant (sec : Z) : Clock :=
  mkClock (sec * time.Second) (sec * time.Second) (sec * time.Second).

(** No reading of the clock [c] is later than [bound]. *)
Definition not_after (bound : Z) (c : Clock) : bool :=
  forallb (fun x => x <=? bound) (readings c).

(** *** The order of checks as the specification lists it *)

Inductive Check :=
| TimestampPresent
| NoncePresent
| SignaturePresent
| TimestampParses
| Fresh
| Unseen
| SignatureMatches.

Definition check_order : list Check :=
  [TimestampPresent; NoncePresent; SignaturePresent; TimestampParses; Fresh;
   Unseen; SignatureMatches].

Definition failure (c : Check) : AuthError :=
  match c with
  | TimestampPresent => MissingTimestamp
  | NoncePresent => MissingNonce
  | SignaturePresent => MissingSignature
  | TimestampParses => InvalidTimestampFormat
  | Fresh => TimestampOutOfTolerance
  | Unseen => DuplicateNonce
  | SignatureMatches => InvalidSignature
  end.

(** The request time a timestamp header denotes (the epoch when it does not
    parse; the checks that use it come after [TimestampParses]). *)
Definition request_time (r : Request) : Z :=
  match strconv.ParseInt (list_ascii_of_string (X_Timestamp r)) 64 with
  | Some timestamp => time.Unix timestamp
  | None => time.Unix 0
  end.

(** The signature the validator expects for a request. *)
Definition expected_signature (v : HMACValidator) (r : Request) (body : list byte)
  : string :=
  hex.EncodeToString
    (hmac.Sum (bytes_of (secret v))
       (bytes_of (X_Timestamp r) ++ [x0a] ++ bytes_of (X_Nonce r) ++ [x0a] ++ body)).

(** A request carrying the signature the validator expects. *)
Definition signed (v : HMACValidator) (timestamp nonce : string) (body : list byte)
  : Request :=
  mkRequest timestamp nonce
    (expected_signature v (mkRequest timestamp nonce EmptyString) body).

(** Each check on its own, as a predicate of the request and the store. *)
Definition passes (v : HMACValidator) (clk : Clock) (r : Request)
    (body : list byte) (nonces : gmap string Z) (c : Check) : bool :=
  match c with
  | TimestampPresent => negb (String.eqb (X_Timestamp r) "")
  | NoncePresent => negb (String.eqb (X_Nonce r) "")
  | SignaturePresent => negb (String.eqb (X_Signature r) "")
  | TimestampParses =>
      match strconv.ParseInt (list_ascii_of_string (X_Timestamp r)) 64 with
      | Some _ => true
      | None => false
      end
  | Fresh => negb (out_of_tolerance v (at_validate clk) (request_time r))
  | Unseen => fst (IsValid clk (X_Nonce r) (request_time r) nonces)
  | SignatureMatches => String.eqb (X_Signature r) (expected_signature v r body)
  end.

(** The error of the first check that fails, in the listed order. *)
Definition first_failure (v : HMACValidator) (clk : Clock) (r : Request)
    (body : list byte) (nonces : gmap string Z) : option AuthError :=
  option_map failure
    (List.find (fun c => negb (passes v clk r body nonces c)) check_order).

#[global] Instance Check_eq_dec : EqDecision Check.
Proof. solve_decision. Defined.

(** The checks listed before [c]. *)
Fixpoint before (c : Check) (l : list Check) : list Check :=
  match l with
  | [] => []
  | x :: l' => if decide (x = c) then [] else x :: before c l'
  end.

(** The request gets as far as check [c]: the checks before it all pass. *)
Definition reaches (v : HMACValidator) (clk : Clock) (r : Request)
    (body : list byte) (nonces : gmap string Z) (c : Check) : bool :=
  forallb (passes v clk r body nonces) (before c check_order).

End validator.

(** ** internal/infrastructure/repository *)

Module repository.

(** [entity.LedgerEntry]. *)
Record LedgerEntry := mkEntry { User : string; Asset : string; Amount : string }.

(** A Go map is a reference to a mutable object.  The inner maps of
    [balances map[string]map[string]string] and the maps handed out by
    [GetBalance] are objects of one heap, named by their address; two
    references alias when the addresses are equal. *)
Record State := mkState {
  heap : gmap positive (gmap string string);
  balances : gmap string positive;
  entries : list LedgerEntry
}.

Inductive LedgerError := InvalidAmountFormat.

(** [NewInMemoryLedger] in a given heap. *)
Definition NewInMemoryLedger (h : gmap positive (gmap string string)) : State :=
  mkState h ∅ [].

(** [make(map[string]string)]: a new empty object at an unused address. *)
Definition make_map (h : gmap positive (gmap string string))
  : positive * gmap positive (gmap string string) :=
  let l := fresh (dom h) in (l, <[l := ∅]> h).

(** [m[k]] on the object at address [l]: the empty string when absent. *)
Definition map_get (h : gmap positive (gmap string string)) (l : positive)
    (k : string) : string :=
  default EmptyString ((h !!! l) !! k).

(** [m[k] = v] on the object at address [l]. *)
Definition map_set (h : gmap positive (gmap string string)) (l : positive)
    (k v : string) : gmap positive (gmap string string) :=
  <[l := <[k := v]> (h !!! l)]> h.

(** [addDecimalStrings]; [None] stands for [err != nil]. *)
Definition addDecimalStrings (a b : string) : option string :=
  let a := if decide (a = "") then "0" else a in
  let b := if decide (b = "") then "0" else b in
  match decimal.NewFromString a with
  | None => None
  | Some aDec =>
      match decimal.NewFromString b with
      | None => None
      | Some bDec => Some (decimal.StringFixed (decimal.Add aDec bDec) 8)
      end
  end.

(** The first half of [AddEntry], up to the read of the current balance:
    the user's map is created when missing, then the balance is read. *)
Definition prepare (entry : LedgerEntry) (σ : State) : State * positive * string :=
  let '(σ1, l) :=
    match balances σ !! User entry with
    | Some l => (σ, l)
    | None =>
        let '(l, h) := make_map (heap σ) in
        (mkState h (<[User entry := l]> (balances σ)) (entries σ), l)
    end in
  let currentBalance := map_get (heap σ1) l (Asset entry) in
  let currentBalance := if decide (currentBalance = "") then "0" else currentBalance in
  (σ1, l, currentBalance).

(** The second half of [AddEntry]: the balance is written and the entry is
    appended to the audit trail. *)
Definition commit (entry : LedgerEntry) (l : positive) (newBalance : string)
    (σ : State) : State :=
  mkState (map_set (heap σ) l (Asset entry) newBalance) (balances σ)
          (entries σ ++ [entry]).

(** [AddEntry], run with the write lock held. *)
Definition AddEntry (entry : LedgerEntry) (σ : State) : option LedgerError * State :=
  let '(σ1, l, currentBalance) := prepare entry σ in
  match addDecimalStrings currentBalance (Amount entry) with
  | None => (Some InvalidAmountFormat, σ1)
  | Some newBalance => (None, commit entry l newBalance σ1)
  end.

(** [entity.BalanceResponse]; [Balances] is a reference to a map. *)
Record BalanceResponse := mkResponse { resp_User : string; Balances : positive }.

(** The map the ledger holds for a user (empty when it holds none). *)
Definition user_balances (σ : State) (user : string) : gmap string string :=
  match balances σ !! user with
  | Some l => heap σ !!! l
  | None => ∅
  end.

(** [GetBalance], run with the read lock held.  [balancesCopy] is a new
    object, filled key by key from the user's map. *)
Definition GetBalance (user : string) (σ : State)
  : (BalanceResponse * option LedgerError) * State :=
  let userBalances := user_balances σ user in
  let '(balancesCopy, h) := make_map (heap σ) in
  let h' :=
    map_fold (fun asset balance h => map_set h balancesCopy asset balance)
             h userBalances in
  ((mkResponse user balancesCopy, None), mkState h' (balances σ) (entries σ)).

(** The addresses the ledger itself refers to. *)
Definition owned (σ : State) (l : positive) : Prop :=
  ∃ user, balances σ !! user = Some l.

(** The ledger's maps exist, no two users share one, and every balance
    comes from an accepted entry. *)
Definition well_formed (σ : State) : Prop :=
  (∀ user l, balances σ !! user = Some l → is_Some (heap σ !! l)) ∧
  (∀ u1 u2 l, balances σ !! u1 = Some l → balances σ !! u2 = Some l → u1 = u2) ∧
  (∀ user asset balance,
      user_balances σ user !! asset = Some balance →
      ∃ e, e ∈ entries σ ∧ User e = user ∧ Asset e = asset).

(** The state after a sequence of [AddEntry] calls, errors ignored. *)
Definition add_all (es : list LedgerEntry) (σ : State) : State :=
  fold_left (fun st e => snd (AddEntry e st)) es σ.

(** The balance string stored for a user and an asset. *)
Definition balance_of (σ : State) (user asset : string) : option string :=
  user_balances σ user !! asset.

(** The number of fractional digits a decimal string shows. *)
Definition fraction_digits (s : string) : option nat :=
  let l := list_ascii_of_string s in
  match decimal.index_any decimal.is_dot l with
  | Some p => Some (length (skipn (S p) l))
  | None => None
  end.

End repository.

(** ** Goroutines calling AddEntry

    Each goroutine runs [AddEntry] on its own entry.  [l.mu.Lock()] blocks
    while the mutex is held; between [Lock] and the deferred [Unlock] the
    body is run in two steps (read and add, then write and append), so that
    another goroutine could run in between if the mutex let it. *)

Module goroutines.

Import repository.

Inductive Thread :=
| AtLock (entry : LedgerEntry)
| AtAdd (entry : LedgerEntry)
| AtWrite (entry : LedgerEntry) (l : positive) (sum : option string)
| AtUnlock (err : option LedgerError)
| Returned (err : option LedgerError).

Record Machine := mkMachine {
  locked : bool;
  store : State;
  threads : list Thread
}.

Definition start (es : list LedgerEntry) (σ : State) : Machine :=
  mkMachine false σ (map AtLock es).

(** One step of goroutine [i]; a goroutine that cannot move (it waits for
    the mutex, or it has returned) leaves the machine as it is. *)
Definition step (m : Machine) (i : nat) : Machine :=
  match threads m !! i with
  | Some (AtLock entry) =>
      if locked m then m
      else mkMachine true (store m) (<[i := AtAdd entry]> (threads m))
  | Some (AtAdd entry) =>
      let '(σ1, l, currentBalance) := prepare entry (store m) in
      mkMachine (locked m) σ1
        (<[i := AtWrite entry l (addDecimalStrings currentBalance (Amount entry))]>
           (threads m))
  | Some (AtWrite entry l (Some newBalance)) =>
      mkMachine (locked m) (commit entry l newBalance (store m))
        (<[i := AtUnlock None]> (threads m))
  | Some (AtWrite entry l None) =>
      mkMachine (locked m) (store m)
        (<[i := AtUnlock (Some InvalidAmountFormat)]> (threads m))
  | Some (AtUnlock err) =>
      mkMachine false (store m) (<[i := Returned err]> (threads m))
  | Some (Returned _) | None => m
  end.

(** A schedule names the goroutine that moves at each step. *)
Definition exec (schedule : list nat) (m : Machine) : Machine :=
  fold_left step schedule m.

Definition returned (t : Thread) : bool :=
  match t with Returned _ => true | _ => false end.

Definition all_returned (m : Machine) : bool := forallb returned (threads m).

(** A goroutine outside the critical section: before [Lock] or after
    [Unlock]. *)
Definition outside (t : Thread) : bool :=
  match t with AtLock _ | Returned _ => true | _ => false end.

(** The entry a goroutine has still to apply, if any. *)
Definition pending (t : Thread) : list LedgerEntry :=
  match t with
  | AtLock entry | AtAdd entry | AtWrite entry _ _ => [entry]
  | AtUnlock _ | Returned _ => []
  end.

(** What holds of the store while goroutine [t] is inside the critical
    section, [ds] being the entries applied before it took the mutex. *)
Definition in_section (σ0 : State) (ds : list LedgerEntry) (t : Thread) (st : State)
  : Prop :=
  match t with
  | AtAdd _ => st = add_all ds σ0
  | AtWrite entry l sum =>
      ∃ currentBalance,
        prepare entry (add_all ds σ0) = (st, l, currentBalance)
        ∧ sum = addDecimalStrings currentBalance (Amount entry)
  | AtUnlock _ => st = add_all ds σ0
  | AtLock _ | Returned _ => False
  end.

(** The machine is in a state of a sequential run: the store is the result
    of applying the entries [ds] one after the other, up to the step the
    goroutine holding the mutex is at, and [ds] with the entries still to be
    applied make up the entries [es] the goroutines started with. *)
Definition linearized (σ0 : State) (es ds : list LedgerEntry) (m : Machine) : Prop :=
  Permutation (ds ++ concat (map pending (threads m))) es
  ∧ if locked m then
      ∃ i t, threads m !! i = Some t
             ∧ in_section σ0 ds t (store m)
             ∧ ∀ j t', j ≠ i → threads m !! j = Some t' → outside t' = true
    else
      store m = add_all ds σ0 ∧ Forall (fun t => outside t = true) (threads m).

End goroutines.

(** ** Formats and totals used to state properties of the code above *)

Module formats.

(** A lower-case hexadecimal digit, a character of [hex.hextable]. *)
Definition is_lower_hex (c : ascii) : bool := existsb (Ascii.eqb c) hex.hextable.

(** The bytes [computeSignature] feeds to the MAC. *)
Definition signing_input (timestamp nonce : string) (body : list byte) : list byte :=
  bytes_of timestamp ++ [x0a] ++ bytes_of nonce ++ [x0a] ++ body.

(** The string holds no line feed. *)
Definition single_line (s : string) : bool :=
  forallb (fun b => negb (Byte.eqb b x0a)) (bytes_of s).

(** The amount [addDecimalStrings] parses: the empty string counts as zero. *)
Definition amount_read (amount : string) : string :=
  if decide (amount = "") then "0" else amount.

(** The amount of the entry is one [AddEntry] accepts. *)
Definition accepts_amount (e : repository.LedgerEntry) : bool :=
  match decimal.NewFromString (amount_read (repository.Amount e)) with
  | Some _ => true
  | None => false
  end.

(** The amount of the entry, when it parses, has at most eight fractional
    digits. *)
Definition precise (e : repository.LedgerEntry) : bool :=
  match decimal.NewFromString (amount_read (repository.Amount e)) with
  | Some d => -8 <=? decimal.exp d
  | None => true
  end.

(** The entry is for the given account. *)
Definition for_account (user asset : string) (e : repository.LedgerEntry) : bool :=
  String.eqb (repository.User e) user && String.eqb (repository.Asset e) asset.

(** The amount of an entry in units of [10 ^ -8]. *)
Definition units_of (e : repository.LedgerEntry) : Z :=
  match decimal.NewFromString (amount_read (repository.Amount e)) with
  | Some d => decimal.units d 8
  | None => 0
  end.

(** The sum, in units of [10 ^ -8], of the amounts of the entries for an
    account. *)
Definition account_total (user asset : string) (es : list repository.LedgerEntry) : Z :=
  fold_right Z.add 0 (map units_of (List.filter (for_account user asset) es)).

(** The fixed-point string with eight fractional digits for a number of
    units of [10 ^ -8]. *)
Definition fixed8 (u : Z) : string :=
  decimal.StringFixed (decimal.mkDecimal u (-8)) 8.

(** Every balance the ledger stores is such a string. *)
Definition normalised (σ : repository.State) : Prop :=
  ∀ user asset balance,
    repository.balance_of σ user asset = Some balance → ∃ u, balance = fixed8 u.

End formats.

(** ** internal/domain/entity: WebhookRequest *)

Module entity.

Record WebhookRequest := mkWebhookRequest {
  User : string;
  Asset : string;
  Amount : string
}.

(** [ErrMissingUser], [ErrMissingAsset], [ErrMissingAmount]. *)
Inductive ValidationError := ErrMissingUser | ErrMissingAsset | ErrMissingAmount.

Definition Error (e : ValidationError) : string :=
  match e with
  | ErrMissingUser => "missing required field: user"
  | ErrMissingAsset => "missing required field: asset"
  | ErrMissingAmount => "missing required field: amount"
  end.

(** [WebhookRequest.Validate]; [None] is [nil]. *)
Definition Validate (w : WebhookRequest) : option ValidationError :=
  if decide (User w = "") then Some ErrMissingUser
  else if decide (Asset w = "") then Some ErrMissingAsset
  else if decide (Amount w = "") then Some ErrMissingAmount
  else None.

End entity.

(** ** internal/application/usecase *)

Module usecase.

(** The errors [Execute] hands on: the entity's or the repository's. *)
Inductive Error :=
| Invalid (e : entity.ValidationError)
| Ledger (e : repository.LedgerError).

(** [ProcessWebhookUseCase.Execute].  The use case holds a validator but
    does not call it, and does not read the [HTTPRequest] of its argument;
    the repository is the in-memory ledger. *)
Definition Execute (req : entity.WebhookRequest) (σ : repository.State)
  : option Error * repository.State :=
  match entity.Validate req with
  | Some err => (Some (Invalid err), σ)
  | None =>
      let entry :=
        repository.mkEntry (entity.User req) (entity.Asset req) (entity.Amount req) in
      let '(err, σ') := repository.AddEntry entry σ in
      (option_map Ledger err, σ')
  end.

(** [GetBalanceUseCase.Execute]. *)
Definition GetBalance (user : string) (σ : repository.State)
  : (repository.BalanceResponse * option repository.LedgerError) * repository.State :=
  repository.GetBalance user σ.

End usecase.

(** ** package strings *)

Module gostrings.

(** [s] without the leading [prefix], when it starts with it. *)
Fixpoint cut_prefix (s prefix : string) {struct prefix} : option string :=
  match prefix with
  | EmptyString => Some s
  | String c prefix' =>
      match s with
      | EmptyString => None
      | String d s' => if Ascii.eqb c d then cut_prefix s' prefix' else None
      end
  end.

(** [strings.TrimPrefix]. *)
Definition TrimPrefix (s prefix : string) : string :=
  match cut_prefix s prefix with
  | Some rest => rest
  | None => s
  end.

End gostrings.

(** ** internal/infrastructure/http: the handlers

    The handlers are run behind the middleware of [SetupRoutes], which puts
    the logger they fetch into the context.  [json.Unmarshal] into a
    [WebhookRequest] is a parameter: it fails or yields the three fields. *)

Module httphandler.

Definition StatusOK : Z := 200.
Definition StatusBadRequest : Z := 400.
Definition StatusUnauthorized : Z := 401.
Definition StatusMethodNotAllowed : Z := 405.
Definition StatusInternalServerError : Z := 500.

(** What the handlers read of an [http.Request]: the method, [URL.Path],
    the three headers, and the result of [io.ReadAll(r.Body)] ([None] when
    reading fails). *)
Record HTTPRequest := mkHTTPRequest {
  Method : string;
  Path : string;
  Header : validator.Request;
  Body : option (list byte)
}.

(** What is written to the response: a constant message of [http.Error], a
    message that ends with the error's text, the status object, or the
    encoded balance response. *)
Inductive Payload :=
| Message (text : string)
| ValidationFailed (err : validator.AuthError)
| ProcessingFailed (err : usecase.Error)
| StatusObject
| BalanceObject (user : string) (balances : gmap string string).

Record Response := mkResponse { StatusCode : Z; Written : Payload }.

(** The shared state the handlers work on: the validator's nonce store and
    the ledger. *)
Record Server := mkServer {
  nonces : gmap string Z;
  ledger : repository.State
}.

Section Handlers.

Variable Unmarshal : list byte → option entity.WebhookRequest.

(** [HandleWebhook]. *)
Definition HandleWebhook (v : validator.HMACValidator) (clk : validator.Clock)
    (r : HTTPRequest) (s : Server) : Response * Server :=
  if negb (String.eqb (Method r) "POST")
  then (mkResponse StatusMethodNotAllowed (Message "Method not allowed"), s)
  else
    match Body r with
    | None => (mkResponse StatusBadRequest (Message "Failed to read request body"), s)
    | Some body =>
        let '(verr, nonces') :=
          validator.ValidateRequest v clk (Header r) body (nonces s) in
        match verr with
        | Some err =>
            (mkResponse StatusUnauthorized (ValidationFailed err),
             mkServer nonces' (ledger s))
        | None =>
            match Unmarshal body with
            | None =>
                (mkResponse StatusBadRequest (Message "Invalid JSON body"),
                 mkServer nonces' (ledger s))
            | Some webhookReq =>
                let '(err, ledger') := usecase.Execute webhookReq (ledger s) in
                match err with
                | Some err =>
                    (mkResponse StatusInternalServerError (ProcessingFailed err),
                     mkServer nonces' ledger')
                | None => (mkResponse StatusOK StatusObject, mkServer nonces' ledger')
                end
            end
        end
    end.

(** [HandleBalance]. *)
Definition HandleBalance (r : HTTPRequest) (s : Server) : Response * Server :=
  if negb (String.eqb (Method r) "GET")
  then (mkResponse StatusMethodNotAllowed (Message "Method not allowed"), s)
  else
    let path := gostrings.TrimPrefix (Path r) "/balance/" in
    if String.eqb path "" || String.eqb path (Path r)
    then (mkResponse StatusBadRequest (Message "Missing user parameter"), s)
    else
      let user := path in
      let '(balance, err, ledger') := usecase.GetBalance user (ledger s) in
      match err with
      | Some _ =>
          (mkResponse StatusInternalServerError (Message "Failed to get balance"),
           mkServer (nonces s) ledger')
      | None =>
          (mkResponse StatusOK
             (BalanceObject (repository.resp_User balance)
                (repository.heap ledger' !!! repository.Balances balance)),
           mkServer (nonces s) ledger')
      end.

(** The responses [HandleWebhook] gives after the nonce store has accepted
    the nonce of the request. *)
Definition consumes_nonce (resp : Response) : bool :=
  match Written resp with
  | StatusObject | ProcessingFailed _ => true
  | Message text => String.eqb text "Invalid JSON body"
  | ValidationFailed err =>
      bool_decide (err = validator.InvalidSignature
                   ∨ err = validator.ComputeSignatureFailed)
  | BalanceObject _ _ => false
  end.

(** A request as it reaches a handler, with the readings of the clock
    while it is served. *)
Record Exchange := mkExchange { exchange_clock : validator.Clock; exchange_request : HTTPRequest }.

(** The server after a sequence of requests to [/webhook], served one after
    the other. *)
Definition serve (v : validator.HMACValidator) (xs : list Exchange) (s : Server)
  : Server :=
  fold_left
    (fun st x => snd (HandleWebhook v (exchange_clock x) (exchange_request x) st))
    xs s.

End Handlers.

End httphandler.

(** ** Proof automation for durations

    [unfold_time] exposes the int64 bounds and the duration constants as
    numerals; [time_lia] then splits on the comparisons of [time.Sub]. *)

Ltac unfold_time :=
  cbv [time.Sub time.minDuration time.maxDuration int64.min int64.max
       time.Hour time.Minute time.Second time.Nanosecond] in *;
  change (2 ^ 63) with 9223372036854775808 in *.

Ltac time_lia :=
  unfold_time;
  repeat match goal with
  | |- context [?a <? ?b] => destruct (Z.ltb_spec a b)
  | H : context [?a <? ?b] |- _ => destruct (Z.ltb_spec a b)
  end; try discriminate; try lia.

(** * Test vectors *)

Example sha256_abc :
  hex.EncodeToString (sha256.Sum256 (bytes_of "abc"))
  = "ba7816bf8f01cfea414140de5dae2223b00361a396177a9cb410ff61f20015ad"%string.
Proof. vm_compute. reflexivity. Qed.

Example hmac_rfc4231_case2 :
  hex.EncodeToString
    (hmac.Sum (bytes_of "Jefe") (bytes_of "what do ya want for nothing?"))
  = "5bdcc146bf60754e6a042426089575c75a003f089d2739839dec58b964ec3843"%string.
Proof. vm_compute. reflexivity. Qed.

(** * Properties *)

(** ** Bytes and the constant-time comparison *)

Lemma byte_Z_range b : 0 <= sha256.byte_Z b < 256.
Proof. destruct b; vm_compute; split; congruence. Qed.

Lemma byte_Z_inj a b : sha256.byte_Z a = sha256.byte_Z b → a = b.
Proof.
  unfold sha256.byte_Z. intros H. apply N2Z.inj in H.
  assert (Some a = Some b) as E
    by (rewrite <- (Byte.of_to_N a), <- (Byte.of_to_N b); congruence).
  congruence.
Qed.

Lemma lor_below a b n : 0 <= n → 0 <= a < 2 ^ n → 0 <= b < 2 ^ n → 0 <= Z.lor a b < 2 ^ n.
Proof.
  intros Hn [Ha Ha'] [Hb Hb']. split; [apply Z.lor_nonneg; lia|].
  destruct (Z.eq_dec (Z.lor a b) 0) as [->|Hz]; [apply Z.pow_pos_nonneg; lia|].
  assert (0 < Z.lor a b) by (pose proof (proj2 (Z.lor_nonneg a b) (conj Ha Hb)); lia).
  apply Z.log2_lt_pow2; [lia|]. rewrite Z.log2_lor by lia.
  destruct (Z.eq_dec a 0) as [->|]; destruct (Z.eq_dec b 0) as [->|].
  - rewrite Z.lor_0_l in Hz. lia.
  - rewrite Z.max_r by (apply Z.log2_nonneg). apply Z.log2_lt_pow2; lia.
  - rewrite Z.max_l by (apply Z.log2_nonneg). apply Z.log2_lt_pow2; lia.
  - apply Z.max_lub_lt; apply Z.log2_lt_pow2; lia.
Qed.

Lemma lxor_below a b n : 0 <= n → 0 <= a < 2 ^ n → 0 <= b < 2 ^ n → 0 <= Z.lxor a b < 2 ^ n.
Proof.
  intros Hn [Ha Ha'] [Hb Hb']. split; [apply Z.lxor_nonneg; lia|].
  destruct (Z.eq_dec (Z.lxor a b) 0) as [->|Hz]; [apply Z.pow_pos_nonneg; lia|].
  assert (0 <= Z.lxor a b) by (apply Z.lxor_nonneg; lia).
  apply Z.log2_lt_pow2; [lia|].
  eapply Z.le_lt_trans; [apply Z.log2_lxor; lia|].
  destruct (Z.eq_dec a 0) as [->|]; destruct (Z.eq_dec b 0) as [->|].
  - rewrite Z.lxor_0_l in Hz. lia.
  - rewrite Z.max_r by (apply Z.log2_nonneg). apply Z.log2_lt_pow2; lia.
  - rewrite Z.max_l by (apply Z.log2_nonneg). apply Z.log2_lt_pow2; lia.
  - apply Z.max_lub_lt; apply Z.log2_lt_pow2; lia.
Qed.

Lemma accumulate_range x : ∀ y v, 0 <= v < 256 → 0 <= subtle.accumulate v x y < 256.
Proof.
  induction x as [|a x IH]; intros [|b y] v Hv; simpl; try lia.
  apply IH. change 256 with (2 ^ 8). apply lor_below; [lia|exact Hv|].
  apply lxor_below; [lia|apply byte_Z_range..].
Qed.

Lemma accumulate_zero x : ∀ y v,
  0 <= v → length x = length y → (subtle.accumulate v x y = 0 ↔ v = 0 ∧ x = y).
Proof.
  induction x as [|a x IH]; intros [|b y] v Hv Hlen; simpl in *; try discriminate.
  - split; [intros ->; auto|intros [-> _]; reflexivity].
  - injection Hlen as Hlen.
    pose proof (byte_Z_range a). pose proof (byte_Z_range b).
    rewrite IH; [|apply Z.lor_nonneg; split; [lia|apply Z.lxor_nonneg; lia]|exact Hlen].
    rewrite Z.lor_eq_0_iff. split.
    + intros [[-> Hx] ->]. apply Z.lxor_eq in Hx. apply byte_Z_inj in Hx. subst. auto.
    + intros [-> E]. injection E as -> ->. rewrite Z.lxor_nilpotent. auto.
Qed.

Lemma ConstantTimeByteEq_zero v : 0 <= v < 256 → (subtle.ConstantTimeByteEq v 0 = 1 ↔ v = 0).
Proof.
  intros Hv. unfold subtle.ConstantTimeByteEq. rewrite Z.lxor_0_r.
  destruct (Z.eq_dec v 0) as [->|Hne]; [split; [reflexivity|]; intros _; reflexivity|].
  split; [|lia]. rewrite Z.mod_small by lia.
  rewrite Z.shiftr_div_pow2 by lia. rewrite Z.div_small by lia. discriminate.
Qed.

(** [subtle.ConstantTimeCompare] returns 1 exactly on equal slices. *)
Lemma ConstantTimeCompare_eq x y : subtle.ConstantTimeCompare x y = 1 ↔ x = y.
Proof.
  unfold subtle.ConstantTimeCompare.
  destruct (Nat.eqb (length x) (length y)) eqn:E; simpl.
  - apply Nat.eqb_eq in E.
    rewrite ConstantTimeByteEq_zero by (apply accumulate_range; lia).
    rewrite accumulate_zero by (lia || exact E). tauto.
  - apply Nat.eqb_neq in E. split; [discriminate|]. intros ->. contradiction.
Qed.

Lemma bytes_of_inj a b : bytes_of a = bytes_of b → a = b.
Proof.
  unfold bytes_of. intros H.
  rewrite <- (string_of_list_byte_of_string a), <- (string_of_list_byte_of_string b).
  congruence.
Qed.

Lemma hmac_Equal_eq a b : validator.hmac_Equal (bytes_of a) (bytes_of b) = true ↔ a = b.
Proof.
  unfold validator.hmac_Equal. rewrite Z.eqb_eq, ConstantTimeCompare_eq.
  split; [apply bytes_of_inj|congruence].
Qed.

Lemma bytes_of_app a b : bytes_of (String.append a b) = bytes_of a ++ bytes_of b.
Proof.
  unfold bytes_of, list_byte_of_string.
  induction a as [|c a IH]; simpl; [reflexivity|]. f_equal. exact IH.
Qed.

(** ** The validator against the listed order of checks *)

Import validator.

#[local] Arguments computeSignature : simpl never.
#[local] Arguments expected_signature : simpl never.
#[local] Arguments hmac_Equal : simpl never.
#[local] Arguments IsValid : simpl never.
#[local] Arguments out_of_tolerance : simpl never.
#[local] Arguments strconv.ParseInt : simpl never.
#[local] Arguments time.Unix : simpl never.
#[local] Arguments time.Sub : simpl never.

Lemma computeSignature_expected v r body :
  computeSignature v (X_Timestamp r) (X_Nonce r) body
  = inr (expected_signature v r body).
Proof.
  unfold computeSignature, expected_signature. do 3 f_equal.
  rewrite !bytes_of_app. unfold bytes_of at 5.
  rewrite list_byte_of_string_of_list_byte. reflexivity.
Qed.

Lemma eqb_empty_decide (s : string) :
  String.eqb s "" = if decide (s = "") then true else false.
Proof. destruct (decide (s = "")) as [->|H]; [reflexivity|]. by apply String.eqb_neq. Qed.

Lemma signature_eqb v r body :
  hmac_Equal (bytes_of (expected_signature v r body)) (bytes_of (X_Signature r))
  = String.eqb (X_Signature r) (expected_signature v r body).
Proof.
  destruct (String.eqb _ _) eqn:E.
  - apply String.eqb_eq in E. apply hmac_Equal_eq. congruence.
  - apply String.eqb_neq in E. apply not_true_is_false. rewrite hmac_Equal_eq. congruence.
Qed.

(** The error [ValidateRequest] returns is the error of the first failing
    check in the listed order. *)
Lemma ValidateRequest_first_failure v clk r body nonces :
  fst (ValidateRequest v clk r body nonces) = first_failure v clk r body nonces.
Proof.
  unfold ValidateRequest, first_failure, check_order. cbn.
  rewrite !eqb_empty_decide. unfold request_time.
  destruct (decide (X_Timestamp r = "")); [reflexivity|].
  destruct (decide (X_Nonce r = "")); [reflexivity|].
  destruct (decide (X_Signature r = "")); [reflexivity|]. cbn.
  destruct (strconv.ParseInt _ 64) as [timestamp|]; [|reflexivity]. cbn.
  destruct (out_of_tolerance _ _ _); [reflexivity|]. cbn.
  destruct (IsValid clk (X_Nonce r) (time.Unix timestamp) nonces) as [valid nonces'].
  cbn. destruct valid; [|reflexivity]. cbn.
  rewrite computeSignature_expected, signature_eqb.
  destruct (String.eqb _ _); reflexivity.
Qed.

Lemma before_Unseen :
  before Unseen check_order
  = [TimestampPresent; NoncePresent; SignaturePresent; TimestampParses; Fresh].
Proof. reflexivity. Qed.

Lemma before_SignatureMatches :
  before SignatureMatches check_order
  = [TimestampPresent; NoncePresent; SignaturePresent; TimestampParses; Fresh; Unseen].
Proof. reflexivity. Qed.

(** The nonce store is touched only when the request gets as far as the
    replay check, and then by [IsValid] alone. *)
Lemma ValidateRequest_store v clk r body nonces :
  snd (ValidateRequest v clk r body nonces)
  = if reaches v clk r body nonces Unseen
    then snd (IsValid clk (X_Nonce r) (request_time r) nonces)
    else nonces.
Proof.
  unfold ValidateRequest, reaches. rewrite before_Unseen. cbn.
  rewrite !eqb_empty_decide. unfold request_time.
  destruct (decide (X_Timestamp r = "")); [reflexivity|].
  destruct (decide (X_Nonce r = "")); [reflexivity|].
  destruct (decide (X_Signature r = "")); [reflexivity|]. cbn.
  destruct (strconv.ParseInt _ 64) as [timestamp|]; [|reflexivity]. cbn.
  destruct (out_of_tolerance _ _ _); [reflexivity|]. cbn.
  destruct (IsValid clk (X_Nonce r) (time.Unix timestamp) nonces) as [valid nonces'].
  cbn. destruct valid; [|reflexivity]. cbn.
  rewrite computeSignature_expected.
  destruct (hmac_Equal _ _); reflexivity.
Qed.

Lemma first_failure_signature (f : Check → bool) :
  option_map failure (List.find (fun c => negb (f c)) check_order) = Some InvalidSignature
  ↔ forallb f (before SignatureMatches check_order) = true ∧ f SignatureMatches = false.
Proof.
  rewrite before_SignatureMatches. unfold check_order.
  cbn [List.find forallb].
  destruct (f TimestampPresent), (f NoncePresent), (f SignaturePresent),
    (f TimestampParses), (f Fresh), (f Unseen), (f SignatureMatches);
    cbn; intuition congruence.
Qed.

(** C1. The signature check recomputes the hex-encoded HMAC-SHA256, keyed
    with the secret, of the timestamp string, a line feed, the nonce, a line
    feed and the raw body bytes; [ValidateRequest] fails with the
    invalid-signature error exactly when the request passes every earlier
    check and its signature differs from that value; and the comparison
    [hmac.Equal], a fold over all the bytes, decides equality of the whole
    strings. *)
Theorem signature_check_exact v clk r body nonces :
  computeSignature v (X_Timestamp r) (X_Nonce r) body
  = inr (hex.EncodeToString
           (hmac.Sum (bytes_of (secret v))
              (bytes_of (X_Timestamp r) ++ [x0a] ++ bytes_of (X_Nonce r)
                 ++ [x0a] ++ body)))
  ∧ (fst (ValidateRequest v clk r body nonces) = Some InvalidSignature
     ↔ reaches v clk r body nonces SignatureMatches = true
       ∧ X_Signature r ≠ expected_signature v r body)
  ∧ (∀ mac1 mac2 : list byte, hmac_Equal mac1 mac2 = true ↔ mac1 = mac2).
Proof.
  split; [apply computeSignature_expected|]. split.
  - rewrite ValidateRequest_first_failure. unfold first_failure, reaches.
    rewrite first_failure_signature. cbn [passes].
    rewrite <- String.eqb_neq. tauto.
  - intros mac1 mac2. unfold hmac_Equal.
    rewrite Z.eqb_eq. apply ConstantTimeCompare_eq.
Qed.

(** C7. The checks run in the listed order (timestamp present, nonce present,
    signature present, timestamp parses, fresh, unseen, signature matches):
    the error returned is the error of the first check that fails, the nonce
    store is only touched by a request that passed the five checks before
    the replay check, and the checks raise pairwise distinct errors with
    distinct messages for the three missing headers. *)
Theorem checks_in_order v clk r body nonces :
  check_order
  = [TimestampPresent; NoncePresent; SignaturePresent; TimestampParses; Fresh;
     Unseen; SignatureMatches]
  ∧ fst (ValidateRequest v clk r body nonces) = first_failure v clk r body nonces
  ∧ snd (ValidateRequest v clk r body nonces)
    = (if reaches v clk r body nonces Unseen
       then snd (IsValid clk (X_Nonce r) (request_time r) nonces)
       else nonces)
  ∧ NoDup (map failure check_order)
  ∧ NoDup (map Error [MissingTimestamp; MissingNonce; MissingSignature]).
Proof.
  split; [reflexivity|].
  split; [apply ValidateRequest_first_failure|].
  split; [apply ValidateRequest_store|].
  split; apply (bool_decide_unpack _); vm_compute; reflexivity.
Qed.

(** ** Durations *)

Lemma Sub_mono a b t : a <= b → time.Sub a t <= time.Sub b t.
Proof. intros. time_lia. Qed.

(** A later reading adds at most the time elapsed. *)
Lemma Sub_later a b t : a <= b → time.Sub b t <= time.Sub a t + (b - a).
Proof. intros. time_lia. Qed.

Lemma Sub_range a t : time.minDuration <= time.Sub a t <= time.maxDuration.
Proof. time_lia. Qed.

Lemma neg_min : int64.neg int64.min = int64.min.
Proof. reflexivity. Qed.

Lemma neg_small d : int64.min < d <= int64.max → int64.neg d = - d.
Proof.
  intros H. unfold int64.neg, int64.wrap. unfold_time.
  change (2 ^ 64) with 18446744073709551616.
  rewrite Z.mod_small; lia.
Qed.

(** Where the difference does not saturate at the minimum, the freshness
    test compares the absolute difference with the tolerance. *)
Lemma out_of_tolerance_abs v now t :
  time.minDuration < time.Sub now t →
  out_of_tolerance v now t = (timestampTolerance v <? Z.abs (time.Sub now t)).
Proof.
  intros H. unfold out_of_tolerance.
  pose proof (Sub_range now t) as R.
  destruct (Z.ltb_spec (time.Sub now t) 0).
  - rewrite neg_small by (unfold time.minDuration, time.maxDuration in *; lia).
    rewrite Z.abs_neq by lia. reflexivity.
  - rewrite Z.abs_eq by lia. reflexivity.
Qed.

(** Where it does, a request time more than 2^63 nanoseconds ahead of the
    clock, the negation wraps and the test lets the request through. *)
Lemma out_of_tolerance_saturated v now t :
  now - t <= time.minDuration →
  time.minDuration <= timestampTolerance v →
  out_of_tolerance v now t = false.
Proof.
  intros H Htol. unfold out_of_tolerance.
  assert (time.Sub now t = int64.min) as -> by time_lia.
  change (int64.min <? 0) with true. cbv iota. rewrite neg_min.
  apply Z.ltb_ge. exact Htol.
Qed.

(** ** The nonce store *)

Lemma cleanup_lookup now (nonces : gmap string Z) n t :
  cleanup now nonces !! n = Some t
  ↔ nonces !! n = Some t ∧ ¬ time.Hour < time.Sub now t.
Proof. unfold cleanup. rewrite map_lookup_filter_Some. reflexivity. Qed.

(** The recorded nonce is in the store afterwards, unless the sweep ran and
    found the recorded time itself more than an hour old. *)
Lemma record_nonce_lookup clk n t (nonces : gmap string Z) :
  ¬ time.Hour < time.Sub (at_cleanup clk) t ∨ Z.of_nat (size (<[n := t]> nonces)) <= 10000 →
  snd (record_nonce clk n t nonces) !! n = Some t.
Proof.
  intros H. unfold record_nonce. cbn [snd].
  destruct (Z.ltb_spec 10000 (Z.of_nat (size (<[n := t]> nonces)))).
  - apply cleanup_lookup. split; [apply lookup_insert_eq|]. destruct H; [assumption|lia].
  - apply lookup_insert_eq.
Qed.

(** Another nonce stays recorded through [record_nonce] unless the sweep
    finds it more than an hour old. *)
Lemma record_nonce_other clk n t (nonces : gmap string Z) n' t' :
  n' ≠ n → nonces !! n' = Some t' →
  snd (record_nonce clk n t nonces) !! n' = Some t'
  ∨ time.Hour < time.Sub (at_cleanup clk) t'.
Proof.
  intros Hne Hl. unfold record_nonce. cbn [snd].
  destruct (Z.ltb_spec 10000 (Z.of_nat (size (<[n := t]> nonces)))).
  - destruct (Z.lt_ge_cases time.Hour (time.Sub (at_cleanup clk) t')); [by right|left].
    apply cleanup_lookup. split; [by rewrite lookup_insert_ne|lia].
  - left. by rewrite lookup_insert_ne.
Qed.

(** An accepting [IsValid] is [record_nonce] on the store without the nonce. *)
Lemma IsValid_true clk n t (nonces nonces' : gmap string Z) :
  IsValid clk n t nonces = (true, nonces') →
  nonces' = snd (record_nonce clk n t (delete n nonces)).
Proof.
  unfold IsValid. destruct (nonces !! n) as [t0|] eqn:E.
  - destruct (time.Hour <? time.Sub (at_lookup clk) t0); [|discriminate].
    intros H. by rewrite H.
  - rewrite delete_id by exact E. intros H. by rewrite H.
Qed.

(** A recorded nonce that is not more than an hour old is refused and the
    store is left as it is. *)
Lemma IsValid_recorded clk n t t0 (nonces : gmap string Z) :
  nonces !! n = Some t0 → ¬ time.Hour < time.Sub (at_lookup clk) t0 →
  IsValid clk n t nonces = (false, nonces).
Proof.
  intros E H. unfold IsValid. rewrite E.
  destruct (Z.ltb_spec time.Hour (time.Sub (at_lookup clk) t0)); [contradiction|reflexivity].
Qed.

(** A recorded nonce that is more than an hour old is treated as absent. *)
Lemma IsValid_expired clk n t t0 (nonces : gmap string Z) :
  nonces !! n = Some t0 → time.Hour < time.Sub (at_lookup clk) t0 →
  IsValid clk n t nonces = IsValid clk n t (delete n nonces).
Proof.
  intros E H. unfold IsValid. rewrite E, lookup_delete_eq.
  destruct (Z.ltb_spec time.Hour (time.Sub (at_lookup clk) t0)); [reflexivity|lia].
Qed.

Lemma IsValid_absent clk n t (nonces : gmap string Z) :
  nonces !! n = None → IsValid clk n t nonces = record_nonce clk n t nonces.
Proof. intros E. unfold IsValid. by rewrite E. Qed.

(** C6. On a fresh store the first [IsValid] for a nonce accepts and records
    it.  A second call made while the recorded time is not more than an hour
    behind the clock (an immediate one, the recorded time being the time of
    the first observation) refuses and changes nothing.  A recorded nonce
    that is more than an hour old is treated as absent: the call behaves as
    on the store without it, accepts, and records the nonce again under the
    new time (the new record is kept by the sweep as the new time is not
    itself more than an hour old). *)
Theorem nonce_consume_if_unseen (n : string) (t : Z) :
  (∀ clk, IsValid clk n t NewNonceStore = (true, {[n := t]}))
  ∧ (∀ clk1 clk2 t2,
       ¬ time.Hour < time.Sub (at_lookup clk2) t →
       IsValid clk2 n t2 (snd (IsValid clk1 n t NewNonceStore))
       = (false, snd (IsValid clk1 n t NewNonceStore)))
  ∧ (∀ clk t2 t0 (nonces : gmap string Z),
       nonces !! n = Some t0 →
       time.Hour < time.Sub (at_lookup clk) t0 →
       IsValid clk n t2 nonces = IsValid clk n t2 (delete n nonces)
       ∧ fst (IsValid clk n t2 nonces) = true
       ∧ (¬ time.Hour < time.Sub (at_cleanup clk) t2 →
          snd (IsValid clk n t2 nonces) !! n = Some t2)).
Proof.
  assert (∀ clk, IsValid clk n t NewNonceStore = (true, {[n := t]})) as Hfirst.
  { intros clk. unfold NewNonceStore. rewrite IsValid_absent by apply lookup_empty.
    unfold record_nonce. rewrite insert_empty, map_size_singleton. reflexivity. }
  split; [exact Hfirst|]. split.
  - intros clk1 clk2 t2 Hnew. rewrite Hfirst. cbn [snd].
    apply IsValid_recorded with (t0 := t); [apply lookup_singleton_eq|exact Hnew].
  - intros clk t2 t0 nonces E Hold.
    rewrite (IsValid_expired clk n t2 t0 nonces E Hold).
    rewrite IsValid_absent by apply lookup_delete_eq.
    split; [reflexivity|]. split; [reflexivity|].
    intros Hnew. apply record_nonce_lookup. by left.
Qed.

(** [nonce_consume_if_unseen] at nonce ["n"], first seen at the clock reading
    1700000000 s: refused at once, accepted again 3601 s later. *)
Lemma nonce_consume_if_unseen_witness :
  IsValid (mkClock 0 (1700000000 * time.Second) 0) "n" 5
    (snd (IsValid (mkClock 0 0 0) "n" (1700000000 * time.Second) NewNonceStore))
  = (false, snd (IsValid (mkClock 0 0 0) "n" (1700000000 * time.Second) NewNonceStore))
  ∧ fst (IsValid (mkClock 0 (1700003601 * time.Second) (1700003601 * time.Second)) "n"
           (1700003601 * time.Second) {["n" := 1700000000 * time.Second]}) = true.
Proof.
  split.
  - apply (proj1 (proj2 (nonce_consume_if_unseen "n" (1700000000 * time.Second)))).
    vm_compute. discriminate.
  - apply (proj2 (proj2 (nonce_consume_if_unseen "n" (1700000000 * time.Second)))
             _ _ (1700000000 * time.Second)); [apply lookup_singleton_eq|].
    vm_compute. reflexivity.
Defined.

(** ** Replays *)

(** A recorded nonce stays recorded through a call of [IsValid], unless one
    of the call's clock readings finds it more than an hour old. *)
Lemma IsValid_keeps clk n' t' (nonces : gmap string Z) n t :
  nonces !! n = Some t →
  snd (IsValid clk n' t' nonces) !! n = Some t
  ∨ time.Hour < time.Sub (at_lookup clk) t
  ∨ time.Hour < time.Sub (at_cleanup clk) t.
Proof.
  intros E. destruct (decide (n' = n)) as [->|Hne].
  - destruct (Z.lt_ge_cases time.Hour (time.Sub (at_lookup clk) t)); [by right; left|].
    left. rewrite (IsValid_recorded clk n t' t nonces E) by lia. exact E.
  - unfold IsValid. destruct (nonces !! n') as [t0|] eqn:E'.
    + destruct (time.Hour <? time.Sub (at_lookup clk) t0).
      * destruct (record_nonce_other clk n' t' (delete n' nonces) n t) as [H|H];
          [congruence|by rewrite lookup_delete_ne|by left|by right; right].
      * by left.
    + destruct (record_nonce_other clk n' t' nonces n t) as [H|H];
        [congruence|exact E|by left|by right; right].
Qed.

Lemma not_after_le bound c :
  not_after bound c = true →
  at_validate c <= bound ∧ at_lookup c <= bound ∧ at_cleanup c <= bound.
Proof.
  unfold not_after, readings. cbn [forallb].
  rewrite !andb_true_iff, !Z.leb_le. tauto.
Qed.

(** The invariant of a recorded nonce over calls whose clock readings are
    bounded: it is still recorded, or some reading up to the bound found it
    more than an hour old. *)
Lemma ValidateRequest_keeps v c r b (nonces : gmap string Z) n t bound :
  not_after bound c = true →
  (nonces !! n = Some t ∨ ∃ x, x <= bound ∧ time.Hour < time.Sub x t) →
  snd (ValidateRequest v c r b nonces) !! n = Some t
  ∨ ∃ x, x <= bound ∧ time.Hour < time.Sub x t.
Proof.
  intros Hc [E|H]; [|by right]. apply not_after_le in Hc as (_ & Hl & Hs).
  rewrite ValidateRequest_store. destruct (reaches _ _ _ _ _ _); [|by left].
  destruct (IsValid_keeps c (X_Nonce r) (request_time r) nonces n t E) as [H|[H|H]];
    [by left|right; eauto..].
Qed.

Lemma run_keeps v calls : ∀ (nonces : gmap string Z) n t bound,
  forallb (fun c => not_after bound (call_clock c)) calls = true →
  (nonces !! n = Some t ∨ ∃ x, x <= bound ∧ time.Hour < time.Sub x t) →
  run v calls nonces !! n = Some t
  ∨ ∃ x, x <= bound ∧ time.Hour < time.Sub x t.
Proof.
  induction calls as [|c calls IH]; intros nonces n t bound Hb H; [exact H|].
  cbn [forallb] in Hb. apply andb_true_iff in Hb as [Hc Hb].
  unfold run. cbn [fold_left]. apply IH; [exact Hb|].
  apply ValidateRequest_keeps; assumption.
Qed.

(** What the seven checks say when [ValidateRequest] accepts. *)
Lemma first_failure_None v clk r body nonces :
  first_failure v clk r body nonces = None →
  Forall (fun c => passes v clk r body nonces c = true) check_order.
Proof.
  unfold first_failure, check_order. cbn [List.find].
  repeat match goal with
  | |- context [negb (passes ?v ?c ?r ?b ?s ?k)] =>
      destruct (passes v c r b s k) eqn:?; cbn [negb option_map]; [|discriminate]
  end.
  intros _. repeat constructor; assumption.
Qed.

(** A request that was accepted left its nonce in the store, or the sweep of
    that very call found its time more than an hour old. *)
Lemma accepted_recorded v clk r body (nonces : gmap string Z) :
  passes v clk r body nonces Unseen = true →
  reaches v clk r body nonces Unseen = true →
  snd (ValidateRequest v clk r body nonces) !! X_Nonce r = Some (request_time r)
  ∨ time.Hour < time.Sub (at_cleanup clk) (request_time r).
Proof.
  intros Hu Hr. rewrite ValidateRequest_store, Hr. cbn [passes] in Hu.
  destruct (IsValid clk (X_Nonce r) (request_time r) nonces) as [b s1] eqn:E.
  cbn [fst snd] in *. subst b. apply IsValid_true in E. subst s1.
  destruct (Z.lt_ge_cases time.Hour (time.Sub (at_cleanup clk) (request_time r)));
    [by right|left].
  apply record_nonce_lookup. left. lia.
Qed.

Lemma first_failure_from_Unseen v clk r body nonces :
  reaches v clk r body nonces Unseen = true →
  first_failure v clk r body nonces
  = if passes v clk r body nonces Unseen
    then (if passes v clk r body nonces SignatureMatches then None
          else Some InvalidSignature)
    else Some DuplicateNonce.
Proof.
  unfold reaches, first_failure. rewrite before_Unseen. unfold check_order.
  cbn [forallb List.find].
  repeat match goal with
  | |- context [passes ?v ?c ?r ?b ?s ?k && _] =>
      destruct (passes v c r b s k); cbn [andb negb]; [|discriminate]
  end.
  intros _.
  destruct (passes _ _ _ _ _ Unseen); [|reflexivity].
  destruct (passes _ _ _ _ _ SignatureMatches); reflexivity.
Qed.

Lemma reaches_SignatureMatches v clk r body nonces :
  reaches v clk r body nonces SignatureMatches
  = reaches v clk r body nonces Unseen && passes v clk r body nonces Unseen.
Proof.
  unfold reaches. rewrite before_Unseen, before_SignatureMatches.
  cbn [forallb]. rewrite !andb_true_r, !andb_assoc. reflexivity.
Qed.

(** A request that got past the replay check is recorded when a later
    reading of the clock still finds its time within the hour. *)
Lemma consumed_recorded v clk1 r1 body1 (nonces : gmap string Z) calls bound :
  reaches v clk1 r1 body1 nonces Unseen = true →
  passes v clk1 r1 body1 nonces Unseen = true →
  at_cleanup clk1 <= bound →
  forallb (fun c => not_after bound (call_clock c)) calls = true →
  run v calls (snd (ValidateRequest v clk1 r1 body1 nonces)) !! X_Nonce r1
    = Some (request_time r1)
  ∨ ∃ x, x <= bound ∧ time.Hour < time.Sub x (request_time r1).
Proof.
  intros Hr Hu Hb Hcalls. apply run_keeps; [exact Hcalls|].
  destruct (accepted_recorded v clk1 r1 body1 nonces Hu Hr) as [H|H];
    [by left|right; eauto].
Qed.

(** C10. A request that passes the presence, parse, freshness and replay
    checks and is rejected for its signature has used up its nonce: a later
    call with the same nonce that gets as far as the replay check (whatever
    its timestamp and signature, a correct one included) is rejected as a
    duplicate and leaves the store as it is, as long as its lookup finds the
    recorded time within the one-hour retention window.  Other calls may
    come in between; no clock reading is later than that lookup. *)
Theorem invalid_signature_consumes_nonce v clk1 r1 body1 (nonces : gmap string Z)
    calls clk2 r2 body2 :
  fst (ValidateRequest v clk1 r1 body1 nonces) = Some InvalidSignature →
  X_Nonce r2 = X_Nonce r1 →
  reaches v clk2 r2 body2
    (run v calls (snd (ValidateRequest v clk1 r1 body1 nonces))) Unseen = true →
  not_after (at_lookup clk2) clk1 = true →
  forallb (fun c => not_after (at_lookup clk2) (call_clock c)) calls = true →
  ¬ time.Hour < time.Sub (at_lookup clk2) (request_time r1) →
  ValidateRequest v clk2 r2 body2
    (run v calls (snd (ValidateRequest v clk1 r1 body1 nonces)))
  = (Some DuplicateNonce, run v calls (snd (ValidateRequest v clk1 r1 body1 nonces))).
Proof.
  intros H1 Hn Hr2 Hc1 Hcalls Hwin.
  rewrite ValidateRequest_first_failure in H1. unfold first_failure in H1.
  apply first_failure_signature in H1 as [H1 _].
  fold (reaches v clk1 r1 body1 nonces SignatureMatches) in H1.
  rewrite reaches_SignatureMatches in H1. apply andb_true_iff in H1 as [Hr1 Hu1].
  apply not_after_le in Hc1 as (_ & _ & Hc1).
  destruct (consumed_recorded v clk1 r1 body1 nonces calls _ Hr1 Hu1 Hc1 Hcalls)
    as [E|(x & Hx & Hold)].
  2:{ pose proof (Sub_mono x (at_lookup clk2) (request_time r1) Hx). lia. }
  set (s := run v calls _) in *.
  rewrite <- Hn in E.
  pose proof (IsValid_recorded clk2 (X_Nonce r2) (request_time r2) _ s E Hwin) as Hv.
  rewrite (surjective_pairing (ValidateRequest v clk2 r2 body2 s)).
  rewrite ValidateRequest_first_failure, ValidateRequest_store, Hr2.
  rewrite first_failure_from_Unseen by exact Hr2.
  cbn [passes]. rewrite Hv. reflexivity.
Qed.

(** [invalid_signature_consumes_nonce] with a five-minute tolerance: nonce
    ["n1"] arrives with a wrong signature, and a minute later with a fresh
    timestamp and the right signature. *)
Lemma invalid_signature_consumes_nonce_witness :
  let v := mkValidator "test-secret-key" (5 * time.Minute) in
  let s1 :=
    snd (ValidateRequest v (instant 1700000000)
           (mkRequest "1700000000" "n1" "invalid-signature") (bytes_of "body") ∅) in
  X_Signature (signed v "1700000060" "n1" (bytes_of "body"))
  = expected_signature v (signed v "1700000060" "n1" (bytes_of "body")) (bytes_of "body")
  ∧ ValidateRequest v (instant 1700000060)
      (signed v "1700000060" "n1" (bytes_of "body")) (bytes_of "body") (run v [] s1)
    = (Some DuplicateNonce, run v [] s1).
Proof.
  split; [reflexivity|].
  apply (invalid_signature_consumes_nonce
           (mkValidator "test-secret-key" (5 * time.Minute))
           (instant 1700000000) (mkRequest "1700000000" "n1" "invalid-signature")
           (bytes_of "body") ∅ []).
  - vm_compute. reflexivity.
  - reflexivity.
  - vm_compute. reflexivity.
  - vm_compute. reflexivity.
  - reflexivity.
  - vm_compute. discriminate.
Defined.

(** C2, as the code has it.  After [ValidateRequest] has accepted a request,
    every later call with the same timestamp, nonce, signature and body
    fails, with the out-of-tolerance error once the timestamp is out of
    tolerance and with the duplicate-nonce error before that, provided that
    no earlier clock reading is later than the freshness reading of that
    call and that its nonce lookup reads the clock at most (one hour minus
    the tolerance) after its freshness check; the tolerance is then at most
    the one hour for which nonces are kept.  Other calls may come in
    between. *)
Theorem replay_rejected v clk1 r body (nonces : gmap string Z) calls clk2 :
  fst (ValidateRequest v clk1 r body nonces) = None →
  not_after (at_validate clk2) clk1 = true →
  forallb (fun c => not_after (at_validate clk2) (call_clock c)) calls = true →
  at_validate clk2 <= at_lookup clk2 →
  timestampTolerance v + (at_lookup clk2 - at_validate clk2) <= time.Hour →
  fst (ValidateRequest v clk2 r body
         (run v calls (snd (ValidateRequest v clk1 r body nonces))))
  = Some (if out_of_tolerance v (at_validate clk2) (request_time r)
          then TimestampOutOfTolerance else DuplicateNonce).
Proof.
  intros H1 Hc1 Hcalls Hle Htol.
  rewrite ValidateRequest_first_failure in H1.
  apply first_failure_None in H1. unfold check_order in H1.
  repeat match goal with H : Forall _ (_ :: _) |- _ => inversion_clear H end.
  match goal with H : Forall _ [] |- _ => clear H end.
  assert (reaches v clk1 r body nonces Unseen = true) as Hr1.
  { unfold reaches. rewrite before_Unseen. cbn [forallb].
    repeat (apply andb_true_iff; split); auto. }
  apply not_after_le in Hc1 as (_ & _ & Hc1).
  pose proof (consumed_recorded v clk1 r body nonces calls _ Hr1
                ltac:(assumption) Hc1 Hcalls) as Hinv.
  set (s := run v calls _) in *.
  rewrite ValidateRequest_first_failure. unfold first_failure, check_order.
  cbn [List.find passes] in *.
  repeat match goal with
  | H : ?b = true |- context [negb ?b] => rewrite H; cbn [negb]
  end.
  destruct (out_of_tolerance v (at_validate clk2) (request_time r)) eqn:Hfresh;
    cbn [negb]; [reflexivity|].
  assert (¬ time.Hour < time.Sub (at_lookup clk2) (request_time r)) as Hwin.
  { pose proof (Sub_later _ _ (request_time r) Hle) as Hl.
    unfold out_of_tolerance in Hfresh. apply Z.ltb_ge in Hfresh.
    pose proof (Sub_range (at_validate clk2) (request_time r)) as R.
    destruct (Z.ltb_spec (time.Sub (at_validate clk2) (request_time r)) 0).
    - destruct (Z.eq_dec (time.Sub (at_validate clk2) (request_time r)) int64.min) as [Em|Em].
      + rewrite Em, neg_min in Hfresh. rewrite Em in Hl.
        revert Hl Hfresh Htol. generalize (time.Sub (at_lookup clk2) (request_time r)).
        intros. unfold_time. lia.
      + rewrite neg_small in Hfresh
          by (unfold time.minDuration, time.maxDuration in R; lia).
        lia.
    - lia. }
  destruct Hinv as [E|(x & Hx & Hold)].
  - rewrite (IsValid_recorded clk2 (X_Nonce r) (request_time r) _ s E Hwin).
    reflexivity.
  - exfalso.
    pose proof (Sub_mono x (at_validate clk2) (request_time r) Hx) as Hm.
    unfold out_of_tolerance in Hfresh. apply Z.ltb_ge in Hfresh.
    assert (0 <= time.Hour) by (vm_compute; discriminate).
    destruct (Z.ltb_spec (time.Sub (at_validate clk2) (request_time r)) 0); lia.
Qed.

(** [replay_rejected] with a five-minute tolerance: a signed request is
    accepted, another request is handled, and ten seconds later the first
    one is sent again. *)
Lemma replay_rejected_witness :
  let v := mkValidator "test-secret-key" (5 * time.Minute) in
  let r := signed v "1700000000" "n1" (bytes_of "body") in
  fst (ValidateRequest v (instant 1700000010) r (bytes_of "body")
         (run v [mkCall (instant 1700000005) (signed v "1700000005" "n2" []) []]
            (snd (ValidateRequest v (instant 1700000000) r (bytes_of "body") ∅))))
  = Some DuplicateNonce.
Proof.
  cbv zeta.
  rewrite (replay_rejected (mkValidator "test-secret-key" (5 * time.Minute))
             (instant 1700000000)).
  - vm_compute. reflexivity.
  - vm_compute. reflexivity.
  - vm_compute. reflexivity.
  - vm_compute. reflexivity.
  - vm_compute. discriminate.
  - vm_compute. discriminate.
Defined.

(** C2 as stated fails.  With a tolerance of two hours a signed request is
    accepted, and accepted again an hour and a second later: its nonce has
    aged out while its timestamp is still within tolerance.  With the
    five-minute tolerance the repeated request, sent after 301 seconds, fails
    with the out-of-tolerance error and not with the duplicate-nonce one. *)
Lemma replay_accepted_after_an_hour :
  let body := bytes_of "body" in
  let v := mkValidator "test-secret-key" (2 * time.Hour) in
  let r := signed v "1700000000" "n1" body in
  let v5 := mkValidator "test-secret-key" (5 * time.Minute) in
  (fst (ValidateRequest v (instant 1700000000) r body ∅) = None
   ∧ fst (ValidateRequest v (instant 1700003601) r body
            (snd (ValidateRequest v (instant 1700000000) r body ∅))) = None)
  ∧ (fst (ValidateRequest v5 (instant 1700000000) r body ∅) = None
     ∧ fst (ValidateRequest v5 (instant 1700000301) r body
              (snd (ValidateRequest v5 (instant 1700000000) r body ∅)))
       = Some TimestampOutOfTolerance).
Proof. vm_compute. repeat split. Qed.

(** C5 at a timestamp more than 2^63 nanoseconds ahead of the clock.  The
    clock shows 1700000000 s and the tolerance is five minutes.  The header
    99999999999 is about 98 billion seconds ahead: [now.Sub] saturates at the
    minimum duration, its negation wraps to itself, and the request is let
    through and accepted.  The header -96599999999, as far behind the clock
    as the other is ahead, is rejected as out of tolerance. *)
Theorem far_future_timestamp_accepted :
  let body := bytes_of "body" in
  let v := mkValidator "test-secret-key" (5 * time.Minute) in
  let clk := instant 1700000000 in
  let ahead := signed v "99999999999" "n1" body in
  let behind := signed v "-96599999999" "n2" body in
  request_time ahead - at_validate clk = at_validate clk - request_time behind
  ∧ timestampTolerance v < Z.abs (at_validate clk - request_time ahead)
  ∧ out_of_tolerance v (at_validate clk) (request_time ahead) = false
  ∧ fst (ValidateRequest v clk ahead body ∅) = None
  ∧ fst (ValidateRequest v clk behind body ∅) = Some TimestampOutOfTolerance.
Proof. vm_compute. repeat split. Qed.

(** ** The ledger: heap, errors and snapshots *)

Import repository.

#[local] Arguments addDecimalStrings : simpl never.

(** The copy loop of [GetBalance] leaves the new object equal to the map it
    read. *)
Lemma copy_loop (h : gmap positive (gmap string string)) c (m : gmap string string) :
  map_fold (fun asset balance h => map_set h c asset balance) (<[c := ∅]> h) m
  = <[c := m]> h.
Proof.
  apply (map_fold_weak_ind (fun r m => r = <[c := m]> h)); [reflexivity|].
  intros i x m' r _ ->. unfold map_set.
  rewrite lookup_total_insert_eq, insert_insert_eq. reflexivity.
Qed.

Lemma GetBalance_eq user σ :
  GetBalance user σ
  = ((mkResponse user (fresh (dom (heap σ))), None),
     mkState (<[fresh (dom (heap σ)) := user_balances σ user]> (heap σ))
             (balances σ) (entries σ)).
Proof. unfold GetBalance, make_map. rewrite copy_loop. reflexivity. Qed.

(** [prepare] changes the state only by giving a user without a map a new,
    empty one. *)
Lemma prepare_eq entry σ :
  prepare entry σ
  = match balances σ !! User entry with
    | Some l =>
        (σ, l, if decide (map_get (heap σ) l (Asset entry) = "") then "0"
               else map_get (heap σ) l (Asset entry))
    | None =>
        (mkState (<[fresh (dom (heap σ)) := ∅]> (heap σ))
                 (<[User entry := fresh (dom (heap σ))]> (balances σ)) (entries σ),
         fresh (dom (heap σ)), "0")
    end.
Proof.
  unfold prepare, make_map. destruct (balances σ !! User entry); [reflexivity|].
  cbn [heap]. unfold map_get. rewrite lookup_total_insert_eq, lookup_empty.
  reflexivity.
Qed.

Lemma fresh_heap (h : gmap positive (gmap string string)) : h !! fresh (dom h) = None.
Proof. apply not_elem_of_dom, is_fresh. Qed.

Lemma prepare_user_balances entry σ user :
  user_balances (prepare entry σ).1.1 user = user_balances σ user.
Proof.
  rewrite prepare_eq. destruct (balances σ !! User entry) eqn:E; [reflexivity|].
  cbn [fst]. unfold user_balances. cbn [balances heap].
  destruct (decide (user = User entry)) as [->|Hne].
  - rewrite lookup_insert_eq, E, lookup_total_insert_eq. reflexivity.
  - rewrite lookup_insert_ne by congruence.
    destruct (balances σ !! user) as [l|]; [|reflexivity].
    destruct (decide (l = fresh (dom (heap σ)))) as [->|Hl].
    + rewrite lookup_total_insert_eq. unfold lookup_total, map_lookup_total.
      rewrite fresh_heap. reflexivity.
    + rewrite lookup_total_insert_ne by congruence. reflexivity.
Qed.

(** When [AddEntry] fails, the audit trail and every user's balances are as
    before, and the state is untouched if the user already had a map. *)
Lemma AddEntry_error entry σ err :
  fst (AddEntry entry σ) = Some err →
  entries (snd (AddEntry entry σ)) = entries σ
  ∧ (∀ user, user_balances (snd (AddEntry entry σ)) user = user_balances σ user)
  ∧ (is_Some (balances σ !! User entry) → snd (AddEntry entry σ) = σ).
Proof.
  unfold AddEntry. pose proof (prepare_user_balances entry σ) as Hub.
  rewrite prepare_eq in *.
  destruct (balances σ !! User entry) as [l|] eqn:E; cbn [fst snd] in *.
  - destruct (addDecimalStrings _ _); [discriminate|]. intros _. cbn [snd]. auto.
  - destruct (addDecimalStrings _ _); [discriminate|]. intros _. cbn [snd entries].
    split; [reflexivity|]. split; [exact Hub|]. intros [? ?]. discriminate.
Qed.

(** When [AddEntry] succeeds, the new balance is stored and the entry is
    appended, once. *)
Lemma AddEntry_success entry σ :
  fst (AddEntry entry σ) = None →
  ∃ newBalance,
    addDecimalStrings
      (match balance_of σ (User entry) (Asset entry) with
       | Some b => if decide (b = "") then "0" else b
       | None => "0"
       end) (Amount entry) = Some newBalance
    ∧ balance_of (snd (AddEntry entry σ)) (User entry) (Asset entry) = Some newBalance
    ∧ entries (snd (AddEntry entry σ)) = entries σ ++ [entry].
Proof.
  unfold AddEntry, balance_of. rewrite prepare_eq.
  destruct (balances σ !! User entry) as [l|] eqn:E.
  - unfold user_balances at 1. rewrite E. unfold map_get.
    destruct ((heap σ !!! l) !! Asset entry) as [b|] eqn:Eb; cbv [default from_option id].
    + destruct (addDecimalStrings _ _) as [nb|] eqn:Ea; [|discriminate].
      intros _. exists nb. split; [first [exact Ea|reflexivity]|]. cbn [snd]. unfold commit, user_balances.
      cbn [balances heap entries]. rewrite E. unfold map_set.
      rewrite lookup_total_insert_eq, lookup_insert_eq. auto.
    + destruct (decide (EmptyString = "")) as [_|]; [|congruence].
      destruct (addDecimalStrings _ _) as [nb|] eqn:Ea; [|discriminate].
      intros _. exists nb. split; [first [exact Ea|reflexivity]|]. cbn [snd]. unfold commit, user_balances.
      cbn [balances heap entries]. rewrite E. unfold map_set.
      rewrite lookup_total_insert_eq, lookup_insert_eq. auto.
  - unfold user_balances at 1. rewrite E, lookup_empty.
    destruct (addDecimalStrings _ _) as [nb|] eqn:Ea; [|discriminate].
    intros _. exists nb. split; [first [exact Ea|reflexivity]|]. cbn [snd]. unfold commit, user_balances.
    cbn [balances heap entries]. rewrite lookup_insert_eq. unfold map_set.
    rewrite lookup_total_insert_eq, lookup_insert_eq. auto.
Qed.

(** C3 at a user without entries.  On the new ledger, [AddEntry] with the
    amount ["invalid"] returns the invalid-amount error and leaves the
    audit trail empty, but the user now has an (empty) map in [balances]
    and the heap holds one more object: the state is not the one before. *)
Theorem AddEntry_error_leaves_user_map :
  let σ := NewInMemoryLedger ∅ in
  let entry := mkEntry "user1" "BTC" "invalid" in
  fst (AddEntry entry σ) = Some InvalidAmountFormat
  ∧ entries (snd (AddEntry entry σ)) = []
  ∧ balances σ !! "user1" = None
  ∧ balances (snd (AddEntry entry σ)) !! "user1" = Some 1%positive
  ∧ heap (snd (AddEntry entry σ)) !! 1%positive = Some ∅
  ∧ snd (AddEntry entry σ) ≠ σ.
Proof.
  cbv zeta. repeat split; try (vm_compute; reflexivity).
  intros H. apply (f_equal (fun s => balances s !! "user1")) in H.
  vm_compute in H. discriminate.
Qed.

(** [AddEntry] by cases on whether the user has a map and whether the amounts
    add up. *)
Lemma AddEntry_eq entry σ :
  AddEntry entry σ
  = match balances σ !! User entry with
    | Some l =>
        match addDecimalStrings
                (if decide (map_get (heap σ) l (Asset entry) = "") then "0"
                 else map_get (heap σ) l (Asset entry)) (Amount entry) with
        | None => (Some InvalidAmountFormat, σ)
        | Some newBalance =>
            (None, mkState (<[l := <[Asset entry := newBalance]> (heap σ !!! l)]> (heap σ))
                           (balances σ) (entries σ ++ [entry]))
        end
    | None =>
        let l := fresh (dom (heap σ)) in
        match addDecimalStrings "0" (Amount entry) with
        | None =>
            (Some InvalidAmountFormat,
             mkState (<[l := ∅]> (heap σ)) (<[User entry := l]> (balances σ)) (entries σ))
        | Some newBalance =>
            (None, mkState (<[l := {[Asset entry := newBalance]}]> (heap σ))
                           (<[User entry := l]> (balances σ)) (entries σ ++ [entry]))
        end
    end.
Proof.
  unfold AddEntry. rewrite prepare_eq.
  destruct (balances σ !! User entry) as [l|]; [reflexivity|]. cbv zeta.
  destruct (addDecimalStrings _ _); [|reflexivity].
  unfold commit, map_set. cbn [heap balances entries].
  rewrite lookup_total_insert_eq, insert_insert_eq, insert_empty. reflexivity.
Qed.

Lemma well_formed_new h : well_formed (NewInMemoryLedger h).
Proof.
  unfold well_formed, NewInMemoryLedger, user_balances. cbn [balances heap entries].
  split; [|split].
  - intros u l. rewrite lookup_empty. discriminate.
  - intros u1 u2 l. rewrite lookup_empty. discriminate.
  - intros u a b. rewrite !lookup_empty. discriminate.
Qed.

Lemma user_balances_heap σ user l :
  balances σ !! user = Some l → user_balances σ user = heap σ !!! l.
Proof. unfold user_balances. by intros ->. Qed.

(** [AddEntry] keeps the ledger well formed. *)
Lemma AddEntry_well_formed entry σ :
  well_formed σ → well_formed (snd (AddEntry entry σ)).
Proof.
  intros (Hdom & Hinj & Hent). rewrite AddEntry_eq.
  destruct (balances σ !! User entry) as [l|] eqn:E.
  - destruct (addDecimalStrings _ _) as [nb|]; [|by repeat split].
    cbn [snd]. repeat split; cbn [balances heap entries].
    + intros u l' Hu. destruct (decide (l' = l)) as [->|];
        [rewrite lookup_insert_eq|rewrite lookup_insert_ne by done]; eauto.
    + exact Hinj.
    + intros u a b. unfold user_balances. cbn [balances heap].
      destruct (balances σ !! u) as [l'|] eqn:Eu; [|by rewrite lookup_empty].
      destruct (decide (l' = l)) as [->|Hl].
      * assert (u = User entry) as -> by eauto.
        rewrite lookup_total_insert_eq.
        destruct (decide (a = Asset entry)) as [->|Ha].
        -- intros _. exists entry. rewrite elem_of_app, list_elem_of_singleton. auto.
        -- rewrite lookup_insert_ne by done. intros Hb.
           destruct (Hent (User entry) a b) as (e & He & ? & ?).
           { by rewrite (user_balances_heap σ _ l). }
           exists e. rewrite elem_of_app. auto.
      * rewrite lookup_total_insert_ne by done. intros Hb.
        destruct (Hent u a b) as (e & He & ? & ?).
        { by rewrite (user_balances_heap σ _ l'). }
        exists e. rewrite elem_of_app. auto.
  - cbv zeta. pose proof (fresh_heap (heap σ)) as Hf.
    set (l := fresh (dom (heap σ))) in *.
    assert (∀ u l', balances σ !! u = Some l' → l' ≠ l) as Hne.
    { intros u l' Hu ->. destruct (Hdom u l Hu) as [? ?]. congruence. }
    assert (∀ u, u ≠ User entry → ∀ m es,
              user_balances (mkState (<[l := m]> (heap σ))
                               (<[User entry := l]> (balances σ)) es) u
              = user_balances σ u) as Hother.
    { intros u Hu m es. unfold user_balances. cbn [balances heap].
      rewrite lookup_insert_ne by done.
      destruct (balances σ !! u) as [l'|] eqn:Eu; [|reflexivity].
      rewrite lookup_total_insert_ne; [reflexivity|]. intros <-. by eapply Hne. }
    destruct (addDecimalStrings _ _) as [nb|]; cbn [snd];
      (split; [|split]); cbn [balances heap entries].
    + intros u l'. destruct (decide (u = User entry)) as [->|Hu].
      * rewrite lookup_insert_eq. intros [= <-]. rewrite lookup_insert_eq. eauto.
      * rewrite lookup_insert_ne by done. intros Hl.
        rewrite lookup_insert_ne by (intros <-; by eapply Hne). eauto.
    + intros u1 u2 l'.
      destruct (decide (u1 = User entry)) as [->|H1];
        destruct (decide (u2 = User entry)) as [->|H2];
        rewrite ?lookup_insert_eq, ?lookup_insert_ne by done; try done.
      * intros [= <-] H. by apply Hne in H.
      * intros H [= <-]. by apply Hne in H.
      * apply Hinj.
    + intros u a b. destruct (decide (u = User entry)) as [->|Hu].
      * unfold user_balances. cbn [balances heap].
        rewrite lookup_insert_eq, lookup_total_insert_eq.
        intros Hb. apply lookup_singleton_Some in Hb as [<- _].
        exists entry. rewrite elem_of_app, list_elem_of_singleton. auto.
      * rewrite Hother by done. intros Hb.
        destruct (Hent u a b Hb) as (e & He & ? & ?).
        exists e. rewrite elem_of_app. auto.
    + intros u l'. destruct (decide (u = User entry)) as [->|Hu].
      * rewrite lookup_insert_eq. intros [= <-]. rewrite lookup_insert_eq. eauto.
      * rewrite lookup_insert_ne by done. intros Hl.
        rewrite lookup_insert_ne by (intros <-; by eapply Hne). eauto.
    + intros u1 u2 l'.
      destruct (decide (u1 = User entry)) as [->|H1];
        destruct (decide (u2 = User entry)) as [->|H2];
        rewrite ?lookup_insert_eq, ?lookup_insert_ne by done; try done.
      * intros [= <-] H. by apply Hne in H.
      * intros H [= <-]. by apply Hne in H.
      * apply Hinj.
    + intros u a b. destruct (decide (u = User entry)) as [->|Hu].
      * unfold user_balances. cbn [balances heap].
        rewrite lookup_insert_eq, lookup_total_insert_eq, lookup_empty. discriminate.
      * rewrite Hother by done. apply Hent.
Qed.

Lemma add_all_well_formed es : ∀ σ, well_formed σ → well_formed (add_all es σ).
Proof.
  induction es as [|e es IH]; intros σ H; [exact H|].
  unfold add_all. cbn [fold_left]. apply IH, AddEntry_well_formed, H.
Qed.

(** [AddEntry] writes to the user's own map or to a new object: an object
    that exists and is not one of the ledger's maps is left alone, and does
    not become one. *)
Lemma AddEntry_frame entry σ c :
  is_Some (heap σ !! c) → ¬ owned σ c →
  heap (snd (AddEntry entry σ)) !! c = heap σ !! c
  ∧ ¬ owned (snd (AddEntry entry σ)) c.
Proof.
  intros Hc Hown. rewrite AddEntry_eq.
  assert (c ≠ fresh (dom (heap σ))) as Hfresh.
  { intros ->. rewrite fresh_heap in Hc. by destruct Hc. }
  assert (∀ es h,
            ¬ owned (mkState h (<[User entry := fresh (dom (heap σ))]> (balances σ)) es) c)
    as Hown'.
  { intros es h [u Hu]. cbn [balances] in Hu.
    destruct (decide (u = User entry)) as [->|Hne].
    - rewrite lookup_insert_eq in Hu. congruence.
    - rewrite lookup_insert_ne in Hu by done. apply Hown. by exists u. }
  destruct (balances σ !! User entry) as [l|] eqn:E.
  - assert (l ≠ c) by (intros ->; apply Hown; by exists (User entry)).
    destruct (addDecimalStrings _ _); cbn [snd heap]; [|done].
    split; [by rewrite lookup_insert_ne|exact Hown].
  - cbv zeta. destruct (addDecimalStrings _ _); cbn [snd heap];
      (split; [by rewrite lookup_insert_ne|apply Hown']).
Qed.

Lemma add_all_frame es : ∀ σ c,
  is_Some (heap σ !! c) → ¬ owned σ c →
  heap (add_all es σ) !! c = heap σ !! c.
Proof.
  induction es as [|e es IH]; intros σ c Hc Hown; [reflexivity|].
  unfold add_all. cbn [fold_left].
  destruct (AddEntry_frame e σ c Hc Hown) as [Hh Ho].
  fold (add_all es (snd (AddEntry e σ))). rewrite IH; [exact Hh| |exact Ho].
  by rewrite Hh.
Qed.

(** C8. [GetBalance] returns no error and a reference to a new map object
    holding the user's balances at the time of the call, the empty map for
    a user without accepted entries.  The object is none of the ledger's own
    maps: the call leaves the ledger as it was, later [AddEntry] calls do
    not change the snapshot, and a write through the returned reference
    does not change any balance of the ledger. *)
Theorem GetBalance_independent_copy σ user :
  well_formed σ →
  let resp := fst (fst (GetBalance user σ)) in
  let σ' := snd (GetBalance user σ) in
  snd (fst (GetBalance user σ)) = None
  ∧ resp_User resp = user
  ∧ heap σ' !! Balances resp = Some (user_balances σ user)
  ∧ ((∀ e, e ∈ entries σ → User e ≠ user) → heap σ' !! Balances resp = Some ∅)
  ∧ heap σ !! Balances resp = None
  ∧ ¬ owned σ' (Balances resp)
  ∧ (balances σ' = balances σ ∧ entries σ' = entries σ
     ∧ ∀ u, user_balances σ' u = user_balances σ u)
  ∧ well_formed σ'
  ∧ (∀ es, heap (add_all es σ') !! Balances resp = heap σ' !! Balances resp)
  ∧ (∀ k v u,
       user_balances
         (mkState (map_set (heap σ') (Balances resp) k v) (balances σ') (entries σ')) u
       = user_balances σ' u).
Proof.
  intros (Hdom & Hinj & Hent). cbv zeta. rewrite GetBalance_eq.
  cbn [fst snd resp_User Balances heap balances entries].
  pose proof (fresh_heap (heap σ)) as Hf. set (c := fresh (dom (heap σ))) in *.
  assert (∀ u l, balances σ !! u = Some l → l ≠ c) as Hne.
  { intros u l Hu ->. destruct (Hdom u c Hu) as [? ?]. congruence. }
  assert (∀ m es u,
            user_balances (mkState (<[c := m]> (heap σ)) (balances σ) es) u
            = user_balances σ u) as Hsame.
  { intros m es u. unfold user_balances. cbn [balances heap].
    destruct (balances σ !! u) as [l|] eqn:Eu; [|reflexivity].
    rewrite lookup_total_insert_ne; [reflexivity|]. intros <-. by eapply Hne. }
  assert (¬ owned (mkState (<[c := user_balances σ user]> (heap σ))
                     (balances σ) (entries σ)) c) as Hown.
  { intros [u Hu]. cbn [balances] in Hu. by eapply Hne. }
  split; [reflexivity|]. split; [reflexivity|].
  split; [apply lookup_insert_eq|]. split.
  { intros Hno. rewrite lookup_insert_eq. f_equal. apply map_eq. intros a.
    rewrite lookup_empty. destruct (user_balances σ user !! a) as [b|] eqn:Eb; [|done].
    destruct (Hent user a b Eb) as (e & He & Hu & _). by apply Hno in He. }
  split; [exact Hf|]. split; [exact Hown|].
  split; [split; [reflexivity|split; [reflexivity|apply Hsame]]|].
  split.
  { split; [|split]; cbn [balances heap entries].
    - intros u l Hu. rewrite lookup_insert_ne by (intros <-; by eapply Hne). eauto.
    - exact Hinj.
    - intros u a b. rewrite Hsame. apply Hent. }
  split.
  { intros es. apply add_all_frame; [|exact Hown].
    cbn [heap]. rewrite lookup_insert_eq. eauto. }
  intros k v u. unfold map_set. rewrite insert_insert_eq.
  rewrite !Hsame. reflexivity.
Qed.

(** [GetBalance_independent_copy] on a ledger with one accepted entry, asked
    for a user it has never seen. *)
Lemma GetBalance_independent_copy_witness :
  let σ := add_all [mkEntry "user1" "BTC" "100.5"] (NewInMemoryLedger ∅) in
  snd (fst (GetBalance "user999" σ)) = None
  ∧ heap (snd (GetBalance "user999" σ)) !! Balances (fst (fst (GetBalance "user999" σ)))
    = Some ∅.
Proof.
  cbv zeta.
  pose proof (GetBalance_independent_copy
                (add_all [mkEntry "user1" "BTC" "100.5"] (NewInMemoryLedger ∅))
                "user999"
                (add_all_well_formed _ _ (well_formed_new ∅))) as H.
  cbv zeta in H. destruct H as (Herr & _ & _ & Hempty & _).
  split; [exact Herr|]. apply Hempty.
  intros e He. vm_compute in He. apply list_elem_of_singleton in He. subst e.
  vm_compute. discriminate.
Defined.

(** ** Decimal digits: printing and parsing *)

Lemma digit_char_spec d :
  0 <= d < 10 →
  strconv.is_digit (big.digit_char d) = true ∧ strconv.digit_val (big.digit_char d) = d.
Proof.
  intros H.
  assert (d = 0 ∨ d = 1 ∨ d = 2 ∨ d = 3 ∨ d = 4 ∨ d = 5 ∨ d = 6 ∨ d = 7 ∨ d = 8 ∨ d = 9)
    as Hd by lia.
  repeat (destruct Hd as [->|Hd]; [vm_compute; auto|]). subst d. vm_compute. auto.
Qed.

(** A digit is none of the other characters the decimal parser looks for. *)
Lemma is_digit_other c :
  strconv.is_digit c = true →
  decimal.is_e c = false ∧ decimal.is_dot c = false
  ∧ Ascii.eqb c "+" = false ∧ Ascii.eqb c "-" = false.
Proof.
  destruct c as [[] [] [] [] [] [] [] []]; vm_compute; intros H;
    first [discriminate H | auto].
Qed.

Lemma parse_digits_app l1 : ∀ l2 acc,
  strconv.parse_digits acc (l1 ++ l2)
  = match strconv.parse_digits acc l1 with
    | Some a => strconv.parse_digits a l2
    | None => None
    end.
Proof.
  induction l1 as [|c l1 IH]; intros l2 acc; cbn [app strconv.parse_digits]; [reflexivity|].
  destruct (strconv.is_digit c); [apply IH|reflexivity].
Qed.

Lemma parse_digits_zeros k : strconv.parse_digits 0 (repeat "0"%char k) = Some 0.
Proof. induction k as [|k IH]; [reflexivity|exact IH]. Qed.

(** Parsing undoes the digit loop of [Int.String], given enough fuel. *)
Lemma parse_digits_aux fuel : ∀ n acc,
  0 <= n < 2 ^ Z.of_nat fuel →
  strconv.parse_digits 0 (big.digits_aux fuel n acc) = strconv.parse_digits n acc.
Proof.
  induction fuel as [|fuel IH]; intros n acc Hn.
  - cbn in Hn. assert (n = 0) as -> by lia. reflexivity.
  - cbn [big.digits_aux].
    assert (0 <= n mod 10 < 10) as Hm by (apply Z.mod_pos_bound; lia).
    destruct (digit_char_spec _ Hm) as [Hd Hv].
    assert (n = 10 * (n / 10) + n mod 10) as Hdiv by (apply Z.div_mod; lia).
    destruct (Z.eqb_spec (n / 10) 0) as [E|E].
    + cbn [strconv.parse_digits]. rewrite Hd, Hv. f_equal. lia.
    + rewrite IH.
      * cbn [strconv.parse_digits]. rewrite Hd, Hv. f_equal. lia.
      * rewrite Nat2Z.inj_succ, Z.pow_succ_r in Hn by lia.
        split; [apply Z.div_pos; lia|].
        apply Z.div_lt_upper_bound; lia.
Qed.

Lemma parse_digits_digits n : 0 <= n → strconv.parse_digits 0 (big.digits n) = Some n.
Proof.
  intros Hn. unfold big.digits. rewrite parse_digits_aux; [reflexivity|].
  split; [exact Hn|]. rewrite Nat2Z.inj_succ, Z2Nat.id by apply Z.log2_nonneg.
  destruct (Z.eq_dec n 0) as [->|]; [reflexivity|].
  apply Z.log2_spec. lia.
Qed.

Lemma digits_aux_all fuel : ∀ n acc,
  0 <= n → Forall (fun c => strconv.is_digit c = true) acc →
  Forall (fun c => strconv.is_digit c = true) (big.digits_aux fuel n acc).
Proof.
  induction fuel as [|fuel IH]; intros n acc Hn Hacc; [exact Hacc|].
  cbn [big.digits_aux].
  assert (0 <= n mod 10 < 10) as Hm by (apply Z.mod_pos_bound; lia).
  destruct (digit_char_spec _ Hm) as [Hd _].
  destruct (n / 10 =? 0); [by constructor|].
  apply IH; [apply Z.div_pos; lia|by constructor].
Qed.

Lemma digits_all n : 0 <= n → Forall (fun c => strconv.is_digit c = true) (big.digits n).
Proof. intros. apply digits_aux_all; [assumption|constructor]. Qed.

Lemma digits_aux_length fuel : ∀ n acc,
  (length acc < length (big.digits_aux (S fuel) n acc))%nat.
Proof.
  induction fuel as [|fuel IH]; intros n acc.
  - cbn. destruct (n / 10 =? 0); cbn; lia.
  - cbn [big.digits_aux]. destruct (n / 10 =? 0); [cbn; lia|].
    etransitivity; [|apply IH]. cbn. lia.
Qed.

Lemma digits_nonempty n : (0 < length (big.digits n))%nat.
Proof. unfold big.digits. apply (digits_aux_length _ n []). Qed.

(** The value of a digit string is below ten to the power of its length. *)
Lemma parse_digits_bound l : ∀ acc n,
  0 <= acc → strconv.parse_digits acc l = Some n →
  0 <= n < (acc + 1) * 10 ^ Z.of_nat (length l).
Proof.
  induction l as [|c l IH]; intros acc n Hacc H; cbn [strconv.parse_digits length] in *.
  - injection H as <-. lia.
  - destruct (strconv.is_digit c) eqn:Ec; [|discriminate].
    assert (0 <= strconv.digit_val c <= 9) as Hc.
    { unfold strconv.is_digit, strconv.digit_val in *.
      apply andb_true_iff in Ec as [H1 H2].
      apply N.leb_le in H1, H2. lia. }
    apply IH in H; [|lia].
    rewrite Nat2Z.inj_succ, Z.pow_succ_r by lia. nia.
Qed.

(** A non-empty digit string, with or without a minus sign, is read as its
    value both by [strconv.ParseInt] (used up to 18 characters) and by
    [Int.SetString] (used beyond). *)
Lemma parse_integer_string (neg : bool) ds n :
  ds ≠ [] → Forall (fun c => strconv.is_digit c = true) ds →
  strconv.parse_digits 0 ds = Some n →
  (if (length (if neg then "-"%char :: ds else ds) <=? 18)%nat
   then strconv.ParseInt (if neg then "-"%char :: ds else ds) 64
   else big.SetString (if neg then "-"%char :: ds else ds))
  = Some (if neg then - n else n).
Proof.
  intros Hne Hall Hp. destruct ds as [|c ds]; [congruence|]. clear Hne.
  inversion Hall as [|? ? Hc _]; subst.
  destruct (is_digit_other c Hc) as (_ & _ & Hplus & Hminus).
  pose proof (parse_digits_bound _ _ _ (Z.le_refl 0) Hp) as Hb.
  assert (∀ s : list ascii, (length s <=? 18)%nat = true →
            (length (c :: ds) <= length s)%nat → n < 2 ^ 63) as Hsmall.
  { intros s Hs Hlen. apply Nat.leb_le in Hs.
    assert (10 ^ Z.of_nat (length (c :: ds)) <= 10 ^ 18)
      by (apply Z.pow_le_mono_r; lia).
    change (2 ^ 63) with 9223372036854775808.
    change (10 ^ 18) with 1000000000000000000 in *. lia. }
  destruct neg.
  - destruct (length ("-"%char :: c :: ds) <=? 18)%nat eqn:El.
    + specialize (Hsmall _ El ltac:(cbn; lia)).
      unfold strconv.ParseInt, strconv.ParseUint.
      change (Ascii.eqb "-" "+") with false. change (Ascii.eqb "-" "-") with true.
      cbn [orb]. rewrite Hp.
      change (2 ^ 64) with 18446744073709551616.
      change (2 ^ (64 - 1)) with 9223372036854775808.
      change (2 ^ 63) with 9223372036854775808 in Hsmall.
      destruct (Z.ltb_spec n 18446744073709551616); [|lia]. cbn [negb andb].
      destruct (Z.ltb_spec 9223372036854775808 n); [lia|]. reflexivity.
    + unfold big.SetString.
      change (Ascii.eqb "-" "+") with false. change (Ascii.eqb "-" "-") with true.
      cbn [orb]. rewrite Hp. reflexivity.
  - destruct (length (c :: ds) <=? 18)%nat eqn:El.
    + specialize (Hsmall _ El ltac:(lia)).
      unfold strconv.ParseInt, strconv.ParseUint. rewrite Hplus, Hminus.
      cbn [orb]. rewrite Hp.
      change (2 ^ 64) with 18446744073709551616.
      change (2 ^ (64 - 1)) with 9223372036854775808.
      change (2 ^ 63) with 9223372036854775808 in Hsmall.
      destruct (Z.ltb_spec n 18446744073709551616); [|lia]. cbn [negb andb].
      destruct (Z.leb_spec 9223372036854775808 n); [lia|]. reflexivity.
    + unfold big.SetString. rewrite Hplus, Hminus. cbn [orb]. rewrite Hp. reflexivity.
Qed.

Lemma index_any_none p l :
  Forall (fun c => p c = false) l → decimal.index_any p l = None.
Proof.
  induction 1 as [|c l Hc _ IH]; [reflexivity|].
  cbn [decimal.index_any]. rewrite Hc, IH. reflexivity.
Qed.

Lemma index_any_first p pre c post :
  Forall (fun c => p c = false) pre → p c = true →
  decimal.index_any p (pre ++ c :: post) = Some (length pre).
Proof.
  intros Hpre Hc. induction Hpre as [|x pre Hx _ IH]; cbn [app decimal.index_any length].
  - by rewrite Hc.
  - rewrite Hx, IH. reflexivity.
Qed.

Lemma point_index_found l : ∀ i p,
  Forall (fun c => decimal.is_dot c = false) l →
  decimal.point_index i (Some p) l = Some (Some p).
Proof.
  induction l as [|c l IH]; intros i p H; [reflexivity|].
  inversion H as [|? ? Hc Hl]; subst. cbn [decimal.point_index].
  rewrite Hc. apply IH, Hl.
Qed.

Lemma point_index_one pre post : ∀ i,
  Forall (fun c => decimal.is_dot c = false) pre →
  Forall (fun c => decimal.is_dot c = false) post →
  decimal.point_index i None (pre ++ "."%char :: post) = Some (Some (i + length pre)%nat).
Proof.
  induction pre as [|c pre IH]; intros i Hpre Hpost; cbn [app decimal.point_index length].
  - change (decimal.is_dot ".") with true. cbv iota.
    rewrite point_index_found by exact Hpost. do 2 f_equal. lia.
  - inversion Hpre as [|? ? Hc Hl]; subst. rewrite Hc, IH by assumption.
    do 2 f_equal. lia.
Qed.

(** [NewFromString] reads a fixed-point string with eight fractional digits
    as the integer its digits spell, with exponent -8. *)
Lemma NewFromString_fixed (neg : bool) ip fp n :
  ip ≠ [] →
  Forall (fun c => strconv.is_digit c = true) ip →
  Forall (fun c => strconv.is_digit c = true) fp →
  length fp = 8%nat →
  strconv.parse_digits 0 (ip ++ fp) = Some n →
  decimal.NewFromString
    (string_of_list_ascii ((if neg then "-"%char :: ip else ip) ++ "."%char :: fp))
  = Some (decimal.mkDecimal (if neg then - n else n) (-8)).
Proof.
  intros Hne Hip Hfp Hlen Hp.
  unfold decimal.NewFromString. rewrite list_ascii_of_string_of_list_ascii.
  set (pre := if neg then "-"%char :: ip else ip).
  assert (Forall (fun c => decimal.is_e c = false ∧ decimal.is_dot c = false) pre) as Hpre.
  { assert (Forall (fun c => decimal.is_e c = false ∧ decimal.is_dot c = false) ip) as H.
    { eapply Forall_impl; [exact Hip|]. intros c Hc. cbv beta.
      destruct (is_digit_other c Hc) as (? & ? & _). auto. }
    subst pre. destruct neg; [constructor; [split; reflexivity|exact H]|exact H]. }
  assert (Forall (fun c => decimal.is_e c = false ∧ decimal.is_dot c = false) fp) as Hfp'.
  { eapply Forall_impl; [exact Hfp|]. intros c Hc. cbv beta.
    destruct (is_digit_other c Hc) as (? & ? & _). auto. }
  rewrite index_any_none.
  2:{ apply Forall_app. split; [eapply Forall_impl; [exact Hpre|by intros ? [? ?]]|].
      constructor; [reflexivity|eapply Forall_impl; [exact Hfp'|by intros ? [? ?]]]. }
  rewrite point_index_one;
    [|eapply Forall_impl; [exact Hpre|by intros ? [? ?]]|eapply Forall_impl; [exact Hfp'|by intros ? [? ?]]].
  cbn [Nat.add].
  assert (firstn (length pre) (pre ++ "."%char :: fp) = pre) as ->
    by (rewrite firstn_app, Nat.sub_diag, firstn_all; cbn; apply app_nil_r).
  assert (skipn (S (length pre)) (pre ++ "."%char :: fp) = fp) as ->.
  { rewrite skipn_app, skipn_all2 by lia.
    replace (S (length pre) - length pre)%nat with 1%nat by lia. reflexivity. }
  rewrite length_app. cbn [length]. rewrite Hlen.
  destruct (Nat.ltb_spec (S (length pre)) (length pre + 9)); [|lia].
  assert (pre ++ fp = if neg then "-"%char :: (ip ++ fp) else ip ++ fp) as ->
    by (subst pre; by destruct neg).
  rewrite (parse_integer_string neg (ip ++ fp) n); [reflexivity| |by apply Forall_app|exact Hp].
  destruct ip; [congruence|discriminate].
Qed.

(** What [string] prints for a decimal with exponent -8: an optional minus
    sign, at least one digit, a point and eight digits, which spell the
    absolute value. *)
Lemma string8_shape v :
  ∃ ip fp,
    decimal.string_ (decimal.mkDecimal v (-8))
    = (if v <? 0 then "-"%char :: ip else ip) ++ "."%char :: fp
    ∧ ip ≠ []
    ∧ Forall (fun c => strconv.is_digit c = true) ip
    ∧ Forall (fun c => strconv.is_digit c = true) fp
    ∧ length fp = 8%nat
    ∧ strconv.parse_digits 0 (ip ++ fp) = Some (Z.abs v).
Proof.
  unfold decimal.string_. cbn [decimal.exp decimal.value].
  change (0 <=? -8) with false. cbv iota.
  assert (big.String (Z.abs v) = big.digits (Z.abs v)) as ->.
  { unfold big.String. destruct (Z.ltb_spec (Z.abs v) 0); [lia|reflexivity]. }
  pose proof (digits_all (Z.abs v) (Z.abs_nonneg v)) as Hall.
  pose proof (parse_digits_digits (Z.abs v) (Z.abs_nonneg v)) as Hp.
  pose proof (digits_nonempty (Z.abs v)) as Hlen.
  set (str := big.digits (Z.abs v)) in *.
  destruct (Z.ltb_spec (- -8) (Z.of_nat (length str))) as [Hlong|Hshort].
  - set (k := Z.to_nat (Z.of_nat (length str) + -8)).
    assert (k = (length str - 8)%nat) as Hk by lia.
    assert (length (skipn k str) = 8%nat) as Hfl by (rewrite length_skipn; lia).
    rewrite Hfl. cbn [Nat.ltb Nat.leb].
    exists (firstn k str), (skipn k str).
    split; [by destruct (v <? 0)|]. split.
    { intros E. apply (f_equal (@length _)) in E. rewrite length_firstn in E.
      cbn [length] in E. lia. }
    split; [by apply Forall_take|]. split; [by apply Forall_drop|].
    split; [exact Hfl|]. by rewrite firstn_skipn.
  - set (z := Z.to_nat (- -8 - Z.of_nat (length str))).
    assert (length (repeat "0"%char z ++ str) = 8%nat) as Hfl
      by (rewrite length_app, repeat_length; lia).
    rewrite Hfl. cbn [Nat.ltb Nat.leb].
    exists ["0"%char], (repeat "0"%char z ++ str).
    split; [by destruct (v <? 0)|]. split; [discriminate|].
    split; [by repeat constructor|]. split.
    { apply Forall_app. split; [|exact Hall].
      apply Forall_forall. intros c Hc. apply list_elem_of_In, repeat_spec in Hc.
      by subst c. }
    split; [exact Hfl|].
    change (["0"%char] ++ repeat "0"%char z ++ str)
      with (repeat "0"%char (S z) ++ str).
    rewrite parse_digits_app, parse_digits_zeros. exact Hp.
Qed.

(** [NewFromString] reads back what [string] prints for a decimal with
    exponent -8. *)
Lemma NewFromString_string8 v :
  decimal.NewFromString (string_of_list_ascii (decimal.string_ (decimal.mkDecimal v (-8))))
  = Some (decimal.mkDecimal v (-8)).
Proof.
  destruct (string8_shape v) as (ip & fp & -> & Hne & Hip & Hfp & Hlen & Hp).
  rewrite (NewFromString_fixed (v <? 0) ip fp (Z.abs v)) by assumption.
  do 2 f_equal. destruct (Z.ltb_spec v 0); lia.
Qed.

(** Such a string shows exactly eight fractional digits. *)
Lemma fraction_digits_string8 v :
  fraction_digits (string_of_list_ascii (decimal.string_ (decimal.mkDecimal v (-8))))
  = Some 8%nat.
Proof.
  destruct (string8_shape v) as (ip & fp & -> & Hne & Hip & Hfp & Hlen & Hp).
  unfold fraction_digits. rewrite list_ascii_of_string_of_list_ascii.
  assert (Forall (fun c => decimal.is_dot c = false)
            (if v <? 0 then "-"%char :: ip else ip)) as Hpre.
  { assert (Forall (fun c => decimal.is_dot c = false) ip) as H.
    { eapply Forall_impl; [exact Hip|]. intros c Hc.
      by destruct (is_digit_other c Hc) as (_ & ? & _). }
    destruct (v <? 0); [by constructor|exact H]. }
  set (pre := if v <? 0 then "-"%char :: ip else ip) in *.
  rewrite index_any_first by (exact Hpre || reflexivity).
  rewrite skipn_app, skipn_all2 by lia.
  replace (S (length pre) - length pre)%nat with 1%nat by lia.
  cbn [skipn app]. rewrite skipn_O. by rewrite Hlen.
Qed.

(** ** Exact sums of amounts with at most eight fractional digits *)

Lemma Round_exact d :
  -8 <= decimal.exp d → decimal.Round d 8 = decimal.mkDecimal (decimal.units d 8) (-8).
Proof.
  intros He. destruct d as [v e]. unfold decimal.Round, decimal.units, decimal.rescale.
  cbn [decimal.exp decimal.value] in *.
  change (Z.opp 8) with (-8). change (-8 - 1) with (-9).
  destruct (Z.eqb_spec e (-8)) as [->|Hne].
  { change (10 ^ (-8 + 8)) with 1. by rewrite Z.mul_1_r. }
  destruct (Z.eqb_spec e (-9)); [lia|].
  destruct (Z.ltb_spec e (-9)); [lia|].
  cbn [decimal.exp decimal.value].
  replace (Z.abs (-9 - e)) with (Z.succ (e + 8)) by lia.
  rewrite Z.pow_succ_r by lia.
  set (x := v * 10 ^ (e + 8)).
  replace (v * (10 * 10 ^ (e + 8))) with (10 * x) by (subst x; ring).
  f_equal.
  destruct (Z.ltb_spec (10 * x) 0).
  - pose proof (Z.div_mod (10 * x - 5) 10 ltac:(lia)).
    pose proof (Z.mod_pos_bound (10 * x - 5) 10 ltac:(lia)).
    destruct (Z.ltb_spec ((10 * x - 5) / 10) 0); [|lia].
    destruct (Z.eqb_spec ((10 * x - 5) mod 10) 0); cbn [negb andb]; lia.
  - pose proof (Z.div_mod (10 * x + 5) 10 ltac:(lia)).
    pose proof (Z.mod_pos_bound (10 * x + 5) 10 ltac:(lia)).
    destruct (Z.ltb_spec ((10 * x + 5) / 10) 0); [lia|]. cbn [andb]. lia.
Qed.

Lemma Add_units a b :
  -8 <= decimal.exp a → -8 <= decimal.exp b →
  -8 <= decimal.exp (decimal.Add a b)
  ∧ decimal.units (decimal.Add a b) 8 = decimal.units a 8 + decimal.units b 8.
Proof.
  destruct a as [va ea], b as [vb eb]. cbn [decimal.exp]. intros Ha Hb.
  unfold decimal.Add, decimal.units, decimal.rescale. cbn [decimal.exp decimal.value].
  destruct (Z.ltb_spec ea eb).
  - destruct (Z.eqb_spec eb ea); [lia|]. destruct (Z.ltb_spec eb ea); [lia|].
    cbn [decimal.exp decimal.value]. split; [lia|].
    replace (Z.abs (ea - eb)) with (eb - ea) by lia.
    replace (eb + 8) with ((eb - ea) + (ea + 8)) by lia.
    rewrite (Z.pow_add_r 10 (eb - ea) (ea + 8)) by lia. ring.
  - destruct (Z.ltb_spec eb ea).
    + destruct (Z.eqb_spec ea eb); [lia|]. destruct (Z.ltb_spec ea eb); [lia|].
      cbn [decimal.exp decimal.value]. split; [lia|].
      replace (Z.abs (eb - ea)) with (ea - eb) by lia.
      replace (ea + 8) with ((ea - eb) + (eb + 8)) by lia.
      rewrite (Z.pow_add_r 10 (ea - eb) (eb + 8)) by lia. ring.
    + cbn [decimal.exp decimal.value]. split; [lia|].
      assert (ea = eb) as -> by lia. ring.
Qed.

(** The string [StringFixed(8)] prints for a sum of two such decimals. *)
Lemma StringFixed_Add a b :
  -8 <= decimal.exp a → -8 <= decimal.exp b →
  decimal.StringFixed (decimal.Add a b) 8
  = string_of_list_ascii
      (decimal.string_ (decimal.mkDecimal (decimal.units a 8 + decimal.units b 8) (-8))).
Proof.
  intros Ha Hb. destruct (Add_units a b Ha Hb) as [He Hu].
  unfold decimal.StringFixed. rewrite Round_exact by exact He. by rewrite Hu.
Qed.

Lemma NewFromString_nonempty s d : decimal.NewFromString s = Some d → s ≠ "".
Proof. intros H ->. vm_compute in H. discriminate. Qed.

Lemma addDecimalStrings_parsed a b da db :
  decimal.NewFromString a = Some da → decimal.NewFromString b = Some db →
  addDecimalStrings a b = Some (decimal.StringFixed (decimal.Add da db) 8).
Proof.
  intros Ha Hb. unfold addDecimalStrings.
  destruct (decide (a = "")) as [->|_]; [by apply NewFromString_nonempty in Ha|].
  destruct (decide (b = "")) as [->|_]; [by apply NewFromString_nonempty in Hb|].
  by rewrite Ha, Hb.
Qed.

(** The number of a decimal counted in units of [10 ^ -8]. *)
Lemma to_Q_units d :
  -8 <= decimal.exp d →
  (decimal.to_Q (decimal.mkDecimal (decimal.units d 8) (-8)) == decimal.to_Q d)%Q.
Proof.
  intros He. unfold decimal.to_Q, decimal.units. cbn [decimal.value decimal.exp].
  rewrite inject_Z_mult, Zpower_Qpower by lia.
  change (inject_Z 10) with 10%Q.
  rewrite <- Qmult_assoc, <- Qpower_plus by discriminate.
  replace (decimal.exp d + 8 + -8) with (decimal.exp d) by lia. reflexivity.
Qed.

Lemma to_Q_plus u1 u2 e :
  (decimal.to_Q (decimal.mkDecimal (u1 + u2) e)
   == decimal.to_Q (decimal.mkDecimal u1 e) + decimal.to_Q (decimal.mkDecimal u2 e))%Q.
Proof.
  unfold decimal.to_Q. cbn [decimal.value decimal.exp]. rewrite inject_Z_plus. ring.
Qed.

(** Whether [AddEntry] fails is decided by [addDecimalStrings] on the stored
    balance (["0"] when there is none) and the amount. *)
Lemma AddEntry_fst entry σ :
  fst (AddEntry entry σ)
  = match addDecimalStrings
            (match balance_of σ (User entry) (Asset entry) with
             | Some b => if decide (b = "") then "0" else b
             | None => "0"
             end) (Amount entry) with
    | Some _ => None
    | None => Some InvalidAmountFormat
    end.
Proof.
  rewrite AddEntry_eq. unfold balance_of, user_balances, map_get.
  destruct (balances σ !! User entry) as [l|].
  - destruct ((heap σ !!! l) !! Asset entry) as [b|]; cbv [default from_option id].
    + by destruct (addDecimalStrings _ _).
    + destruct (decide (EmptyString = "")); [|congruence].
      by destruct (addDecimalStrings _ _).
  - rewrite lookup_empty. cbv zeta. by destruct (addDecimalStrings _ _).
Qed.

(** C4, as the code has it.  For amounts [a] and [b] that parse as decimals
    with at most eight fractional digits, on an account without a balance,
    [AddEntry] with [a] and then with [b] succeeds twice and stores the
    string that [StringFixed(8)] prints for the sum: it reads back as a
    decimal with exponent -8 whose value is exactly [a + b], and it shows
    exactly eight fractional digits. *)
Theorem AddEntry_twice_exact σ user asset a b da db :
  balance_of σ user asset = None →
  decimal.NewFromString a = Some da →
  decimal.NewFromString b = Some db →
  -8 <= decimal.exp da →
  -8 <= decimal.exp db →
  let σ1 := snd (AddEntry (mkEntry user asset a) σ) in
  let σ2 := snd (AddEntry (mkEntry user asset b) σ1) in
  fst (AddEntry (mkEntry user asset a) σ) = None
  ∧ fst (AddEntry (mkEntry user asset b) σ1) = None
  ∧ balance_of σ2 user asset = Some (decimal.StringFixed (decimal.Add da db) 8)
  ∧ (∃ r, decimal.NewFromString (decimal.StringFixed (decimal.Add da db) 8) = Some r
          ∧ decimal.exp r = -8
          ∧ (decimal.to_Q r == decimal.to_Q da + decimal.to_Q db)%Q)
  ∧ fraction_digits (decimal.StringFixed (decimal.Add da db) 8) = Some 8%nat.
Proof.
  intros Hnone Ha Hb Hea Heb. cbv zeta.
  set (ea := mkEntry user asset a). set (eb := mkEntry user asset b).
  assert (decimal.NewFromString "0" = Some (decimal.mkDecimal 0 0)) as Hzero
    by (vm_compute; reflexivity).
  set (s1 := string_of_list_ascii
               (decimal.string_ (decimal.mkDecimal (decimal.units da 8) (-8)))).
  assert (addDecimalStrings "0" a = Some s1) as Hadd1.
  { rewrite (addDecimalStrings_parsed _ _ _ _ Hzero Ha).
    rewrite StringFixed_Add by (cbn; lia). reflexivity. }
  (* first call *)
  pose proof (AddEntry_fst ea σ) as Hf1. cbn [User Asset Amount ea] in Hf1.
  rewrite Hnone, Hadd1 in Hf1.
  destruct (AddEntry_success ea σ Hf1) as (nb1 & Hnb1 & Hbal1 & _).
  cbn [User Asset Amount ea] in Hnb1, Hbal1. rewrite Hnone, Hadd1 in Hnb1.
  injection Hnb1 as <-.
  (* second call *)
  assert (decimal.NewFromString s1 = Some (decimal.mkDecimal (decimal.units da 8) (-8)))
    as Hs1 by apply NewFromString_string8.
  pose proof (NewFromString_nonempty _ _ Hs1) as Hs1ne.
  assert (addDecimalStrings s1 b = Some (decimal.StringFixed (decimal.Add da db) 8))
    as Hadd2.
  { rewrite (addDecimalStrings_parsed _ _ _ _ Hs1 Hb).
    rewrite !StringFixed_Add by (cbn; lia). do 4 f_equal.
    unfold decimal.units at 1. cbn [decimal.value decimal.exp].
    change (10 ^ (-8 + 8)) with 1. lia. }
  set (σ1 := snd (AddEntry ea σ)) in *.
  pose proof (AddEntry_fst eb σ1) as Hf2. cbn [User Asset Amount eb] in Hf2.
  rewrite Hbal1 in Hf2. destruct (decide (s1 = "")); [congruence|].
  rewrite Hadd2 in Hf2.
  destruct (AddEntry_success eb σ1 Hf2) as (nb2 & Hnb2 & Hbal2 & _).
  cbn [User Asset Amount eb] in Hnb2, Hbal2. rewrite Hbal1 in Hnb2.
  destruct (decide (s1 = "")); [congruence|]. rewrite Hadd2 in Hnb2.
  injection Hnb2 as <-.
  split; [exact Hf1|]. split; [exact Hf2|]. split; [exact Hbal2|].
  rewrite StringFixed_Add by assumption. split.
  - eexists. split; [apply NewFromString_string8|]. split; [reflexivity|].
    rewrite to_Q_plus, !to_Q_units by assumption. reflexivity.
  - apply fraction_digits_string8.
Qed.

(** [AddEntry_twice_exact] at the amounts of the precision test. *)
Lemma AddEntry_twice_exact_witness :
  balance_of
    (snd (AddEntry (mkEntry "user1" "BTC" "0.00000002")
            (snd (AddEntry (mkEntry "user1" "BTC" "0.00000001") (NewInMemoryLedger ∅)))))
    "user1" "BTC"
  = Some (decimal.StringFixed
            (decimal.Add (decimal.mkDecimal 1 (-8)) (decimal.mkDecimal 2 (-8))) 8).
Proof.
  apply (AddEntry_twice_exact (NewInMemoryLedger ∅) "user1" "BTC"
           "0.00000001" "0.00000002" (decimal.mkDecimal 1 (-8)) (decimal.mkDecimal 2 (-8))).
  - reflexivity.
  - vm_compute. reflexivity.
  - vm_compute. reflexivity.
  - vm_compute. discriminate.
  - vm_compute. discriminate.
Defined.

(** C4 as stated fails beyond eight fractional digits.  The amount
    0.000000004, added twice to a new account, leaves the balance
    0.00000000: the first sum is rounded to eight places before it is
    stored.  The exact sum 0.000000008 printed with eight places is
    0.00000001. *)
Lemma AddEntry_twice_rounds_twice :
  let a := "0.000000004" in
  let σ2 := add_all [mkEntry "user1" "BTC" a; mkEntry "user1" "BTC" a] (NewInMemoryLedger ∅) in
  decimal.NewFromString a = Some (decimal.mkDecimal 4 (-9))
  ∧ balance_of σ2 "user1" "BTC" = Some "0.00000000"
  ∧ decimal.StringFixed (decimal.Add (decimal.mkDecimal 4 (-9)) (decimal.mkDecimal 4 (-9))) 8
    = "0.00000001"
  ∧ balance_of σ2 "user1" "BTC"
    ≠ Some (decimal.StringFixed
              (decimal.Add (decimal.mkDecimal 4 (-9)) (decimal.mkDecimal 4 (-9))) 8).
Proof.
  cbv zeta. repeat split; try (vm_compute; reflexivity).
  vm_compute. discriminate.
Qed.

(** ** Goroutines: every run is a sequential run *)

Import goroutines.

Lemma add_all_snoc ds e σ : add_all (ds ++ [e]) σ = snd (AddEntry e (add_all ds σ)).
Proof. unfold add_all. by rewrite fold_left_app. Qed.

Lemma concat_insert_same {A} (L : list (list A)) i x :
  L !! i = Some x → concat (<[i := x]> L) = concat L.
Proof. intros H. by rewrite list_insert_id. Qed.

Lemma concat_insert_nil {A} (L : list (list A)) : ∀ i x,
  L !! i = Some x → Permutation (x ++ concat (<[i := []]> L)) (concat L).
Proof.
  induction L as [|y L IH]; intros [|i] x H; try discriminate.
  - injection H as ->. reflexivity.
  - cbn [concat]. change (<[S i := []]> (y :: L)) with (y :: <[i := []]> L).
    cbn [concat]. rewrite <- (IH i x H), !app_assoc.
    apply Permutation_app_tail, Permutation_app_comm.
Qed.

Lemma pending_insert_same (ts : list Thread) i t t' :
  ts !! i = Some t → pending t' = pending t →
  concat (map pending (<[i := t']> ts)) = concat (map pending ts).
Proof.
  intros H E. change (map pending) with (fmap (M := list) pending).
  rewrite list_fmap_insert, E. apply concat_insert_same.
  by rewrite list_lookup_fmap, H.
Qed.

Lemma pending_insert_done (ts : list Thread) i t t' e :
  ts !! i = Some t → pending t = [e] → pending t' = [] →
  Permutation (e :: concat (map pending (<[i := t']> ts))) (concat (map pending ts)).
Proof.
  intros H E E'. change (map pending) with (fmap (M := list) pending).
  rewrite list_fmap_insert, E'.
  apply (concat_insert_nil (pending <$> ts) i [e]).
  by rewrite list_lookup_fmap, H, <- E.
Qed.

Lemma start_linearized es σ0 : linearized σ0 es [] (start es σ0).
Proof.
  unfold linearized, start. cbn [locked store threads app]. split.
  - induction es as [|e es IH]; [reflexivity|]. cbn. by constructor.
  - split; [reflexivity|]. apply Forall_forall. intros t Ht.
    apply list_elem_of_In, in_map_iff in Ht as (e & <- & _). reflexivity.
Qed.

(** A step of any goroutine keeps the machine in a state of a sequential
    run. *)
Lemma step_linearized σ0 es ds m j :
  linearized σ0 es ds m → ∃ ds', linearized σ0 es ds' (step m j).
Proof.
  intros [Hperm Hst]. unfold step.
  destruct (threads m !! j) as [t|] eqn:Ej; [|exists ds; by split].
  pose proof (lookup_lt_Some _ _ _ Ej) as Hj.
  destruct (locked m) eqn:El.
  - destruct Hst as (i & ti & Hi & Hsec & Hout).
    destruct (decide (j = i)) as [->|Hne].
    2:{ pose proof (Hout j t Hne Ej) as Ho.
        destruct t; try discriminate Ho; exists ds; split; try done;
          rewrite El; eauto 10. }
    rewrite Ej in Hi. injection Hi as <-.
    destruct t as [e|e|e l [nb|]|err|err]; cbn [in_section] in Hsec; try done.
    + (* read and add *)
      destruct (prepare e (store m)) as [[σ1 l] cur] eqn:Ep.
      exists ds. split; cbn [locked store threads].
      * by rewrite (pending_insert_same _ _ (AtAdd e)).
      * exists i, (AtWrite e l (addDecimalStrings cur (Amount e))).
        split; [by apply list_lookup_insert_eq|]. split.
        -- cbn [in_section]. exists cur. by rewrite <- Hsec.
        -- intros k t' Hk. rewrite list_lookup_insert_ne by done. by apply Hout.
    + (* write and append *)
      destruct Hsec as (cur & Hp & Hsum).
      exists (ds ++ [e]). split; cbn [locked store threads].
      * rewrite <- Hperm, <- app_assoc. apply Permutation_app_head. cbn [app].
        by apply (pending_insert_done _ _ (AtWrite e l (Some nb))).
      * exists i, (AtUnlock None).
        split; [by apply list_lookup_insert_eq|]. split.
        -- cbn [in_section]. rewrite add_all_snoc. unfold AddEntry.
           by rewrite Hp, <- Hsum.
        -- intros k t' Hk. rewrite list_lookup_insert_ne by done. by apply Hout.
    + (* the amount did not parse *)
      destruct Hsec as (cur & Hp & Hsum).
      exists (ds ++ [e]). split; cbn [locked store threads].
      * rewrite <- Hperm, <- app_assoc. apply Permutation_app_head. cbn [app].
        by apply (pending_insert_done _ _ (AtWrite e l None)).
      * exists i, (AtUnlock (Some InvalidAmountFormat)).
        split; [by apply list_lookup_insert_eq|]. split.
        -- cbn [in_section]. rewrite add_all_snoc. unfold AddEntry.
           by rewrite Hp, <- Hsum.
        -- intros k t' Hk. rewrite list_lookup_insert_ne by done. by apply Hout.
    + (* unlock *)
      exists ds. split; cbn [locked store threads].
      * by rewrite (pending_insert_same _ _ (AtUnlock err)).
      * split; [exact Hsec|]. apply Forall_lookup. intros k t' Hk.
        destruct (decide (k = i)) as [->|Hki].
        -- rewrite list_lookup_insert_eq in Hk by done. by injection Hk as <-.
        -- rewrite list_lookup_insert_ne in Hk by done. by eapply Hout.
  - destruct Hst as [Hstore Hall].
    pose proof (proj1 (Forall_lookup _ _) Hall j t Ej) as Ho.
    destruct t as [e|e|e l r|err|err]; try discriminate Ho.
    + (* lock *)
      exists ds. split; cbn [locked store threads].
      * by rewrite (pending_insert_same _ _ (AtLock e)).
      * exists j, (AtAdd e). split; [by apply list_lookup_insert_eq|].
        split; [exact Hstore|].
        intros k t' Hk. rewrite list_lookup_insert_ne by done.
        intros Hl. by apply (proj1 (Forall_lookup _ _) Hall k t').
    + exists ds. split; [done|]. by rewrite El.
Qed.

Lemma exec_linearized σ0 es schedule : ∀ ds m,
  linearized σ0 es ds m → ∃ ds', linearized σ0 es ds' (exec schedule m).
Proof.
  induction schedule as [|j schedule IH]; intros ds m H; [by exists ds|].
  destruct (step_linearized σ0 es ds m j H) as [ds' H'].
  unfold exec. cbn [fold_left]. by apply (IH ds').
Qed.

Lemma pending_returned ts :
  forallb returned ts = true → concat (map pending ts) = [].
Proof.
  induction ts as [|t ts IH]; [reflexivity|]. cbn [forallb map concat].
  intros H. apply andb_true_iff in H as [Ht Hts]. rewrite (IH Hts).
  by destruct t.
Qed.

(** Every run in which all goroutines return ends in the store of a
    sequential run: the entries applied one after the other, in some
    order, with the mutex free. *)
Lemma goroutines_linearizable es σ0 schedule :
  all_returned (exec schedule (start es σ0)) = true →
  ∃ ds, Permutation ds es
        ∧ store (exec schedule (start es σ0)) = add_all ds σ0
        ∧ locked (exec schedule (start es σ0)) = false.
Proof.
  intros Hret.
  destruct (exec_linearized σ0 es schedule [] _ (start_linearized es σ0)) as [ds [Hperm Hst]].
  set (m := exec schedule (start es σ0)) in *. unfold all_returned in Hret.
  rewrite (pending_returned _ Hret), app_nil_r in Hperm.
  exists ds. split; [exact Hperm|].
  destruct (locked m); [|by destruct Hst].
  destruct Hst as (i & t & Hi & Hsec & _).
  assert (returned t = true) as Ht.
  { apply (proj1 (forallb_forall _ _) Hret), list_elem_of_In.
    by eapply list_elem_of_lookup_2. }
  by destruct t.
Qed.

(** The balance after [n] further additions of the same amount, each one
    exact. *)
Lemma add_repeat_balance user asset a da :
  decimal.NewFromString a = Some da → -8 <= decimal.exp da →
  ∀ n σ u,
    balance_of σ user asset
    = Some (string_of_list_ascii (decimal.string_ (decimal.mkDecimal u (-8)))) →
    balance_of (add_all (repeat (mkEntry user asset a) n) σ) user asset
    = Some (string_of_list_ascii
              (decimal.string_
                 (decimal.mkDecimal (u + Z.of_nat n * decimal.units da 8) (-8)))).
Proof.
  intros Ha He. induction n as [|n IH]; intros σ u Hbal.
  - cbn [repeat add_all fold_left]. rewrite Hbal. do 4 f_equal. lia.
  - cbn [repeat]. unfold add_all. cbn [fold_left].
    fold (add_all (repeat (mkEntry user asset a) n)
            (snd (AddEntry (mkEntry user asset a) σ))).
    set (e := mkEntry user asset a) in *.
    set (s := string_of_list_ascii (decimal.string_ (decimal.mkDecimal u (-8)))) in *.
    pose proof (NewFromString_string8 u) as Hs. fold s in Hs.
    pose proof (NewFromString_nonempty _ _ Hs) as Hne.
    assert (addDecimalStrings s a
            = Some (string_of_list_ascii
                      (decimal.string_
                         (decimal.mkDecimal (u + decimal.units da 8) (-8))))) as Hadd.
    { rewrite (addDecimalStrings_parsed _ _ _ _ Hs Ha).
      rewrite StringFixed_Add by (cbn; lia). do 4 f_equal.
      unfold decimal.units at 1. cbn [decimal.value decimal.exp].
      change (10 ^ (-8 + 8)) with 1. lia. }
    pose proof (AddEntry_fst e σ) as Hf. cbn [User Asset Amount e] in Hf.
    rewrite Hbal in Hf. destruct (decide (s = "")); [congruence|].
    rewrite Hadd in Hf.
    destruct (AddEntry_success e σ Hf) as (nb & Hnb & Hbal' & _).
    cbn [User Asset Amount e] in Hnb, Hbal'. rewrite Hbal in Hnb.
    destruct (decide (s = "")); [congruence|]. rewrite Hadd in Hnb.
    injection Hnb as <-.
    rewrite (IH _ _ Hbal'). do 4 f_equal. lia.
Qed.

(** The balance of an account without one after [n] additions of the same
    amount. *)
Lemma add_repeat_from_none user asset a da σ n :
  decimal.NewFromString a = Some da → -8 <= decimal.exp da →
  balance_of σ user asset = None → (0 < n)%nat →
  balance_of (add_all (repeat (mkEntry user asset a) n) σ) user asset
  = Some (decimal.StringFixed
            (decimal.mkDecimal (Z.of_nat n * decimal.value da) (decimal.exp da)) 8).
Proof.
  intros Ha He Hnone Hn. destruct n as [|n]; [lia|]. clear Hn.
  cbn [repeat]. unfold add_all. cbn [fold_left].
  fold (add_all (repeat (mkEntry user asset a) n)
          (snd (AddEntry (mkEntry user asset a) σ))).
  set (e := mkEntry user asset a) in *.
  assert (decimal.NewFromString "0" = Some (decimal.mkDecimal 0 0)) as Hzero
    by (vm_compute; reflexivity).
  assert (addDecimalStrings "0" a
          = Some (string_of_list_ascii
                    (decimal.string_ (decimal.mkDecimal (decimal.units da 8) (-8)))))
    as Hadd.
  { rewrite (addDecimalStrings_parsed _ _ _ _ Hzero Ha).
    rewrite StringFixed_Add by (cbn; lia). reflexivity. }
  pose proof (AddEntry_fst e σ) as Hf. cbn [User Asset Amount e] in Hf.
  rewrite Hnone, Hadd in Hf.
  destruct (AddEntry_success e σ Hf) as (nb & Hnb & Hbal & _).
  cbn [User Asset Amount e] in Hnb, Hbal. rewrite Hnone, Hadd in Hnb.
  injection Hnb as <-.
  pose proof (add_repeat_balance user asset a da Ha He n _ _ Hbal) as Hrep.
  fold e in Hrep. rewrite Hrep.
  unfold decimal.StringFixed. rewrite Round_exact by (cbn; lia).
  do 4 f_equal. unfold decimal.units. cbn [decimal.value decimal.exp]. lia.
Qed.

(** C9, as the code has it, on the interleaving model of the goroutines.
    [n] goroutines call [AddEntry] with the same amount, which parses as a
    decimal with at most eight fractional digits, on an account without a
    balance.  Whatever the schedule, once all of them have returned the
    store is the one [n] calls in a row produce, and the balance is the
    string [StringFixed(8)] prints for [n] times the amount: it reads back
    as exactly that number.  No update is lost. *)
Theorem concurrent_adds_exact σ user asset a da n schedule :
  balance_of σ user asset = None →
  decimal.NewFromString a = Some da →
  -8 <= decimal.exp da →
  (0 < n)%nat →
  all_returned (exec schedule (start (repeat (mkEntry user asset a) n) σ)) = true →
  let m := exec schedule (start (repeat (mkEntry user asset a) n) σ) in
  let total := decimal.mkDecimal (Z.of_nat n * decimal.value da) (decimal.exp da) in
  store m = add_all (repeat (mkEntry user asset a) n) σ
  ∧ balance_of (store m) user asset = Some (decimal.StringFixed total 8)
  ∧ ∃ r, decimal.NewFromString (decimal.StringFixed total 8) = Some r
         ∧ (decimal.to_Q r == inject_Z (Z.of_nat n) * decimal.to_Q da)%Q.
Proof.
  intros Hnone Ha He Hn Hret. cbv zeta.
  destruct (goroutines_linearizable _ _ _ Hret) as (ds & Hperm & Hstore & _).
  apply Permutation_repeat in Hperm. subst ds.
  split; [exact Hstore|]. split.
  - rewrite Hstore. by apply (add_repeat_from_none user asset a da).
  - unfold decimal.StringFixed. rewrite Round_exact by (cbn; lia).
    eexists. split; [apply NewFromString_string8|].
    rewrite to_Q_units by (cbn; lia).
    unfold decimal.to_Q. cbn [decimal.value decimal.exp].
    rewrite inject_Z_mult. ring.
Qed.

(** [concurrent_adds_exact] for two goroutines adding 1.0 that take turns:
    the second one finds the mutex held three times before it gets it. *)
Lemma concurrent_adds_exact_witness :
  balance_of
    (store (exec [0; 1; 0; 1; 0; 1; 0; 1; 1; 1; 1]%nat
              (start (repeat (mkEntry "user1" "BTC" "1.0") 2) (NewInMemoryLedger ∅))))
    "user1" "BTC"
  = Some (decimal.StringFixed (decimal.mkDecimal (Z.of_nat 2 * 10) (-1)) 8).
Proof.
  apply (concurrent_adds_exact (NewInMemoryLedger ∅) "user1" "BTC" "1.0"
           (decimal.mkDecimal 10 (-1)) 2 [0; 1; 0; 1; 0; 1; 0; 1; 1; 1; 1]%nat).
  - reflexivity.
  - vm_compute. reflexivity.
  - vm_compute. discriminate.
  - lia.
  - vm_compute. reflexivity.
Defined.

(** C9 as stated fails beyond eight fractional digits.  Two goroutines add
    0.000000004 each, one after the other: both return without error and
    the balance is 0.00000000, while twice the amount is 0.000000008, which
    prints as 0.00000001 with eight places. *)
Lemma concurrent_adds_round :
  let a := "0.000000004" in
  let m := exec [0; 0; 0; 0; 1; 1; 1; 1]%nat
             (start (repeat (mkEntry "user1" "BTC" a) 2) (NewInMemoryLedger ∅)) in
  threads m = [Returned None; Returned None]
  ∧ decimal.NewFromString a = Some (decimal.mkDecimal 4 (-9))
  ∧ balance_of (store m) "user1" "BTC" = Some "0.00000000"
  ∧ decimal.StringFixed (decimal.mkDecimal (2 * 4) (-9)) 8 = "0.00000001"
  ∧ balance_of (store m) "user1" "BTC"
    ≠ Some (decimal.StringFixed (decimal.mkDecimal (2 * 4) (-9)) 8).
Proof.
  cbv zeta. repeat split; try (vm_compute; reflexivity).
  vm_compute. discriminate.
Qed.

(** ** Further properties *)

(** The freshness check rejects every request whose timestamp differs from
    the clock by more than the tolerance, whatever its signature, as long
    as the timestamp is less than 2^63 nanoseconds ahead of the clock and
    the tolerance is below the largest duration. *)
Theorem stale_timestamp_rejected v clk r body (nonces : gmap string Z) timestamp :
  X_Timestamp r ≠ "" → X_Nonce r ≠ "" → X_Signature r ≠ "" →
  strconv.ParseInt (list_ascii_of_string (X_Timestamp r)) 64 = Some timestamp →
  time.minDuration < at_validate clk - time.Unix timestamp →
  timestampTolerance v < time.maxDuration →
  timestampTolerance v < Z.abs (at_validate clk - time.Unix timestamp) →
  ValidateRequest v clk r body nonces = (Some TimestampOutOfTolerance, nonces).
Proof.
  intros Ht Hn Hs Hp Hmin Hmax Htol. unfold ValidateRequest.
  destruct (decide (X_Timestamp r = "")); [done|].
  destruct (decide (X_Nonce r = "")); [done|].
  destruct (decide (X_Signature r = "")); [done|].
  rewrite Hp.
  assert (out_of_tolerance v (at_validate clk) (time.Unix timestamp) = true) as ->;
    [|reflexivity].
  rewrite out_of_tolerance_abs by time_lia.
  apply Z.ltb_lt. revert Hmin Hmax Htol.
  generalize (at_validate clk) (time.Unix timestamp) (timestampTolerance v).
  intros now t tol. time_lia.
Qed.

(** [stale_timestamp_rejected] for a timestamp ten minutes ahead of the
    clock, with a five-minute tolerance and a signature that is right. *)
Lemma stale_timestamp_rejected_witness :
  let v := mkValidator "test-secret-key" (5 * time.Minute) in
  ValidateRequest v (instant 1700000000) (signed v "1700000600" "n5" []) [] ∅
  = (Some TimestampOutOfTolerance, ∅).
Proof.
  apply (stale_timestamp_rejected _ _ _ _ _ 1700000600);
    vm_compute; first [reflexivity | discriminate].
Defined.

(** [AddEntry] commits or preserves what can be observed.  Either it
    returns no error, has appended the entry once and stores a balance for
    the account; or it returns the invalid-amount error, the audit trail and
    every user's balances are as before, and the whole state is as before
    when the user already had a map. *)
Theorem AddEntry_commits_or_preserves entry σ :
  (fst (AddEntry entry σ) = None
   ∧ entries (snd (AddEntry entry σ)) = entries σ ++ [entry]
   ∧ is_Some (balance_of (snd (AddEntry entry σ)) (User entry) (Asset entry)))
  ∨ (fst (AddEntry entry σ) = Some InvalidAmountFormat
     ∧ entries (snd (AddEntry entry σ)) = entries σ
     ∧ (∀ user, user_balances (snd (AddEntry entry σ)) user = user_balances σ user)
     ∧ (is_Some (balances σ !! User entry) → snd (AddEntry entry σ) = σ)).
Proof.
  destruct (fst (AddEntry entry σ)) as [[]|] eqn:E.
  - right. split; [reflexivity|]. by apply (AddEntry_error entry σ InvalidAmountFormat).
  - left. destruct (AddEntry_success entry σ E) as (nb & _ & Hb & He). eauto.
Qed.

(** Goroutines calling [AddEntry] with any entries: once all of them have
    returned, the store is the one the same calls produce when made one
    after the other in some order, and the mutex is free. *)
Theorem goroutines_serializable es σ schedule :
  all_returned (exec schedule (start es σ)) = true →
  ∃ ds, Permutation ds es
        ∧ store (exec schedule (start es σ)) = add_all ds σ
        ∧ locked (exec schedule (start es σ)) = false.
Proof. apply goroutines_linearizable. Qed.

(** [goroutines_serializable] for two goroutines with different users that
    take turns. *)
Lemma goroutines_serializable_witness :
  ∃ ds,
    Permutation ds [mkEntry "user1" "BTC" "1.5"; mkEntry "user2" "ETH" "-2"]
    ∧ store (exec [1; 0; 1; 0; 1; 0; 1; 0; 0; 0; 0]%nat
               (start [mkEntry "user1" "BTC" "1.5"; mkEntry "user2" "ETH" "-2"]
                  (NewInMemoryLedger ∅)))
      = add_all ds (NewInMemoryLedger ∅)
    ∧ locked (exec [1; 0; 1; 0; 1; 0; 1; 0; 0; 0; 0]%nat
                (start [mkEntry "user1" "BTC" "1.5"; mkEntry "user2" "ETH" "-2"]
                   (NewInMemoryLedger ∅)))
      = false.
Proof.
  apply (goroutines_serializable
           [mkEntry "user1" "BTC" "1.5"; mkEntry "user2" "ETH" "-2"]
           (NewInMemoryLedger ∅) [1; 0; 1; 0; 1; 0; 1; 0; 0; 0; 0]%nat).
  vm_compute. reflexivity.
Defined.

(** * More of the service

    ** The signature an accepted request carries *)

Lemma be_bytes_length w x : length (sha256.be_bytes w x) = w.
Proof. unfold sha256.be_bytes. by rewrite length_map, length_rev, length_seq. Qed.

Lemma Sum256_length msg : length (sha256.Sum256 msg) = 32%nat.
Proof.
  unfold sha256.Sum256, sha256.Sum256_Z. rewrite length_map.
  cbn [flat_map]. rewrite !length_app, !be_bytes_length. reflexivity.
Qed.

Lemma hmac_Sum_length key message : length (hmac.Sum key message) = 32%nat.
Proof. apply Sum256_length. Qed.

Lemma EncodeToString_length src :
  String.length (hex.EncodeToString src) = (2 * length src)%nat.
Proof. induction src as [|b src IH]; cbn [hex.EncodeToString String.length length]; lia. Qed.

Lemma EncodeToString_lower_hex src :
  forallb formats.is_lower_hex (list_ascii_of_string (hex.EncodeToString src)) = true.
Proof.
  induction src as [|b src IH]; [reflexivity|].
  cbn [hex.EncodeToString list_ascii_of_string forallb].
  rewrite IH, andb_true_r. destruct b; reflexivity.
Qed.

Lemma EncodeToString_inj a : ∀ b, hex.EncodeToString a = hex.EncodeToString b → a = b.
Proof.
  induction a as [|x a IH]; intros [|y b] H; cbn [hex.EncodeToString] in H;
    try discriminate; [reflexivity|].
  injection H as H1 H2 H3. f_equal; [|by apply IH].
  clear - H1 H2. revert H1 H2. destruct x, y; vm_compute; congruence.
Qed.

(** A request that is accepted carries exactly the signature the validator
    computes: the 64 lower-case hexadecimal digits of the 32-byte MAC.  The
    comparison is on the strings, so the same MAC written with upper-case
    digits, or with anything before or after it, is refused. *)
Theorem accepted_signature_format v clk r body nonces :
  fst (ValidateRequest v clk r body nonces) = None →
  computeSignature v (X_Timestamp r) (X_Nonce r) body = inr (X_Signature r)
  ∧ String.length (X_Signature r) = 64%nat
  ∧ forallb formats.is_lower_hex (list_ascii_of_string (X_Signature r)) = true.
Proof.
  intros H. rewrite ValidateRequest_first_failure in H.
  apply first_failure_None in H. unfold check_order in H.
  rewrite !Forall_cons in H. destruct H as (_ & _ & _ & _ & _ & _ & H & _).
  cbn [passes] in H. apply String.eqb_eq in H.
  rewrite computeSignature_expected, H. split; [reflexivity|].
  unfold expected_signature.
  rewrite EncodeToString_length, hmac_Sum_length. split; [reflexivity|].
  apply EncodeToString_lower_hex.
Qed.

(** [accepted_signature_format] for a signed request on an empty store. *)
Lemma accepted_signature_format_witness :
  let v := mkValidator "test-secret-key" (5 * time.Minute) in
  let r := signed v "1700000000" "n1" (bytes_of "body") in
  String.length (X_Signature r) = 64%nat.
Proof.
  cbv zeta.
  apply (accepted_signature_format (mkValidator "test-secret-key" (5 * time.Minute))
           (instant 1700000000) _ (bytes_of "body") ∅).
  vm_compute. reflexivity.
Defined.

(** ** The signed message *)

Lemma split_at_first {A} (x : A) l1 : ∀ l2 r1 r2,
  x ∉ l1 → x ∉ l2 → l1 ++ x :: r1 = l2 ++ x :: r2 → l1 = l2 ∧ r1 = r2.
Proof.
  induction l1 as [|a l1 IH]; intros [|b l2] r1 r2 H1 H2 E; cbn in E.
  - by injection E.
  - injection E as -> _. exfalso. apply H2. left.
  - injection E as -> _. exfalso. apply H1. left.
  - injection E as -> E. rewrite not_elem_of_cons in H1, H2.
    destruct (IH l2 r1 r2) as [-> ->]; [tauto|tauto|exact E|done].
Qed.

Lemma single_line_spec s : formats.single_line s = true ↔ x0a ∉ bytes_of s.
Proof.
  unfold formats.single_line. generalize (bytes_of s). intros l.
  induction l as [|b l IH]; cbn [forallb].
  - split; [intros _; apply not_elem_of_nil|reflexivity].
  - rewrite andb_true_iff, IH, not_elem_of_cons, negb_true_iff.
    assert (Byte.eqb b x0a = false ↔ x0a ≠ b) as ->; [|reflexivity].
    destruct (Byte.eqb b x0a) eqn:E.
    + apply Byte.byte_dec_bl in E. split; [discriminate|congruence].
    + split; [|reflexivity]. intros _ Hb. subst b. vm_compute in E. discriminate.
Qed.

Lemma parse_digits_all_digits l : ∀ acc n,
  strconv.parse_digits acc l = Some n → Forall (fun c => strconv.is_digit c = true) l.
Proof.
  induction l as [|c l IH]; intros acc n H; [constructor|].
  cbn [strconv.parse_digits] in H. destruct (strconv.is_digit c) eqn:E; [|discriminate].
  constructor; [exact E|]. by eapply IH.
Qed.

Lemma ParseUint_all_digits l bitSize n :
  strconv.ParseUint l bitSize = Some n → Forall (fun c => strconv.is_digit c = true) l.
Proof.
  unfold strconv.ParseUint. destruct l as [|c l]; [discriminate|].
  destruct (strconv.parse_digits 0 (c :: l)) as [un|] eqn:E; [|discriminate].
  intros _. by eapply parse_digits_all_digits.
Qed.

Lemma digit_no_line_feed c :
  strconv.is_digit c = true → negb (Byte.eqb (byte_of_ascii c) x0a) = true.
Proof.
  destruct c as [[] [] [] [] [] [] [] []]; vm_compute; congruence.
Qed.

Lemma digits_single_line l :
  Forall (fun c => strconv.is_digit c = true) l →
  forallb (fun b => negb (Byte.eqb b x0a)) (map byte_of_ascii l) = true.
Proof.
  induction 1 as [|c l H _ IH]; [reflexivity|].
  cbn [map forallb]. by rewrite digit_no_line_feed, IH.
Qed.

Lemma ParseInt_single_line t bitSize n :
  strconv.ParseInt (list_ascii_of_string t) bitSize = Some n →
  formats.single_line t = true.
Proof.
  unfold formats.single_line, bytes_of, list_byte_of_string, strconv.ParseInt.
  destruct (list_ascii_of_string t) as [|c rest]; [discriminate|].
  destruct (strconv.ParseUint _ bitSize) as [un|] eqn:E; [|discriminate].
  intros _. apply ParseUint_all_digits in E.
  destruct (Ascii.eqb c "+" || Ascii.eqb c "-") eqn:Es.
  - cbn [map forallb]. rewrite (digits_single_line _ E), andb_true_r.
    apply orb_true_iff in Es as [Es|Es]; apply Ascii.eqb_eq in Es; by subst c.
  - by apply digits_single_line.
Qed.

Lemma computeSignature_signing_input v timestamp nonce body :
  computeSignature v timestamp nonce body
  = inr (hex.EncodeToString
           (hmac.Sum (bytes_of (secret v)) (formats.signing_input timestamp nonce body))).
Proof.
  unfold computeSignature, formats.signing_input. do 3 f_equal.
  rewrite !bytes_of_app. unfold bytes_of at 5.
  rewrite list_byte_of_string_of_list_byte. reflexivity.
Qed.

(** What is signed determines the request.  The MAC is computed over the
    timestamp, the nonce and the body joined by line feeds.  For timestamps
    that [ParseInt] reads and nonces without a line feed, two requests with
    the same signed message have the same timestamp, nonce and body. *)
Theorem signed_message_unambiguous v t1 n1 b1 t2 n2 b2 :
  is_Some (strconv.ParseInt (list_ascii_of_string t1) 64) →
  is_Some (strconv.ParseInt (list_ascii_of_string t2) 64) →
  formats.single_line n1 = true →
  formats.single_line n2 = true →
  formats.signing_input t1 n1 b1 = formats.signing_input t2 n2 b2 →
  (t1 = t2 ∧ n1 = n2 ∧ b1 = b2)
  ∧ computeSignature v t1 n1 b1
    = inr (hex.EncodeToString
             (hmac.Sum (bytes_of (secret v)) (formats.signing_input t1 n1 b1))).
Proof.
  intros [x1 H1] [x2 H2] Hn1 Hn2 E.
  split; [|apply computeSignature_signing_input].
  apply ParseInt_single_line in H1, H2.
  rewrite single_line_spec in H1, H2, Hn1, Hn2.
  unfold formats.signing_input in E. cbn [app] in E.
  apply split_at_first in E as [Et E]; [|assumption..].
  apply split_at_first in E as [En E]; [|assumption..].
  apply bytes_of_inj in Et, En. auto.
Qed.

(** [signed_message_unambiguous] for a request compared with itself. *)
Lemma signed_message_unambiguous_witness :
  ("1700000000" = "1700000000" ∧ "n1" = "n1" ∧ bytes_of "body" = bytes_of "body")
  ∧ computeSignature (mkValidator "test-secret-key" (5 * time.Minute))
      "1700000000" "n1" (bytes_of "body")
    = inr (hex.EncodeToString
             (hmac.Sum (bytes_of "test-secret-key")
                (formats.signing_input "1700000000" "n1" (bytes_of "body")))).
Proof.
  apply (signed_message_unambiguous
           (mkValidator "test-secret-key" (5 * time.Minute))
           "1700000000" "n1" (bytes_of "body") "1700000000" "n1" (bytes_of "body")).
  - vm_compute. eauto.
  - vm_compute. eauto.
  - reflexivity.
  - reflexivity.
  - reflexivity.
Defined.

(** The fields of the signed message are not delimited beyond the line
    feeds: a nonce that holds a line feed gives the same signature as the
    nonce cut there, with the rest of it moved in front of the body. *)
Theorem line_feed_in_nonce_moves_boundary v timestamp nonce rest body :
  computeSignature v timestamp (String.append nonce (String.append LF rest)) body
  = computeSignature v timestamp nonce (bytes_of rest ++ x0a :: body).
Proof.
  rewrite !computeSignature_signing_input. do 3 f_equal.
  unfold formats.signing_input. rewrite !bytes_of_app.
  change (bytes_of LF) with [x0a]. by rewrite <- !app_assoc.
Qed.

(** ** What a call does to the nonce store *)

Lemma IsValid_cases clk n t (nonces : gmap string Z) :
  IsValid clk n t nonces = (false, nonces)
  ∨ IsValid clk n t nonces = (true, snd (record_nonce clk n t (delete n nonces))).
Proof.
  unfold IsValid. destruct (nonces !! n) as [t0|] eqn:E.
  - destruct (time.Hour <? time.Sub (at_lookup clk) t0); [right|by left].
    reflexivity.
  - right. by rewrite delete_id.
Qed.

Lemma record_nonce_from clk n t (m : gmap string Z) n' t' :
  snd (record_nonce clk n t m) !! n' = Some t' →
  (n' = n ∧ t' = t) ∨ (n' ≠ n ∧ m !! n' = Some t').
Proof.
  unfold record_nonce. cbn [snd]. intros H.
  assert (<[n := t]> m !! n' = Some t') as H'.
  { destruct (10000 <? Z.of_nat (size (<[n := t]> m))); [|exact H].
    by apply cleanup_lookup in H as [H _]. }
  apply lookup_insert_Some in H' as [[-> ->]|[? ?]]; auto.
Qed.

Lemma record_nonce_size clk n t (m : gmap string Z) :
  (size (snd (record_nonce clk n t m)) ≤ S (size m))%nat.
Proof.
  unfold record_nonce. cbn [snd].
  assert (size (<[n := t]> m) ≤ S (size m))%nat as Hi.
  { rewrite map_size_insert. destruct (m !! n); cbn; lia. }
  destruct (10000 <? Z.of_nat (size (<[n := t]> m))); [|exact Hi].
  unfold cleanup. etrans; [apply map_size_filter|exact Hi].
Qed.

Lemma record_nonce_swept clk n t (m : gmap string Z) :
  Z.of_nat (size (snd (record_nonce clk n t m))) <= 10000
  ∨ ∀ n' t', snd (record_nonce clk n t m) !! n' = Some t' →
             ¬ time.Hour < time.Sub (at_cleanup clk) t'.
Proof.
  unfold record_nonce. cbn [snd].
  destruct (Z.ltb_spec 10000 (Z.of_nat (size (<[n := t]> m)))); [right|left; lia].
  intros n' t' H'. by apply cleanup_lookup in H' as [_ H'].
Qed.

(** What [ValidateRequest] does to the nonce store.  Whatever the request:
    an entry of the store afterwards was there before or is the request's
    own nonce with the request's time; the store grows by at most one
    entry; an error other than the invalid-signature one leaves the store
    as it was; and when the store was changed it either holds at most
    10000 entries or holds no entry that the sweep found more than an hour
    old. *)
Theorem nonce_store_footprint v clk r body (nonces : gmap string Z) :
  (∀ n t, snd (ValidateRequest v clk r body nonces) !! n = Some t →
          nonces !! n = Some t ∨ (n = X_Nonce r ∧ t = request_time r))
  ∧ (size (snd (ValidateRequest v clk r body nonces)) ≤ S (size nonces))%nat
  ∧ (∀ err, fst (ValidateRequest v clk r body nonces) = Some err →
            err ≠ InvalidSignature →
            snd (ValidateRequest v clk r body nonces) = nonces)
  ∧ (snd (ValidateRequest v clk r body nonces) = nonces
     ∨ Z.of_nat (size (snd (ValidateRequest v clk r body nonces))) <= 10000
     ∨ ∀ n t, snd (ValidateRequest v clk r body nonces) !! n = Some t →
              ¬ time.Hour < time.Sub (at_cleanup clk) t).
Proof.
  rewrite ValidateRequest_store, ValidateRequest_first_failure.
  destruct (reaches v clk r body nonces Unseen) eqn:Hr.
  - rewrite (first_failure_from_Unseen _ _ _ _ _ Hr). cbn [passes].
    destruct (IsValid_cases clk (X_Nonce r) (request_time r) nonces) as [E|E];
      rewrite E; cbn [fst snd].
    + repeat split; first [lia | auto].
    + set (m := delete (X_Nonce r) nonces).
      assert (∀ n t, m !! n = Some t → nonces !! n = Some t) as Hm.
      { intros n t H. by apply lookup_delete_Some in H as [_ H]. }
      assert (size m ≤ size nonces)%nat as Hs.
      { unfold m. rewrite map_size_delete. destruct (nonces !! X_Nonce r); cbn; lia. }
      split; [|split; [|split]].
      * intros n t H. apply record_nonce_from in H as [[-> ->]|[_ H]]; auto.
      * pose proof (record_nonce_size clk (X_Nonce r) (request_time r) m). lia.
      * intros err H Hne. exfalso.
        destruct (String.eqb (X_Signature r) (expected_signature v r body));
          [discriminate|]. congruence.
      * right. apply record_nonce_swept.
  - repeat split; first [lia | auto].
Qed.

(** ** The balances the ledger stores *)

Lemma rescale_exp d e : decimal.exp (decimal.rescale d e) = e.
Proof.
  unfold decimal.rescale. destruct (Z.eqb_spec (decimal.exp d) e); [assumption|].
  destruct (decimal.exp d <? e); reflexivity.
Qed.

Lemma Round_exp d : decimal.exp (decimal.Round d 8) = -8.
Proof.
  unfold decimal.Round. destruct (Z.eqb_spec (decimal.exp d) (- (8))); [lia|].
  cbn [decimal.exp]. rewrite rescale_exp. lia.
Qed.

Lemma fixed8_eq u :
  formats.fixed8 u
  = string_of_list_ascii (decimal.string_ (decimal.mkDecimal u (-8))).
Proof. reflexivity. Qed.

Lemma StringFixed_fixed8 d :
  decimal.StringFixed d 8 = formats.fixed8 (decimal.value (decimal.Round d 8)).
Proof.
  rewrite fixed8_eq. unfold decimal.StringFixed.
  pose proof (Round_exp d) as H. destruct (decimal.Round d 8) as [u e].
  cbn [decimal.exp decimal.value] in *. by subst e.
Qed.

Lemma NewFromString_fixed8 u :
  decimal.NewFromString (formats.fixed8 u) = Some (decimal.mkDecimal u (-8)).
Proof. rewrite fixed8_eq. apply NewFromString_string8. Qed.

Lemma amount_read_fixed8 u : formats.amount_read (formats.fixed8 u) = formats.fixed8 u.
Proof.
  unfold formats.amount_read. destruct (decide (formats.fixed8 u = "")) as [E|]; [|done].
  by destruct (NewFromString_nonempty _ _ (NewFromString_fixed8 u)).
Qed.

Lemma addDecimalStrings_read a b :
  addDecimalStrings a b
  = match decimal.NewFromString (formats.amount_read a) with
    | None => None
    | Some aDec =>
        match decimal.NewFromString (formats.amount_read b) with
        | None => None
        | Some bDec => Some (decimal.StringFixed (decimal.Add aDec bDec) 8)
        end
    end.
Proof. reflexivity. Qed.

Lemma addDecimalStrings_fixed8 a b s :
  addDecimalStrings a b = Some s → ∃ u, s = formats.fixed8 u.
Proof.
  rewrite addDecimalStrings_read.
  destruct (decimal.NewFromString _) as [da|]; [|discriminate].
  destruct (decimal.NewFromString _) as [db|]; [|discriminate].
  intros [= <-]. rewrite StringFixed_fixed8. eauto.
Qed.

(** [AddEntry] leaves the balance of every other account as it is. *)
Lemma AddEntry_other_account entry σ user asset :
  well_formed σ → User entry ≠ user ∨ Asset entry ≠ asset →
  balance_of (snd (AddEntry entry σ)) user asset = balance_of σ user asset.
Proof.
  intros (Hdom & Hinj & _) Hne. rewrite AddEntry_eq. unfold balance_of.
  destruct (balances σ !! User entry) as [l|] eqn:E.
  - destruct (addDecimalStrings _ _) as [nb|]; [|reflexivity].
    cbn [snd]. unfold user_balances. cbn [balances heap].
    destruct (balances σ !! user) as [l'|] eqn:Eu; [|reflexivity].
    destruct (decide (l' = l)) as [->|Hl].
    + assert (user = User entry) as -> by eauto.
      rewrite lookup_total_insert_eq, lookup_insert_ne; [reflexivity|].
      destruct Hne; congruence.
    + by rewrite lookup_total_insert_ne.
  - cbv zeta. pose proof (fresh_heap (heap σ)) as Hf.
    set (l := fresh (dom (heap σ))) in *.
    assert (∀ m es,
              user_balances (mkState (<[l := m]> (heap σ))
                               (<[User entry := l]> (balances σ)) es) user !! asset
              = (if decide (user = User entry) then m !! asset
                 else user_balances σ user !! asset)) as Hub.
    { intros m es. unfold user_balances. cbn [balances heap].
      destruct (decide (user = User entry)) as [->|Hu].
      - by rewrite lookup_insert_eq, lookup_total_insert_eq.
      - rewrite lookup_insert_ne by done.
        destruct (balances σ !! user) as [l'|] eqn:Eu; [|reflexivity].
        rewrite lookup_total_insert_ne; [reflexivity|]. intros <-.
        destruct (Hdom user l Eu) as [? ?]. congruence. }
    destruct (addDecimalStrings _ _) as [nb|]; cbn [snd]; rewrite Hub;
      destruct (decide (user = User entry)) as [->|Hu]; try reflexivity.
    + unfold user_balances. rewrite E, lookup_empty.
      apply lookup_singleton_ne. destruct Hne; congruence.
    + unfold user_balances. by rewrite E, !lookup_empty.
Qed.

Lemma normalised_new h : formats.normalised (NewInMemoryLedger h).
Proof. intros user asset b. unfold balance_of, user_balances. cbn. by rewrite !lookup_empty. Qed.

Lemma AddEntry_normalised entry σ :
  well_formed σ → formats.normalised σ → formats.normalised (snd (AddEntry entry σ)).
Proof.
  intros Hwf Hn user asset b.
  destruct (decide (User entry = user)) as [<-|Hu];
    [destruct (decide (Asset entry = asset)) as [<-|Ha]|].
  - destruct (fst (AddEntry entry σ)) as [err|] eqn:E.
    + destruct (AddEntry_error _ _ _ E) as (_ & Hub & _).
      unfold balance_of. rewrite Hub. apply Hn.
    + destruct (AddEntry_success _ _ E) as (nb & Hadd & -> & _).
      intros [= <-]. by eapply addDecimalStrings_fixed8.
  - rewrite AddEntry_other_account by auto. apply Hn.
  - rewrite AddEntry_other_account by auto. apply Hn.
Qed.

Lemma add_all_normalised es : ∀ σ,
  well_formed σ → formats.normalised σ → formats.normalised (add_all es σ).
Proof.
  induction es as [|e es IH]; intros σ Hwf Hn; [exact Hn|].
  unfold add_all. cbn [fold_left].
  apply IH; [by apply AddEntry_well_formed|by apply AddEntry_normalised].
Qed.

(** The balance [AddEntry] reads parses, when the stored balances are
    normalised. *)
Lemma current_balance_parses σ user asset :
  formats.normalised σ →
  ∃ d, decimal.NewFromString
         (formats.amount_read
            (match balance_of σ user asset with
             | Some b => if decide (b = "") then "0" else b
             | None => "0"
             end)) = Some d
       ∧ -8 <= decimal.exp d
       ∧ (balance_of σ user asset = None → decimal.units d 8 = 0)
       ∧ (∀ u, balance_of σ user asset = Some (formats.fixed8 u) → decimal.units d 8 = u).
Proof.
  intros Hn. destruct (balance_of σ user asset) as [b|] eqn:E.
  - destruct (Hn _ _ _ E) as [u ->].
    pose proof (amount_read_fixed8 u) as Hr. unfold formats.amount_read in Hr.
    destruct (decide (formats.fixed8 u = "")) as [E0|_].
    { by destruct (NewFromString_nonempty _ _ (NewFromString_fixed8 u)). }
    rewrite amount_read_fixed8, NewFromString_fixed8.
    eexists. split; [reflexivity|]. cbn [decimal.exp]. split; [lia|].
    split; [discriminate|]. intros u' [= Hu].
    pose proof (NewFromString_fixed8 u') as H'. rewrite <- Hu, NewFromString_fixed8 in H'.
    injection H' as ->. unfold decimal.units. cbn. lia.
  - exists (decimal.mkDecimal 0 0). split; [reflexivity|].
    split; [cbn; lia|]. split; [reflexivity|discriminate].
Qed.

Lemma AddEntry_fst_normalised entry σ :
  formats.normalised σ →
  fst (AddEntry entry σ)
  = if formats.accepts_amount entry then None else Some InvalidAmountFormat.
Proof.
  intros Hn. rewrite AddEntry_fst, addDecimalStrings_read.
  destruct (current_balance_parses σ (User entry) (Asset entry) Hn) as (d & -> & _).
  unfold formats.accepts_amount.
  by destruct (decimal.NewFromString (formats.amount_read (Amount entry))).
Qed.

Lemma reachable_well_formed es h : well_formed (add_all es (NewInMemoryLedger h)).
Proof. apply add_all_well_formed, well_formed_new. Qed.

Lemma reachable_normalised es h : formats.normalised (add_all es (NewInMemoryLedger h)).
Proof. apply add_all_normalised; [apply well_formed_new|apply normalised_new]. Qed.

Lemma account_total_app user asset l1 l2 :
  formats.account_total user asset (l1 ++ l2)
  = formats.account_total user asset l1 + formats.account_total user asset l2.
Proof.
  unfold formats.account_total.
  induction l1 as [|e l1 IH]; cbn [app List.filter map fold_right]; [lia|].
  destruct (formats.for_account user asset e); cbn [map fold_right]; lia.
Qed.

Lemma account_total_perm user asset l1 l2 :
  Permutation l1 l2 →
  formats.account_total user asset l1 = formats.account_total user asset l2.
Proof.
  unfold formats.account_total.
  induction 1 as [|e l1 l2 _ IH|e1 e2 l|l1 l2 l3 _ IH1 _ IH2];
    cbn [List.filter map fold_right]; [reflexivity| | |congruence].
  - destruct (formats.for_account user asset e); cbn [map fold_right]; lia.
  - destruct (formats.for_account user asset e1), (formats.for_account user asset e2);
      cbn [map fold_right]; lia.
Qed.

Lemma existsb_perm {A} (p : A → bool) l1 l2 :
  Permutation l1 l2 → existsb p l1 = existsb p l2.
Proof.
  induction 1 as [|e l1 l2 _ IH|e1 e2 l|l1 l2 l3 _ IH1 _ IH2];
    cbn [existsb]; [reflexivity|by rewrite IH| |congruence].
  by destruct (p e1), (p e2).
Qed.

Lemma forallb_perm {A} (p : A → bool) l1 l2 :
  Permutation l1 l2 → forallb p l1 = forallb p l2.
Proof.
  induction 1 as [|e l1 l2 _ IH|e1 e2 l|l1 l2 l3 _ IH1 _ IH2];
    cbn [forallb]; [reflexivity|by rewrite IH| |congruence].
  by destruct (p e1), (p e2).
Qed.

Lemma for_account_spec user asset e :
  formats.for_account user asset e = true ↔ User e = user ∧ Asset e = asset.
Proof. unfold formats.for_account. by rewrite andb_true_iff, !String.eqb_eq. Qed.

Lemma for_account_false user asset e :
  formats.for_account user asset e = false → User e ≠ user ∨ Asset e ≠ asset.
Proof.
  unfold formats.for_account. rewrite andb_false_iff, !String.eqb_neq. tauto.
Qed.

(** Without an accepted entry for the account the total is zero. *)
Lemma account_total_none user asset es :
  existsb (fun e => formats.accepts_amount e && formats.for_account user asset e) es
  = false →
  formats.account_total user asset es = 0.
Proof.
  unfold formats.account_total.
  induction es as [|e es IH]; cbn [existsb List.filter map fold_right]; [reflexivity|].
  rewrite orb_false_iff. intros [He Hes].
  destruct (formats.for_account user asset e); cbn [map fold_right]; [|by apply IH].
  rewrite andb_true_r in He. rewrite (IH Hes).
  unfold formats.units_of, formats.accepts_amount in *.
  by destruct (decimal.NewFromString _).
Qed.

(** The balance after a sequence of calls whose amounts have at most eight
    fractional digits: the exact sum of the accepted amounts for the
    account, and no balance without one. *)
Lemma add_all_total es h user asset :
  forallb formats.precise es = true →
  balance_of (add_all es (NewInMemoryLedger h)) user asset
  = if existsb (fun e => formats.accepts_amount e && formats.for_account user asset e) es
    then Some (formats.fixed8 (formats.account_total user asset es))
    else None.
Proof.
  induction es as [|e ds IH] using rev_ind; intros Hp.
  { unfold balance_of, user_balances. cbn. by rewrite lookup_empty. }
  rewrite forallb_app in Hp. cbn [forallb] in Hp.
  apply andb_true_iff in Hp as [Hds He]. rewrite andb_true_r in He.
  specialize (IH Hds). rewrite add_all_snoc, existsb_app, account_total_app.
  cbn [existsb]. rewrite orb_false_r.
  pose proof (reachable_well_formed ds h) as Hwf.
  pose proof (reachable_normalised ds h) as Hn.
  set (σ := add_all ds (NewInMemoryLedger h)) in *.
  assert (formats.account_total user asset [e]
          = if formats.for_account user asset e then formats.units_of e else 0) as ->.
  { unfold formats.account_total. cbn [List.filter].
    destruct (formats.for_account user asset e); cbn [map fold_right]; lia. }
  destruct (formats.for_account user asset e) eqn:Ef.
  2:{ rewrite AddEntry_other_account by (by apply for_account_false || exact Hwf).
      by rewrite andb_false_r, orb_false_r, Z.add_0_r. }
  apply for_account_spec in Ef as [<- <-]. rewrite andb_true_r.
  pose proof (AddEntry_fst_normalised e σ Hn) as Hfst.
  destruct (formats.accepts_amount e) eqn:Ea.
  - rewrite orb_true_r.
    destruct (AddEntry_success e σ Hfst) as (nb & Hadd & -> & _). f_equal.
    rewrite addDecimalStrings_read in Hadd.
    destruct (current_balance_parses σ (User e) (Asset e) Hn)
      as (dc & Hdc & Hexp & Hnone & Hsome).
    rewrite Hdc in Hadd. unfold formats.units_of.
    unfold formats.accepts_amount in Ea. unfold formats.precise in He.
    destruct (decimal.NewFromString (formats.amount_read (Amount e))) as [d|];
      [|discriminate].
    apply Z.leb_le in He. injection Hadd as <-.
    rewrite StringFixed_Add, <- fixed8_eq by assumption. f_equal. f_equal.
    destruct (existsb _ ds) eqn:Ex.
    + by apply Hsome.
    + rewrite (account_total_none _ _ _ Ex). by apply Hnone.
  - rewrite orb_false_r.
    destruct (AddEntry_error e σ _ Hfst) as (_ & Hub & _).
    unfold balance_of in *. rewrite Hub, IH.
    unfold formats.units_of. unfold formats.accepts_amount in Ea.
    destruct (decimal.NewFromString _); [discriminate|]. by rewrite Z.add_0_r.
Qed.

(** Every balance the ledger stores, after any sequence of calls on a new
    ledger, is a fixed-point string with eight fractional digits that
    [NewFromString] reads back as the same number of units of [10 ^ -8]. *)
Theorem stored_balance_normal_form es h user asset balance :
  balance_of (add_all es (NewInMemoryLedger h)) user asset = Some balance →
  ∃ u, balance = decimal.StringFixed (decimal.mkDecimal u (-8)) 8
       ∧ decimal.NewFromString balance = Some (decimal.mkDecimal u (-8))
       ∧ fraction_digits balance = Some 8%nat.
Proof.
  intros H. destruct (reachable_normalised es h _ _ _ H) as [u ->].
  exists u. split; [reflexivity|]. split; [apply NewFromString_fixed8|].
  rewrite fixed8_eq. apply fraction_digits_string8.
Qed.

(** [stored_balance_normal_form] for a ledger with one entry. *)
Lemma stored_balance_normal_form_witness :
  ∃ u, "100.50000000" = decimal.StringFixed (decimal.mkDecimal u (-8)) 8
       ∧ decimal.NewFromString "100.50000000" = Some (decimal.mkDecimal u (-8))
       ∧ fraction_digits "100.50000000" = Some 8%nat.
Proof.
  apply (stored_balance_normal_form [mkEntry "user1" "BTC" "100.5"] ∅ "user1" "BTC").
  vm_compute. reflexivity.
Defined.

(** On a ledger reached from a new one by any calls, [AddEntry] fails
    exactly when the amount of the entry (zero for the empty string) does
    not parse as a decimal: the stored balance never makes it fail, and it
    fails for nothing else. *)
Theorem AddEntry_rejects_by_amount es h entry :
  (fst (AddEntry entry (add_all es (NewInMemoryLedger h))) = None
   ↔ is_Some (decimal.NewFromString
                (if decide (Amount entry = "") then "0" else Amount entry)))
  ∧ (fst (AddEntry entry (add_all es (NewInMemoryLedger h))) = Some InvalidAmountFormat
     ↔ decimal.NewFromString
         (if decide (Amount entry = "") then "0" else Amount entry) = None).
Proof.
  rewrite (AddEntry_fst_normalised entry _ (reachable_normalised es h)).
  unfold formats.accepts_amount, formats.amount_read.
  destruct (decimal.NewFromString _) as [d|]; split; split;
    try discriminate; try reflexivity; eauto.
  intros [? ?]. discriminate.
Qed.

Lemma reachable_entries es h :
  entries (add_all es (NewInMemoryLedger h)) = List.filter formats.accepts_amount es.
Proof.
  induction es as [|e ds IH] using rev_ind; [reflexivity|].
  rewrite add_all_snoc, List.filter_app. cbn [List.filter].
  pose proof (AddEntry_fst_normalised e _ (reachable_normalised ds h)) as Hfst.
  destruct (formats.accepts_amount e).
  - destruct (AddEntry_success _ _ Hfst) as (nb & _ & _ & ->). by rewrite IH.
  - destruct (AddEntry_error _ _ _ Hfst) as (-> & _). by rewrite IH, app_nil_r.
Qed.

Lemma reachable_balance es h user asset :
  is_Some (balance_of (add_all es (NewInMemoryLedger h)) user asset)
  ↔ existsb (fun e => formats.accepts_amount e && formats.for_account user asset e) es
    = true.
Proof.
  induction es as [|e ds IH] using rev_ind.
  { unfold balance_of, user_balances. cbn. rewrite lookup_empty.
    split; [by intros [? ?]|discriminate]. }
  rewrite add_all_snoc, existsb_app. cbn [existsb]. rewrite orb_false_r.
  pose proof (reachable_well_formed ds h) as Hwf.
  pose proof (AddEntry_fst_normalised e _ (reachable_normalised ds h)) as Hfst.
  destruct (formats.for_account user asset e) eqn:Ef.
  2:{ rewrite AddEntry_other_account by (by apply for_account_false || exact Hwf).
      by rewrite andb_false_r, orb_false_r. }
  apply for_account_spec in Ef as [<- <-]. rewrite andb_true_r.
  destruct (formats.accepts_amount e).
  - rewrite orb_true_r.
    destruct (AddEntry_success _ _ Hfst) as (nb & _ & -> & _). by split; eauto.
  - rewrite orb_false_r. destruct (AddEntry_error _ _ _ Hfst) as (_ & Hub & _).
    unfold balance_of in *. by rewrite Hub.
Qed.

(** The audit trail and the accounts of a ledger after any sequence of
    calls on a new one.  The trail holds exactly the entries whose amount
    parses, in the order of the calls; and an account has a balance exactly
    when one of these entries is for it. *)
Theorem audit_trail_accepted_entries es h :
  entries (add_all es (NewInMemoryLedger h)) = List.filter formats.accepts_amount es
  ∧ ∀ user asset,
      is_Some (balance_of (add_all es (NewInMemoryLedger h)) user asset)
      ↔ ∃ e, e ∈ entries (add_all es (NewInMemoryLedger h))
             ∧ User e = user ∧ Asset e = asset.
Proof.
  split; [apply reachable_entries|]. intros user asset.
  rewrite reachable_balance, reachable_entries, existsb_exists.
  split.
  - intros (e & Hin & He). apply andb_true_iff in He as [Ha Hf].
    apply for_account_spec in Hf as [? ?]. exists e.
    split; [|done]. apply list_elem_of_In, List.filter_In. split; [exact Hin|exact Ha].
  - intros (e & Hin & Hu & Has). apply list_elem_of_In, List.filter_In in Hin as [Hin Ha].
    exists e. split; [exact Hin|]. rewrite Ha. by apply for_account_spec.
Qed.

(** A call of [AddEntry] leaves the balance of every other account as it
    is, whether it succeeds or fails. *)
Theorem AddEntry_other_accounts_untouched es h entry user asset :
  User entry ≠ user ∨ Asset entry ≠ asset →
  balance_of (snd (AddEntry entry (add_all es (NewInMemoryLedger h)))) user asset
  = balance_of (add_all es (NewInMemoryLedger h)) user asset.
Proof. apply AddEntry_other_account, reachable_well_formed. Qed.

(** [AddEntry_other_accounts_untouched] for another asset of the same user. *)
Lemma AddEntry_other_accounts_untouched_witness :
  balance_of
    (snd (AddEntry (mkEntry "user1" "ETH" "2")
            (add_all [mkEntry "user1" "BTC" "100.5"] (NewInMemoryLedger ∅))))
    "user1" "BTC"
  = balance_of (add_all [mkEntry "user1" "BTC" "100.5"] (NewInMemoryLedger ∅))
      "user1" "BTC".
Proof.
  apply (AddEntry_other_accounts_untouched [mkEntry "user1" "BTC" "100.5"] ∅
           (mkEntry "user1" "ETH" "2") "user1" "BTC").
  right. cbn. discriminate.
Defined.

(** The ledger adds without error when no amount has more than eight
    fractional digits.  After any sequence of calls on a new ledger, the
    balance of an account is the fixed-point string of the exact sum of the
    accepted amounts for the account (there is none when no amount for it
    was accepted), so it does not depend on the order of the calls. *)
Theorem ledger_exact_total es h user asset :
  forallb formats.precise es = true →
  balance_of (add_all es (NewInMemoryLedger h)) user asset
  = (if existsb (fun e => formats.accepts_amount e && formats.for_account user asset e) es
     then Some (decimal.StringFixed
                  (decimal.mkDecimal (formats.account_total user asset es) (-8)) 8)
     else None)
  ∧ ∀ es', Permutation es es' →
           balance_of (add_all es' (NewInMemoryLedger h)) user asset
           = balance_of (add_all es (NewInMemoryLedger h)) user asset.
Proof.
  intros Hp. split; [by apply add_all_total|].
  intros es' Hperm. rewrite !add_all_total; [|done|by rewrite <- (forallb_perm _ _ _ Hperm)].
  by rewrite (existsb_perm _ _ _ Hperm), (account_total_perm _ _ _ _ Hperm).
Qed.

(** [ledger_exact_total] for three entries, one of them for another user. *)
Lemma ledger_exact_total_witness :
  balance_of
    (add_all [mkEntry "user1" "BTC" "0.1"; mkEntry "user2" "BTC" "7";
              mkEntry "user1" "BTC" "-0.30000001"] (NewInMemoryLedger ∅))
    "user1" "BTC"
  = Some (decimal.StringFixed (decimal.mkDecimal (-20000001) (-8)) 8).
Proof.
  apply (ledger_exact_total
           [mkEntry "user1" "BTC" "0.1"; mkEntry "user2" "BTC" "7";
            mkEntry "user1" "BTC" "-0.30000001"] ∅ "user1" "BTC").
  vm_compute. reflexivity.
Defined.

(** Goroutines that call [AddEntry] with any entries whose amounts have at
    most eight fractional digits: once all have returned, under any
    schedule, the balance of an account is the exact sum of the accepted
    amounts for it. *)
Theorem concurrent_adds_exact_total es h user asset schedule :
  forallb formats.precise es = true →
  all_returned (exec schedule (start es (NewInMemoryLedger h))) = true →
  balance_of (store (exec schedule (start es (NewInMemoryLedger h)))) user asset
  = if existsb (fun e => formats.accepts_amount e && formats.for_account user asset e) es
    then Some (decimal.StringFixed
                 (decimal.mkDecimal (formats.account_total user asset es) (-8)) 8)
    else None.
Proof.
  intros Hp Hret.
  destruct (goroutines_linearizable es _ schedule Hret) as (ds & Hperm & -> & _).
  rewrite add_all_total by (by rewrite (forallb_perm _ _ _ Hperm)).
  by rewrite (existsb_perm _ _ _ Hperm), (account_total_perm _ _ _ _ Hperm).
Qed.

(** [concurrent_adds_exact_total] for two goroutines that take turns. *)
Lemma concurrent_adds_exact_total_witness :
  balance_of
    (store (exec [1; 0; 1; 0; 1; 0; 1; 0; 0; 0; 0]%nat
              (start [mkEntry "user1" "BTC" "1.5"; mkEntry "user1" "BTC" "-0.25"]
                 (NewInMemoryLedger ∅))))
    "user1" "BTC"
  = Some (decimal.StringFixed (decimal.mkDecimal 125000000 (-8)) 8).
Proof.
  apply (concurrent_adds_exact_total
           [mkEntry "user1" "BTC" "1.5"; mkEntry "user1" "BTC" "-0.25"] ∅
           "user1" "BTC" [1; 0; 1; 0; 1; 0; 1; 0; 0; 0; 0]%nat).
  - vm_compute. reflexivity.
  - vm_compute. reflexivity.
Defined.

(** ** The use case *)

Lemma Validate_None req :
  entity.Validate req = None
  ↔ entity.User req ≠ "" ∧ entity.Asset req ≠ "" ∧ entity.Amount req ≠ "".
Proof.
  unfold entity.Validate.
  destruct (decide (entity.User req = "")), (decide (entity.Asset req = "")),
    (decide (entity.Amount req = "")); split; try discriminate; tauto.
Qed.

(** [ProcessWebhookUseCase.Execute] on a ledger reached from a new one by
    any calls.  It returns no error exactly when the three fields are not
    empty and the amount parses as a decimal; the entry is then appended to
    the audit trail.  On an error the audit trail and all balances are as
    before; the error is the entity's exactly when a field is empty, and
    then the ledger is not touched at all. *)
Theorem Execute_outcome req es h :
  let σ := add_all es (NewInMemoryLedger h) in
  (fst (usecase.Execute req σ) = None
   ↔ entity.User req ≠ "" ∧ entity.Asset req ≠ ""
     ∧ is_Some (decimal.NewFromString (entity.Amount req)))
  ∧ (fst (usecase.Execute req σ) = None →
     entries (snd (usecase.Execute req σ))
     = entries σ ++ [mkEntry (entity.User req) (entity.Asset req) (entity.Amount req)])
  ∧ (∀ err, fst (usecase.Execute req σ) = Some err →
            entries (snd (usecase.Execute req σ)) = entries σ
            ∧ ∀ user, user_balances (snd (usecase.Execute req σ)) user
                      = user_balances σ user)
  ∧ (∀ err, fst (usecase.Execute req σ) = Some (usecase.Invalid err)
            ↔ entity.Validate req = Some err)
  ∧ (entity.Validate req ≠ None → snd (usecase.Execute req σ) = σ).
Proof.
  intros σ. unfold usecase.Execute.
  pose proof (Validate_None req) as Hv.
  destruct (entity.Validate req) as [verr|] eqn:Ev.
  - cbn [fst snd]. split; [|split; [|split; [|split]]]; try done.
    + split; [discriminate|]. intros (Hu & Ha & [d Hd]).
      apply NewFromString_nonempty in Hd.
      destruct Hv as [_ Hv]. by specialize (Hv (conj Hu (conj Ha Hd))).
    + intros err. split; congruence.
  - destruct Hv as [Hv _]. destruct (Hv eq_refl) as (Hu & Ha & Hm).
    set (entry := mkEntry (entity.User req) (entity.Asset req) (entity.Amount req)).
    pose proof (AddEntry_fst_normalised entry σ (reachable_normalised es h)) as Hfst.
    destruct (AddEntry entry σ) as [err σ'] eqn:E. cbn [fst snd] in *.
    assert (formats.amount_read (Amount entry) = entity.Amount req) as Hread.
    { unfold formats.amount_read. cbn [Amount entry].
      by destruct (decide (entity.Amount req = "")). }
    unfold formats.accepts_amount in Hfst. rewrite Hread in Hfst.
    split; [|split; [|split; [|split]]].
    + destruct (decimal.NewFromString (entity.Amount req)) as [d|]; subst err; cbn.
      * split; eauto.
      * split; [discriminate|]. intros (_ & _ & [? ?]). discriminate.
    + intros Hnone. destruct err; [discriminate|].
      pose proof (AddEntry_success entry σ) as Hs. rewrite E in Hs.
      cbn [fst snd] in Hs. by destruct (Hs eq_refl) as (nb & _ & _ & ->).
    + intros err' Herr. destruct err as [e|]; [|discriminate].
      pose proof (AddEntry_error entry σ e) as He. rewrite E in He.
      cbn [fst snd] in He. destruct (He eq_refl) as (? & ? & _). done.
    + intros err'. split; [|discriminate]. by destruct err.
    + done.
Qed.

(** ** The webhook handler *)

(** A ledger entry is written only for a request that passed the validator.
    [HandleWebhook] answers 200 only when the method is POST, the body was
    read, [ValidateRequest] returned no error for the headers and this body,
    the body decoded and no field was empty; the decoded entry is then the
    one appended to the audit trail.  With any other status the audit trail
    and all balances are as before, and unless the status is 500 the ledger
    is not touched at all. *)
Theorem webhook_credited_only_when_validated
    (Unmarshal : list byte → option entity.WebhookRequest) v clk r s :
  let out := httphandler.HandleWebhook Unmarshal v clk r s in
  (httphandler.StatusCode (fst out) = httphandler.StatusOK →
   ∃ body w,
     httphandler.Method r = "POST"
     ∧ httphandler.Body r = Some body
     ∧ fst (ValidateRequest v clk (httphandler.Header r) body (httphandler.nonces s))
       = None
     ∧ Unmarshal body = Some w
     ∧ entity.Validate w = None
     ∧ entries (httphandler.ledger (snd out))
       = entries (httphandler.ledger s)
         ++ [mkEntry (entity.User w) (entity.Asset w) (entity.Amount w)])
  ∧ (httphandler.StatusCode (fst out) ≠ httphandler.StatusOK →
     entries (httphandler.ledger (snd out)) = entries (httphandler.ledger s)
     ∧ ∀ user, user_balances (httphandler.ledger (snd out)) user
               = user_balances (httphandler.ledger s) user)
  ∧ (httphandler.StatusCode (fst out) ≠ httphandler.StatusOK →
     httphandler.StatusCode (fst out) ≠ httphandler.StatusInternalServerError →
     httphandler.ledger (snd out) = httphandler.ledger s).
Proof.
  cbv zeta. unfold httphandler.HandleWebhook.
  destruct (String.eqb (httphandler.Method r) "POST") eqn:Em; cbn [negb];
    [|by repeat split].
  apply String.eqb_eq in Em.
  destruct (httphandler.Body r) as [body|] eqn:Eb; [|by repeat split].
  destruct (ValidateRequest v clk (httphandler.Header r) body (httphandler.nonces s))
    as [verr nonces'] eqn:Ev.
  destruct verr as [err|]; [by repeat split|].
  destruct (Unmarshal body) as [w|] eqn:Eu; [|by repeat split].
  unfold usecase.Execute.
  destruct (entity.Validate w) as [err|] eqn:Ew; [by repeat split|].
  set (entry := mkEntry (entity.User w) (entity.Asset w) (entity.Amount w)).
  pose proof (AddEntry_success entry (httphandler.ledger s)) as Hs.
  pose proof (AddEntry_error entry (httphandler.ledger s)) as He.
  destruct (AddEntry entry (httphandler.ledger s)) as [[err|] σ'];
    cbn [fst snd option_map httphandler.StatusCode httphandler.ledger] in *.
  - destruct (He err eq_refl) as (Hent & Hub & _). by repeat split.
  - destruct (Hs eq_refl) as (nb & _ & _ & Hent).
    split; [|by split].
    intros _. exists body, w. by rewrite Ev.
Qed.

(** ** A consumed nonce at the handler *)

Lemma first_failure_early v clk r body nonces :
  reaches v clk r body nonces Unseen = false →
  ∃ err, first_failure v clk r body nonces = Some err
         ∧ err ≠ InvalidSignature ∧ err ≠ ComputeSignatureFailed.
Proof.
  unfold reaches. rewrite before_Unseen. unfold first_failure, check_order.
  cbn [forallb List.find]. intros H.
  repeat match goal with
  | |- context [negb (passes ?v ?c ?r ?b ?n ?k)] =>
      destruct (passes v c r b n k);
      cbn [negb andb option_map] in *;
      [|eexists; split; [reflexivity|split; discriminate]]
  end.
  discriminate.
Qed.

(** The nonce check accepted the nonce when [ValidateRequest] returns no
    error or the invalid-signature one. *)
Lemma past_nonce_check v clk r body nonces :
  fst (ValidateRequest v clk r body nonces) = None
  ∨ fst (ValidateRequest v clk r body nonces) = Some InvalidSignature
  ∨ fst (ValidateRequest v clk r body nonces) = Some ComputeSignatureFailed →
  reaches v clk r body nonces Unseen = true
  ∧ passes v clk r body nonces Unseen = true.
Proof.
  rewrite ValidateRequest_first_failure.
  destruct (reaches v clk r body nonces Unseen) eqn:Hr.
  - rewrite (first_failure_from_Unseen _ _ _ _ _ Hr).
    destruct (passes v clk r body nonces Unseen); [done|].
    intros [H|[H|H]]; discriminate.
  - destruct (first_failure_early _ _ _ _ _ Hr) as (err & -> & H1 & H2).
    intros [H|[H|H]]; congruence.
Qed.

(** A request whose nonce is recorded and not more than an hour old is
    refused, and the store is left as it is. *)
Lemma recorded_nonce_refused v clk r body (nonces : gmap string Z) t0 :
  nonces !! X_Nonce r = Some t0 →
  ¬ time.Hour < time.Sub (at_lookup clk) t0 →
  ∃ err, ValidateRequest v clk r body nonces = (Some err, nonces).
Proof.
  intros Hrec Hwin.
  pose proof (IsValid_recorded clk (X_Nonce r) (request_time r) t0 nonces Hrec Hwin) as Hv.
  rewrite (surjective_pairing (ValidateRequest v clk r body nonces)).
  rewrite ValidateRequest_store, ValidateRequest_first_failure, Hv. cbn [snd].
  destruct (first_failure v clk r body nonces) as [err|] eqn:Ef.
  - exists err. by destruct (reaches v clk r body nonces Unseen).
  - exfalso. apply first_failure_None in Ef. unfold check_order in Ef.
    rewrite !Forall_cons in Ef. destruct Ef as (_ & _ & _ & _ & _ & Hu & _).
    cbn [passes] in Hu. rewrite Hv in Hu. discriminate.
Qed.

Lemma HandleWebhook_nonces (Unmarshal : list byte → option entity.WebhookRequest)
    v clk r s :
  httphandler.nonces (snd (httphandler.HandleWebhook Unmarshal v clk r s))
  = if String.eqb (httphandler.Method r) "POST" then
      match httphandler.Body r with
      | Some body =>
          snd (ValidateRequest v clk (httphandler.Header r) body (httphandler.nonces s))
      | None => httphandler.nonces s
      end
    else httphandler.nonces s.
Proof.
  unfold httphandler.HandleWebhook.
  destruct (String.eqb (httphandler.Method r) "POST"); cbn [negb]; [|reflexivity].
  destruct (httphandler.Body r) as [body|]; [|reflexivity].
  destruct (ValidateRequest _ _ _ _ _) as [[err|] nonces']; [reflexivity|].
  destruct (Unmarshal body) as [w|]; [|reflexivity].
  destruct (usecase.Execute _ _) as [[err|] σ']; reflexivity.
Qed.

(** The nonce store after a sequence of webhook requests is the store after
    the calls of [ValidateRequest] they lead to. *)
Lemma serve_nonces (Unmarshal : list byte → option entity.WebhookRequest) v xs :
  ∀ s, ∃ calls,
    httphandler.nonces (httphandler.serve Unmarshal v xs s)
    = run v calls (httphandler.nonces s)
    ∧ ∀ bound,
        forallb (fun x => not_after bound (httphandler.exchange_clock x)) xs = true →
        forallb (fun c => not_after bound (call_clock c)) calls = true.
Proof.
  induction xs as [|x xs IH]; intros s.
  { exists []. by split. }
  unfold httphandler.serve. cbn [fold_left].
  destruct (IH (snd (httphandler.HandleWebhook Unmarshal v
                       (httphandler.exchange_clock x)
                       (httphandler.exchange_request x) s))) as (calls & Hn & Hc).
  unfold httphandler.serve in Hn. rewrite Hn, HandleWebhook_nonces.
  destruct (String.eqb _ "POST");
    [destruct (httphandler.Body (httphandler.exchange_request x)) as [body|]|].
  - exists (mkCall (httphandler.exchange_clock x)
              (httphandler.Header (httphandler.exchange_request x)) body :: calls).
    split; [reflexivity|]. intros bound. cbn [forallb call_clock].
    rewrite !andb_true_iff. intros [? ?]. auto.
  - exists calls. split; [reflexivity|]. intros bound. cbn [forallb].
    rewrite andb_true_iff. intros [? ?]. auto.
  - exists calls. split; [reflexivity|]. intros bound. cbn [forallb].
    rewrite andb_true_iff. intros [? ?]. auto.
Qed.

Lemma consumes_nonce_validated (Unmarshal : list byte → option entity.WebhookRequest)
    v clk r s :
  httphandler.consumes_nonce (fst (httphandler.HandleWebhook Unmarshal v clk r s))
  = true →
  ∃ body,
    reaches v clk (httphandler.Header r) body (httphandler.nonces s) Unseen = true
    ∧ passes v clk (httphandler.Header r) body (httphandler.nonces s) Unseen = true
    ∧ httphandler.nonces (snd (httphandler.HandleWebhook Unmarshal v clk r s))
      = snd (ValidateRequest v clk (httphandler.Header r) body (httphandler.nonces s)).
Proof.
  rewrite HandleWebhook_nonces. unfold httphandler.HandleWebhook.
  destruct (String.eqb (httphandler.Method r) "POST"); cbn [negb]; [|discriminate].
  destruct (httphandler.Body r) as [body|]; [|discriminate].
  pose proof (past_nonce_check v clk (httphandler.Header r) body (httphandler.nonces s))
    as Hp.
  destruct (ValidateRequest _ _ _ _ _) as [[err|] nonces'] eqn:Ev; cbn [fst snd] in *.
  - unfold httphandler.consumes_nonce. cbn [httphandler.Written].
    intros H. apply bool_decide_eq_true in H.
    exists body. rewrite Ev.
    split; [|split; [|reflexivity]]; apply Hp; destruct H; subst; auto.
  - intros _. exists body. rewrite Ev.
    split; [|split; [|reflexivity]]; apply Hp; auto.
Qed.

(** A consumed nonce is refused at the handler.  When [HandleWebhook] has
    answered a request in a way that shows the nonce was accepted (200, the
    invalid-JSON 400, 500, or the invalid-signature 401), a later request
    with the same nonce, looked up not more than an hour after the time of
    the first, changes nothing on the server and is answered 401 when it is
    a POST whose body can be read (405 or 400 otherwise), whatever was served
    in between. *)
Theorem consumed_nonce_refused
    (Unmarshal : list byte → option entity.WebhookRequest) v x xs y s :
  let s1 :=
    snd (httphandler.HandleWebhook Unmarshal v (httphandler.exchange_clock x)
           (httphandler.exchange_request x) s) in
  let s2 := httphandler.serve Unmarshal v xs s1 in
  let out :=
    httphandler.HandleWebhook Unmarshal v (httphandler.exchange_clock y)
      (httphandler.exchange_request y) s2 in
  httphandler.consumes_nonce
    (fst (httphandler.HandleWebhook Unmarshal v (httphandler.exchange_clock x)
            (httphandler.exchange_request x) s)) = true →
  X_Nonce (httphandler.Header (httphandler.exchange_request y))
  = X_Nonce (httphandler.Header (httphandler.exchange_request x)) →
  not_after (at_lookup (httphandler.exchange_clock y)) (httphandler.exchange_clock x)
  = true →
  forallb (fun z => not_after (at_lookup (httphandler.exchange_clock y))
                      (httphandler.exchange_clock z)) xs = true →
  ¬ time.Hour
    < time.Sub (at_lookup (httphandler.exchange_clock y))
        (request_time (httphandler.Header (httphandler.exchange_request x))) →
  snd out = s2
  ∧ httphandler.StatusCode (fst out)
    = (if negb (String.eqb (httphandler.Method (httphandler.exchange_request y)) "POST")
       then httphandler.StatusMethodNotAllowed
       else match httphandler.Body (httphandler.exchange_request y) with
            | None => httphandler.StatusBadRequest
            | Some _ => httphandler.StatusUnauthorized
            end).
Proof.
  cbv zeta. intros Hc Hnonce Hx Hxs Hwin.
  destruct (consumes_nonce_validated _ _ _ _ _ Hc) as (body1 & Hr & Hp & Hn1).
  set (s1 := snd (httphandler.HandleWebhook Unmarshal v _ _ s)) in *.
  destruct (serve_nonces Unmarshal v xs s1) as (calls & Hn2 & Hcalls).
  specialize (Hcalls _ Hxs).
  apply not_after_le in Hx as (_ & _ & Hx).
  pose proof (consumed_recorded v _ _ body1 _ calls _ Hr Hp Hx Hcalls) as Hrec.
  rewrite <- Hn1, <- Hn2, <- Hnonce in Hrec.
  set (s2 := httphandler.serve Unmarshal v xs s1) in *.
  destruct Hrec as [Hrec|(t & Ht & Hold)].
  2:{ exfalso. apply Hwin.
      pose proof (Sub_mono t _
                    (request_time (httphandler.Header (httphandler.exchange_request x)))
                    Ht). lia. }
  unfold httphandler.HandleWebhook.
  destruct (negb (String.eqb (httphandler.Method (httphandler.exchange_request y)) "POST"));
    [done|].
  destruct (httphandler.Body (httphandler.exchange_request y)) as [body2|]; [|done].
  destruct (recorded_nonce_refused v (httphandler.exchange_clock y)
              (httphandler.Header (httphandler.exchange_request y)) body2
              (httphandler.nonces s2) _ Hrec Hwin) as (err & ->).
  cbn [fst snd httphandler.StatusCode]. split; [by destruct s2|reflexivity].
Qed.

(** [consumed_nonce_refused] for a signed webhook that is credited, followed
    by another webhook, and sent again ten seconds later. *)
Lemma consumed_nonce_refused_witness :
  let Unmarshal := fun _ : list byte => Some (entity.mkWebhookRequest "user1" "BTC" "1.5") in
  let v := mkValidator "test-secret-key" (5 * time.Minute) in
  let x :=
    httphandler.mkExchange (instant 1700000000)
      (httphandler.mkHTTPRequest "POST" "/webhook"
         (signed v "1700000000" "n1" (bytes_of "body")) (Some (bytes_of "body"))) in
  let z :=
    httphandler.mkExchange (instant 1700000005)
      (httphandler.mkHTTPRequest "POST" "/webhook"
         (signed v "1700000005" "n2" (bytes_of "body")) (Some (bytes_of "body"))) in
  let y := httphandler.mkExchange (instant 1700000010) (httphandler.exchange_request x) in
  let s := httphandler.mkServer ∅ (NewInMemoryLedger ∅) in
  let s2 :=
    httphandler.serve Unmarshal v [z]
      (snd (httphandler.HandleWebhook Unmarshal v (httphandler.exchange_clock x)
              (httphandler.exchange_request x) s)) in
  snd (httphandler.HandleWebhook Unmarshal v (httphandler.exchange_clock y)
         (httphandler.exchange_request y) s2) = s2.
Proof.
  cbv zeta.
  apply (consumed_nonce_refused
           (fun _ : list byte => Some (entity.mkWebhookRequest "user1" "BTC" "1.5"))
           (mkValidator "test-secret-key" (5 * time.Minute))
           (httphandler.mkExchange (instant 1700000000)
              (httphandler.mkHTTPRequest "POST" "/webhook"
                 (signed (mkValidator "test-secret-key" (5 * time.Minute))
                    "1700000000" "n1" (bytes_of "body")) (Some (bytes_of "body"))))
           [httphandler.mkExchange (instant 1700000005)
              (httphandler.mkHTTPRequest "POST" "/webhook"
                 (signed (mkValidator "test-secret-key" (5 * time.Minute))
                    "1700000005" "n2" (bytes_of "body")) (Some (bytes_of "body")))]
           (httphandler.mkExchange (instant 1700000010)
              (httphandler.mkHTTPRequest "POST" "/webhook"
                 (signed (mkValidator "test-secret-key" (5 * time.Minute))
                    "1700000000" "n1" (bytes_of "body")) (Some (bytes_of "body"))))
           (httphandler.mkServer ∅ (NewInMemoryLedger ∅))).
  - vm_compute. reflexivity.
  - reflexivity.
  - vm_compute. reflexivity.
  - vm_compute. reflexivity.
  - vm_compute. discriminate.
Defined.

(** ** The balance handler *)

Lemma cut_prefix_Some prefix : ∀ s rest,
  gostrings.cut_prefix s prefix = Some rest ↔ s = String.append prefix rest.
Proof.
  induction prefix as [|c prefix IH]; intros s rest; cbn [gostrings.cut_prefix String.append].
  - split; [by intros [= ->]|by intros ->].
  - destruct s as [|d s]; [split; discriminate|].
    destruct (Ascii.eqb_spec c d) as [<-|Hne].
    + rewrite IH. split; [by intros ->|by intros [= ->]].
    + split; [discriminate|]. intros [= E _]. congruence.
Qed.

Lemma append_length a b :
  String.length (String.append a b) = (String.length a + String.length b)%nat.
Proof. induction a as [|c a IH]; [reflexivity|]. simpl. f_equal. exact IH. Qed.

Lemma append_cancel p a b : String.append p a = String.append p b → a = b.
Proof.
  induction p as [|c p IH]; intros H; [exact H|].
  apply IH. simpl in H. by injection H.
Qed.

(** The test [HandleBalance] makes on the path: it passes exactly for a path
    that is the prefix followed by a user that is not empty, and the user is
    then what [TrimPrefix] returns. *)
Lemma TrimPrefix_balance path :
  (∃ user, user ≠ "" ∧ path = String.append "/balance/" user
           ∧ gostrings.TrimPrefix path "/balance/" = user
           ∧ String.eqb (gostrings.TrimPrefix path "/balance/") ""
             || String.eqb (gostrings.TrimPrefix path "/balance/") path = false)
  ∨ ((∀ user, path = String.append "/balance/" user → user = "")
     ∧ String.eqb (gostrings.TrimPrefix path "/balance/") ""
       || String.eqb (gostrings.TrimPrefix path "/balance/") path = true).
Proof.
  unfold gostrings.TrimPrefix.
  destruct (gostrings.cut_prefix path "/balance/") as [rest|] eqn:E.
  - apply cut_prefix_Some in E.
    destruct (String.eqb_spec rest "") as [->|Hne].
    + right. split; [|reflexivity]. intros user Hu. rewrite E in Hu.
      apply (f_equal String.length) in Hu. rewrite !append_length in Hu.
      destruct user; [reflexivity|]. cbn [String.length] in Hu. lia.
    + left. exists rest. repeat split; try done. cbn [orb].
      apply String.eqb_neq. intros Hr. rewrite E in Hr.
      apply (f_equal String.length) in Hr. rewrite append_length in Hr.
      cbn [String.length] in Hr. lia.
  - right. rewrite String.eqb_refl, orb_true_r. split; [|reflexivity].
    intros user Hu. apply cut_prefix_Some in Hu. congruence.
Qed.

(** [HandleBalance].  Any method but GET is answered 405.  A GET whose path
    is [/balance/] followed by a user that is not empty is answered 200
    with that user, slashes included, and the balances the ledger holds
    for it, which are none for a user it has never seen; any other GET is
    answered 400.  It never answers 500, and the nonce store, the audit
    trail and all balances are as before. *)
Theorem HandleBalance_outcome r s :
  well_formed (httphandler.ledger s) →
  (httphandler.Method r ≠ "GET" →
   httphandler.HandleBalance r s
   = (httphandler.mkResponse httphandler.StatusMethodNotAllowed
        (httphandler.Message "Method not allowed"), s))
  ∧ (httphandler.Method r = "GET" →
     ∀ user, user ≠ "" → httphandler.Path r = String.append "/balance/" user →
             fst (httphandler.HandleBalance r s)
             = httphandler.mkResponse httphandler.StatusOK
                 (httphandler.BalanceObject user
                    (user_balances (httphandler.ledger s) user)))
  ∧ (httphandler.Method r = "GET" →
     (∀ user, httphandler.Path r = String.append "/balance/" user → user = "") →
     httphandler.HandleBalance r s
     = (httphandler.mkResponse httphandler.StatusBadRequest
          (httphandler.Message "Missing user parameter"), s))
  ∧ httphandler.StatusCode (fst (httphandler.HandleBalance r s))
    ≠ httphandler.StatusInternalServerError
  ∧ httphandler.nonces (snd (httphandler.HandleBalance r s)) = httphandler.nonces s
  ∧ entries (httphandler.ledger (snd (httphandler.HandleBalance r s)))
    = entries (httphandler.ledger s)
  ∧ (∀ user, user_balances (httphandler.ledger (snd (httphandler.HandleBalance r s))) user
             = user_balances (httphandler.ledger s) user).
Proof.
  intros (Hdom & _ & _). unfold httphandler.HandleBalance.
  destruct (String.eqb_spec (httphandler.Method r) "GET") as [Em|Em]; cbn [negb].
  2:{ repeat split; try done. }
  unfold usecase.GetBalance. rewrite GetBalance_eq.
  cbn [repository.resp_User repository.Balances heap fst snd].
  rewrite lookup_total_insert_eq.
  assert (∀ m user,
            user_balances
              (mkState (<[fresh (dom (heap (httphandler.ledger s))) := m]>
                          (heap (httphandler.ledger s)))
                 (balances (httphandler.ledger s)) (entries (httphandler.ledger s))) user
            = user_balances (httphandler.ledger s) user) as Hub.
  { intros m user. unfold user_balances. cbn [balances heap].
    destruct (balances (httphandler.ledger s) !! user) as [l|] eqn:El; [|reflexivity].
    rewrite lookup_total_insert_ne; [reflexivity|]. intros <-.
    destruct (Hdom _ _ El) as [m0 Hm]. by rewrite fresh_heap in Hm. }
  destruct (TrimPrefix_balance (httphandler.Path r))
    as [(user & Hne & Hpath & -> & ->)|(Hnone & ->)].
  - cbn [fst snd httphandler.StatusCode httphandler.nonces httphandler.ledger entries].
    split; [done|]. split.
    { intros _ user' Hne' Hpath'. rewrite Hpath in Hpath'.
      apply append_cancel in Hpath' as <-. reflexivity. }
    split.
    { intros _ H. by destruct (Hne (H _ Hpath)). }
    repeat split; first [done | apply Hub].
  - cbn [fst snd httphandler.StatusCode].
    split; [done|]. split.
    { intros _ user Hne Hpath. by destruct (Hne (Hnone _ Hpath)). }
    repeat split; done.
Qed.

(** [HandleBalance_outcome] on a server with one ledger entry. *)
Lemma HandleBalance_outcome_witness :
  httphandler.nonces
    (snd (httphandler.HandleBalance
            (httphandler.mkHTTPRequest "GET" "/balance/user1"
               (mkRequest "" "" "") None)
            (httphandler.mkServer ∅
               (add_all [mkEntry "user1" "BTC" "100.5"] (NewInMemoryLedger ∅)))))
  = ∅.
Proof.
  apply (HandleBalance_outcome
           (httphandler.mkHTTPRequest "GET" "/balance/user1" (mkRequest "" "" "") None)
           (httphandler.mkServer ∅
              (add_all [mkEntry "user1" "BTC" "100.5"] (NewInMemoryLedger ∅)))
           (add_all_well_formed _ _ (well_formed_new ∅))).
Defined.

(** ** The mutex *)

Lemma reachable_linearized es σ schedule :
  ∃ ds, linearized σ es ds (exec schedule (start es σ)).
Proof. eapply exec_linearized, start_linearized. Qed.

Lemma in_section_inside σ0 ds t st : in_section σ0 ds t st → outside t = false.
Proof. by destruct t. Qed.

Lemma forallb_false_lookup {A} (p : A → bool) l :
  forallb p l = false → ∃ i x, l !! i = Some x ∧ p x = false.
Proof.
  induction l as [|a l IH]; [discriminate|]. cbn [forallb].
  destruct (p a) eqn:E; cbn [andb].
  - intros H. destruct (IH H) as (i & x & Hi & Hx). by exists (S i), x.
  - intros _. by exists O, a.
Qed.

(** Mutual exclusion.  In every state the goroutines calling [AddEntry] can
    reach, under any schedule, either the mutex is free and every goroutine
    is before [Lock] or has returned, or the mutex is held and exactly one
    goroutine is between [Lock] and [Unlock]. *)
Theorem goroutines_mutual_exclusion es σ schedule :
  (locked (exec schedule (start es σ)) = false
   ∧ Forall (fun t => outside t = true) (threads (exec schedule (start es σ))))
  ∨ (locked (exec schedule (start es σ)) = true
     ∧ ∃ i t, threads (exec schedule (start es σ)) !! i = Some t
              ∧ outside t = false
              ∧ ∀ j t', j ≠ i → threads (exec schedule (start es σ)) !! j = Some t' →
                        outside t' = true).
Proof.
  destruct (reachable_linearized es σ schedule) as (ds & _ & H).
  destruct (locked (exec schedule (start es σ))); [right|left; by destruct H].
  destruct H as (i & t & Hi & Hsec & Hout). split; [reflexivity|].
  exists i, t. split; [exact Hi|]. split; [by eapply in_section_inside|exact Hout].
Qed.

(** No deadlock.  In every state the goroutines can reach, either all of
    them have returned or one that has not returned can take a step: the
    mutex is released on the error path as on the other. *)
Theorem goroutines_no_deadlock es σ schedule :
  all_returned (exec schedule (start es σ)) = true
  ∨ ∃ i t, threads (exec schedule (start es σ)) !! i = Some t
           ∧ returned t = false
           ∧ threads (step (exec schedule (start es σ)) i) !! i ≠ Some t.
Proof.
  destruct (reachable_linearized es σ schedule) as (ds & _ & H).
  set (m := exec schedule (start es σ)) in *.
  destruct (all_returned m) eqn:Hret; [by left|right].
  unfold step. destruct (locked m) eqn:El.
  - destruct H as (i & t & Hi & Hsec & _).
    pose proof (lookup_lt_Some _ _ _ Hi) as Hlt.
    exists i, t. split; [exact Hi|]. rewrite Hi.
    destruct t as [e|e|e l [nb|]|err|err]; cbn [in_section] in Hsec; try done;
      try destruct (prepare e (store m)) as [[σ1 l] cur];
      cbn [threads]; rewrite list_lookup_insert_eq by done; by split.
  - destruct H as [_ Hall].
    destruct (forallb_false_lookup _ _ Hret) as (i & t & Hi & Ht).
    pose proof (lookup_lt_Some _ _ _ Hi) as Hlt.
    pose proof (proj1 (Forall_lookup _ _) Hall i t Hi) as Ho.
    exists i, t. split; [exact Hi|]. rewrite Hi.
    destruct t as [e|e|e l r|err|err]; try discriminate.
    cbn [threads]. rewrite list_lookup_insert_eq by done. by split.
Qed.
